(** * RUPTURA 2.0, Ergun variant: the breakthrough integrator

    A shallow embedding of [src/ergun_approach2/breakthrough.cpp]
    (constructor, [initialize], [computeStep], [computeEquilibriumLoadings],
    [computeFirstDerivatives], [computeVelocity], [computeInitialPressure])
    and the properties of the specification that concern it.

    Modelling conventions.
    - [double] is IEEE binary64: Rocq's primitive [float], whose operations
      round to nearest-even as the C++ operators do when every operation is
      rounded on its own (no fused multiply-add, no excess precision).
      Literals are written as in the source and are rounded the same way.
      The expressions keep the source's association and operand order.
    - [size_t] counters and indices are [nat]; the vectors of this program
      are far below 2^64 entries, so no index wraps.  The source's
      [Ngrid - 1] wraps when [Ngrid] is 0; the well-formedness predicate
      excludes that case (there [dx] is [L / 0] already).
    - The member vectors are a store indexed by the name of the vector
      ([Buf]), because [computeFirstDerivatives] receives them by reference.
    - A read past the end of a vector is undefined behaviour in C++.  The
      model leaves the value obtained unspecified: it is [oob v i], a
      parameter.  A write past the end does not occur on vectors of the
      constructor's sizes when the carrier index is below [Ncomp]; the
      model's write does nothing there.
    - [pow] (libm) and [MixturePrediction::predictMixture] are not part of
      the translated file; they are parameters of the model.
    - Output to [std::cout] is not modelled. *)

Set Warnings "-inexact-float".
Set Default Proof Using "Type*".
From Stdlib Require Import ZArith Uint63 Floats Lia.
From stdpp Require Import base decidable functions list.

(** ** IEEE doubles *)

(** [static_cast<double>(n)] for a [size_t] n. *)
Definition of_size_t (n : nat) : float :=
  PrimFloat.of_uint63 (Uint63.of_Z (Z.of_nat n)).

(** [static_cast<size_t>(x)]: truncation toward zero.  C++ leaves the
    conversion of NaN, infinities and values outside the range of [size_t]
    undefined; the model returns 0 for NaN, infinities and negatives. *)
Definition to_size_t (x : float) : nat :=
  match Prim2SF x with
  | S754_finite false m e => Z.to_nat (Z.shiftl (Z.pos m) e)
  | _ => 0
  end.

(** [std::max(a, b)] is [(a < b) ? b : a]. *)
Definition fmax (a b : float) : float := if (a <? b)%float then b else a.

(** The universal gas constant of the source. *)
Definition R : float := 8.31446261815324%float.

(** ** Data *)

(** The fields of [Component] that the integrator reads. *)
Record Component := mkComponent {
  Yi0 : float;   (* inlet mole fraction *)
  Kl : float;    (* mass-transfer coefficient *)
  D : float      (* axial dispersion coefficient *)
}.

(** The members of [Breakthrough] that are fixed once constructed. *)
Record Params := mkParams {
  components : list Component;
  carrierGasComponent : nat;
  Ngrid : nat;
  T : float;
  p_total : float;
  dptdx : float;
  epsilon : float;
  rho_p : float;
  v_in : float;
  L : float;
  dt : float;
  pulse : bool;
  tpulse : float;
  maxIsothermTerms : nat;
  numberOfTimeSteps : nat;          (* initial value of Nsteps *)
  autoNumberOfTimeSteps : bool      (* initial value of autoSteps *)
}.

Definition Ncomp (prm : Params) : nat := length (components prm).

Definition dx (prm : Params) : float := (L prm / of_size_t (Ngrid prm))%float.

(** [components[j]]; every use has [j < Ncomp]. *)
Definition component (prm : Params) (j : nat) : Component :=
  default (mkComponent 0 0 0) (components prm !! j).

(** The names of the member vectors of doubles. *)
Inductive Buf :=
  | prefactor
  | Yi | Yinew
  | V | Vnew
  | Pt | Ptnew
  | P | Pnew
  | Q | Qnew
  | Qeq | Qeqnew
  | Dpdt | Dpdtnew
  | Dqdt | Dqdtnew
  | Dydt | Dydtnew.

#[global] Instance Buf_eq_dec : EqDecision Buf.
Proof. solve_decision. Defined.

(** The per-node slices of [cachedP0] and [cachedPsi] handed to the oracle:
    node [i] owns [cachedP0[i*Ncomp*maxIsothermTerms ..]] and
    [cachedPsi[i*maxIsothermTerms ..]]. *)
Record Cache := mkCache { cachedP0 : list float; cachedPsi : list float }.

(** What one call of [predictMixture] leaves behind: the vectors [Xi] and
    [Ni] and the node's cache slices, all passed by reference, and the
    returned pair that is added to [iastPerformance]. *)
Record Prediction := mkPrediction {
  pred_Xi : list float;
  pred_Ni : list float;
  pred_cache : Cache;
  pred_perf : nat * nat
}.

(** The mutable members of [Breakthrough]. *)
Record State := mkState {
  vec : Buf -> list float;
  Xi : list float;
  Ni : list float;
  cache : list Cache;
  iastPerformance : nat * nat;
  Nsteps : nat;
  autoSteps : bool
}.

(** The result of a member function that may [throw]. *)
Inductive exn := runtime_error_negative_outlet_pressure.

Inductive result (A : Type) :=
  | Ok (a : A)
  | Throw (e : exn).
Arguments Ok {A} a.
Arguments Throw {A} e.

#[global] Instance result_ret : MRet result := fun A a => Ok a.

#[global] Instance result_bind : MBind result := fun A B k r =>
  match r with
  | Ok a => k a
  | Throw e => Throw e
  end.

(** [for (i = lo; i < hi; ++i) body]. *)
Definition for_loop {A} (lo hi : nat) (body : nat -> A -> A) (a : A) : A :=
  fold_left (fun a i => body i a) (seq lo (hi - lo)) a.

(** [for (i = hi; i > lo; --i) body]. *)
Definition for_down {A} (hi lo : nat) (body : nat -> A -> A) (a : A) : A :=
  fold_left (fun a i => body i a) (rev (seq (S lo) (hi - lo))) a.

Definition set_vec (f : Buf -> list float) (s : State) : State :=
  mkState f (Xi s) (Ni s) (cache s) (iastPerformance s) (Nsteps s) (autoSteps s).

(** [b[i] = x] on a member vector. *)
Definition wr (b : Buf) (i : nat) (x : float) (s : State) : State :=
  set_vec (<[b := <[i := x]> (vec s b)]> (vec s)) s.

Arguments wr b i%_nat x%_float s.

(** [std::fill(b.begin(), b.end(), x)]. *)
Definition fill (b : Buf) (x : float) (s : State) : State :=
  set_vec (<[b := replicate (length (vec s b)) x]> (vec s)) s.

(** [std::copy(src.begin(), src.end(), dst.begin())] for vectors of equal
    size, as all six copies of [computeStep] are. *)
Definition copy (src dst : Buf) (s : State) : State :=
  set_vec (<[dst := vec s src]> (vec s)) s.

(** [operator+=] on [std::pair<size_t, size_t>] (lines 84-90). *)
Definition pair_add (l r : nat * nat) : nat * nat := (l.1 + r.1, l.2 + r.2).

Definition set_Nsteps (n : nat) (s : State) : State :=
  mkState (vec s) (Xi s) (Ni s) (cache s) (iastPerformance s) n (autoSteps s).

Definition set_autoSteps (a : bool) (s : State) : State :=
  mkState (vec s) (Xi s) (Ni s) (cache s) (iastPerformance s) (Nsteps s) a.

(** The effect of one [iastPerformance += mixture.predictMixture(...)] at
    node [i]: [Xi], [Ni] and the node's cache slices are overwritten, the
    returned pair is accumulated. *)
Definition record_prediction (i : nat) (r : Prediction) (s : State) : State :=
  mkState (vec s) (pred_Xi r) (pred_Ni r) (<[i := pred_cache r]> (cache s))
          (pair_add (iastPerformance s) (pred_perf r)) (Nsteps s) (autoSteps s).

(** The cache slices of node [i]. *)
Definition cache_at (i : nat) (s : State) : Cache :=
  default (mkCache [] []) (cache s !! i).

(** The Sutherland and particle constants that [computeVelocity] and
    [computeInitialPressure] both declare (the source's comment: variables
    for helium carrier). *)
Module Helium.
Definition mu0 : float := 0.0210%float.
Definition T_mu0 : float := 323.15%float.
Definition S : float := 72.9%float.
Definition par_diam : float := 0.005%float.   (* particle diameter *)
Definition M : float := 4.0026%float.         (* molar mass of helium *)
End Helium.

(** The [std::runtime_error] of line 67, thrown by [maxVectorDifference]. *)
Inductive vector_exn := runtime_error_unequal_vector_size.

(** How the loop of [Breakthrough::run] and [Breakthrough::compute] ends:
    it leaves normally, [computeStep] throws, [step % writeEvery] or
    [step % printEvery] is evaluated with a zero divisor (undefined
    behaviour), or the iterations allowed to the model are used up with the
    loop still running. *)
Inductive outcome (A : Type) :=
  | Finished (a : A)
  | Aborted (e : exn)
  | Undefined_modulo
  | Unfinished.
Arguments Finished {A} a.
Arguments Aborted {A} e.
Arguments Undefined_modulo {A}.
Arguments Unfinished {A}.

Section Model.

(** libm's [pow]. *)
Variable pow : float -> float -> float.

(** [mixture.predictMixture(Yi_i, pt, Xi, Ni, &cachedP0[..], &cachedPsi[..])]
    as a function of the mole fractions, the total pressure and the node's
    cache slices.  The function stands for the calls that return: a call
    that throws or ends the process has no counterpart here, so the model
    describes the runs in which every call of the oracle returns, and
    [Throw] is the exception of line 628 only. *)
Variable predictMixture : list float -> float -> Cache -> Prediction.

(** The value obtained by reading [v[i]] with [i] past the end of [v]. *)
Variable oob : list float -> nat -> float.

Variable prm : Params.

(** [v[i]]. *)
Definition rd (v : list float) (i : nat) : float := default (oob v i) (v !! i).

Notation "s .[ b , i ]" := (rd (vec s b) i%nat)
  (at level 1, b at level 200, i at level 200, format "s .[ b ,  i ]").

Local Abbreviation N := (Ncomp prm).
Local Abbreviation G := (Ngrid prm).

Local Open Scope float_scope.

(** *** [Breakthrough::computeFirstDerivatives] (lines 633-695)
    The eight vectors are passed by reference; the model passes their
    names. *)
Section FirstDerivatives.

Variables dqdt dpdt dydt q_eq q v p y : Buf.

(** [double idx = 1.0 / dx; double idx2 = 1.0 / (dx * dx);] *)
Definition idx : float := 1 / dx prm.
Definition idx2 : float := 1 / (dx prm * dx prm).

(** Lines 640-650: first gridpoint. *)
Definition firstGridpoint (s : State) : State :=
  for_loop 0 N (fun j s =>
    let s := wr dqdt (0 * N + j)
               (Kl (component prm j) * (s.[q_eq, 0 * N + j] - s.[q, 0 * N + j])) s in
    (* Derived equation for Dp/dt at the inlet *)
    let s := wr dpdt 0
               (- s.[v, 0] * (s.[p, 1] - s.[p, 0]) * idx
                - s.[p, 0] * (s.[v, 1] - s.[v, 0]) * idx
                - s.[prefactor, j] * (s.[q_eq, 0 * N + j] - s.[q, 0 * N + j])) s in
    (* Boundary condition for Dy/dt at the inlet *)
    wr dydt (0 * N + j) 0 s) s.

(** Lines 652-674: middle gridpoints. *)
Definition middleGridpoints (s : State) : State :=
  for_loop 1 G (fun i s =>
    (* sum over components from the component mass balance (for Dy/dt) *)
    let sum := for_loop 0 N (fun j sum =>
      sum + s.[prefactor, j] * (s.[q_eq, i * N + j] - s.[q, i * N + j])
            * s.[y, i * N + j]) 0 in
    let sum := sum / s.[p, i] in
    for_loop 0 N (fun j s =>
      let s := wr dqdt (i * N + j)
                 (Kl (component prm j) * (s.[q_eq, i * N + j] - s.[q, i * N + j])) s in
      let s := wr dpdt i
                 (- s.[v, i] * (s.[p, i + 1] - s.[p, i]) * idx
                  - s.[p, i] * (s.[v, i + 1] - s.[v, i]) * idx
                  - s.[prefactor, j] * (s.[q_eq, i * N + j] - s.[q, i * N + j])) s in
      wr dydt (i * N + j)
        (D (component prm j)
           * (s.[y, (i + 1) * N + j] - 2 * s.[y, i * N + j] + s.[y, (i - 1) * N + j]
              + (s.[p, i] - s.[p, i - 1])
                * (s.[y, i * N + j] - s.[y, (i - 1) * N + j]) / s.[p, i])
           * idx2
         - s.[v, i] * (s.[y, i * N + j] - s.[y, (i - 1) * N + j]) * idx
         + sum
         - (s.[q_eq, i * N + j] - s.[q, i * N + j]) / s.[p, i]) s) s) s.

(** Lines 676-694: last gridpoint. *)
Definition lastGridpoint (s : State) : State :=
  let sum := for_loop 0 N (fun j sum =>
    sum + s.[prefactor, j] * (s.[q_eq, G * N + j] - s.[q, G * N + j])) 0 in
  let sum := sum / s.[p, G] in
  for_loop 0 N (fun j s =>
    let s := wr dqdt (G * N + j)
               (Kl (component prm j) * (s.[q_eq, G * N + j] - s.[q, G * N + j])) s in
    (* Boundary condition for Dp/dt at the otlet *)
    let s := wr dpdt G
               (- s.[p, G] * (s.[v, G + 1] - s.[v, G]) * idx
                - s.[prefactor, j] * (s.[q_eq, G * N + j] - s.[q, G * N + j])) s in
    (* Derived equation for Dy/dt at the outlet and assuming y_{i+1} = y_i *)
    wr dydt (G * N + j)
      (D (component prm j)
         * (- s.[y, G * N + j] + s.[y, (G - 1) * N + j]
            + (s.[p, G] - s.[p, G - 1])
              * (s.[y, G * N + j] - s.[y, (G - 1) * N + j]) / s.[p, G])
         * idx2
       - s.[v, G] * (s.[y, G * N + j] - s.[y, (G - 1) * N + j]) * idx
       + sum
       - (s.[q_eq, G * N + j] - s.[q, G * N + j]) / s.[p, G]) s) s.

Definition computeFirstDerivatives (s : State) : State :=
  let s := firstGridpoint s in
  let s := middleGridpoints s in
  lastGridpoint s.

End FirstDerivatives.

(** The local vector [Yi_i] of lines 255-259 and 610-614: the mole
    fractions of node [i]. *)
Definition Yi_at (i : nat) (s : State) : list float :=
  for_loop 0 N (fun j Yi_i => <[j := s.[Yi, i * N + j]]> Yi_i) (replicate N 0).

(** *** [Breakthrough::computeEquilibriumLoadings] (lines 605-630) *)
Definition computeEquilibriumLoadings (s : State) : result State :=
  let s := for_loop 0 (G + 1) (fun i s =>
    let Yi_i := Yi_at i s in
    let s := record_prediction i (predictMixture Yi_i s.[Pt, i] (cache_at i s)) s in
    for_loop 0 N (fun j s => wr Qeqnew (i * N + j) (rd (Ni s) j) s) s) s in
  (* check the total pressure at the outlet, it should not be negative *)
  if s.[Pt, 0] + dptdx prm * L prm <? 0
  then Throw runtime_error_negative_outlet_pressure
  else Ok s.

(** The precomputed factors of lines 711-715 and 761-765, the same in
    both functions. *)
Definition laminar_prefactor : float :=
  Helium.mu0 * v_in prm * (150 * (1 - epsilon prm) * (1 - epsilon prm))
  / ((epsilon prm * epsilon prm) * (Helium.par_diam * Helium.par_diam)).

Definition turbulent_prefactor : float :=
  v_in prm * abs (v_in prm) * (1.75 * (1 - epsilon prm) * Helium.M)
  / (epsilon prm * Helium.par_diam * R).

(** *** [Breakthrough::computeVelocity] (lines 697-742) *)
Definition computeVelocity (T_g : float) (s : State) : State :=
  (* inlet boundary condition *)
  let s := wr Vnew 0 (v_in prm) s in
  (* middle gridpoints *)
  let s := for_loop 1 G (fun i s =>
    let term_a := laminar_prefactor * s.[Pt, i] / T_g in
    let term_b := turbulent_prefactor * pow (T_g / Helium.T_mu0) (3 / 2)
                  * (Helium.T_mu0 + Helium.S) / (T_g + Helium.S) in
    let term_c := (s.[Pt, i] - s.[Pt, i - 1]) / dx prm in
    let D := term_b * term_b - 4 * term_a * term_c in
    (* explicit version *)
    wr Vnew i (1 / (2 * term_a) * (-1 * term_b + sqrt D)) s) s in
  (* last grid point *)
  let term_a := laminar_prefactor * s.[Pt, G] / T_g in
  let term_b := turbulent_prefactor * pow (T_g / Helium.T_mu0) (3 / 2)
                * (Helium.T_mu0 + Helium.S) / (T_g + Helium.S) in
  let term_c := (s.[Pt, G] - s.[Pt, G - 1]) / dx prm in
  let D := term_b * term_b - 4 * term_a * term_c in
  (* explicit version *)
  wr Vnew G (1 / (2 * term_a) * (-1 * term_b + sqrt D)) s.

(** *** [Breakthrough::computeInitialPressure] (lines 744-787)
    [p] is the caller's local vector [pt_init]. *)
Definition computeInitialPressure (p : list float) (T_g : float) : list float :=
  (* set outlet to be constant *)
  let p := <[G := p_total prm]> p in
  for_down G 0 (fun i p =>
    let f_p := - laminar_prefactor * pow (T_g / Helium.T_mu0) (3 / 2)
                 * (Helium.T_mu0 + Helium.S) / (T_g + Helium.S)
               - turbulent_prefactor * (rd p i / T_g) in
    (* using forward Euler *)
    <[(i - 1)%nat := rd p i - f_p * dx prm]> p) p.

(** The sizes the constructor gives the member vectors (lines 115-135). *)
Definition size (b : Buf) : nat :=
  match b with
  | prefactor => N
  | V | Vnew | Pt | Ptnew => G + 1
  | _ => (G + 1) * N
  end.

(** *** [Breakthrough::Breakthrough(const InputReader &)] (lines 92-139):
    every vector is allocated with its size and holds zeros. *)
Definition Breakthrough : State :=
  mkState (fun b => replicate (size b) 0)
          (replicate N 0) (replicate N 0)
          (replicate (G + 1)
             (mkCache (replicate (N * maxIsothermTerms prm) 0)
                      (replicate (maxIsothermTerms prm) 0)))
          (0, 0)%nat (numberOfTimeSteps prm) (autoNumberOfTimeSteps prm).

(** The local vector [pt_init] of [initialize] (lines 209-212). *)
Definition pt_init : list float :=
  computeInitialPressure (replicate (G + 1) 0) (T prm).

(** *** [Breakthrough::initialize] (lines 196-277) *)

(** Lines 243-266, the body of the loop over the nodes: the mole
    fractions of node [i] are set from the partial pressures and
    normalised, the oracle is called once, and its loadings are stored. *)
Definition initialize_node (i : nat) (s : State) : State :=
  let '(s, sum) := for_loop 0 N (fun j '(s, sum) =>
    let s := wr Yi (i * N + j) (fmax (s.[P, i * N + j] / rd pt_init i) 0) s in
    (s, sum + s.[Yi, i * N + j])) (s, 0) in
  let s := for_loop 0 N (fun j s =>
    wr Yi (i * N + j) (s.[Yi, i * N + j] / sum) s) s in
  (* Transform Yi to old representation neglecting grid points for IAST *)
  let Yi_i := Yi_at i s in
  let s := record_prediction i (predictMixture Yi_i (rd pt_init i) (cache_at i s)) s in
  for_loop 0 N (fun j s => wr Qeq (i * N + j) (rd (Ni s) j) s) s.

Definition initialize (s : State) : State :=
  (* precomputed factor for mass transfer *)
  let s := for_loop 0 N (fun j s =>
    wr prefactor j
       (R * T prm * ((1 - epsilon prm) / epsilon prm) * rho_p prm * Kl (component prm j)) s) s in
  (* set P and Q to zero *)
  let s := fill P 0 s in
  let s := fill Q 0 s in
  (* initialize the interstitial gas velocity in the column *)
  let s := for_loop 0 (G + 1) (fun i s =>
    wr V i (v_in prm * p_total prm / rd pt_init i) s) s in
  (* set the partial pressure of the carrier gas to the total initial
     pressure for the column except for the entrance (i=0) *)
  let s := for_loop 1 (G + 1) (fun i s =>
    wr P (i * N + carrierGasComponent prm) (rd pt_init i) s) s in
  (* at the column entrance *)
  let s := for_loop 0 N (fun j s =>
    wr P (0 * N + j) (p_total prm * Yi0 (component prm j)) s) s in
  let s := for_loop 0 (G + 1) initialize_node s in
  for_loop 0 (G + 1) (fun i s =>
    let s := wr Pt i 0 s in
    for_loop 0 N (fun j s =>
      wr Pt i (s.[Pt, i] + fmax 0 s.[P, i * N + j]) s) s) s.

(** *** [Breakthrough::computeStep] (lines 454-603) *)

(** Lines 462-467: the largest relative deviation of the outlet partial
    pressures from the inlet ones. *)
Definition outletTolerance (s : State) : float :=
  for_loop 0 N (fun j tolerance =>
    fmax tolerance
         (abs (s.[P, G * N + j]
               / ((p_total prm + dptdx prm * L prm) * Yi0 (component prm j)) - 1))) 0.

(** Lines 460-477: the end of the run is fixed once the outlet has
    converged. *)
Definition autoStepsCheck (step : nat) (s : State) : State :=
  if autoSteps s then
    let tolerance := outletTolerance s in
    if tolerance <? 0.01
    then set_autoSteps false (set_Nsteps (to_size_t (1.1 * of_size_t step)) s)
    else s
  else s.

(** The update loop shared by the three stages (lines 488-497, 519-528
    and 550-562): [g u w d] is the stage's combination of the committed
    value [u], the stage value [w] and the derivative [d]. *)
Section Update.

Variable g : float -> float -> float -> float.
Variables dqdt dpdt dydt : Buf.

(** The body of the loop over the components [j] at node [i]. *)
Definition SSP_RK_update_cell (i j : nat) (s : State) : State :=
  let s := wr Qnew (i * N + j)
             (g s.[Q, i * N + j] s.[Qnew, i * N + j] s.[dqdt, i * N + j]) s in
  let s := wr Yinew (i * N + j)
             (g s.[Yi, i * N + j] s.[Yinew, i * N + j] s.[dydt, i * N + j]) s in
  wr Pnew (i * N + j) (s.[Yinew, i * N + j] * s.[Ptnew, i]) s.

(** The body of the loop over the nodes [i]. *)
Definition SSP_RK_update_node (i : nat) (s : State) : State :=
  let s := wr Ptnew i (g s.[Pt, i] s.[Ptnew, i] s.[dpdt, i]) s in
  for_loop 0 N (SSP_RK_update_cell i) s.

Definition SSP_RK_update (s : State) : State :=
  for_loop 0 (G + 1) SSP_RK_update_node s.

End Update.

(** Lines 488-497: explicit Euler. *)
Definition SSP_RK_update1 : State -> State :=
  SSP_RK_update (fun u _ d => u + dt prm * d) Dqdt Dpdt Dydt.

(** Lines 519-528. *)
Definition SSP_RK_update2 : State -> State :=
  SSP_RK_update (fun u w d => 0.75 * u + 0.25 * w + 0.25 * dt prm * d)
                Dqdtnew Dpdtnew Dydtnew.

(** Lines 550-562. *)
Definition SSP_RK_update3 : State -> State :=
  SSP_RK_update (fun u w d => (1 / 3) * u + (2 / 3) * w + (2 / 3) * dt prm * d)
                Dqdtnew Dpdtnew Dydtnew.

(** Lines 577-583: update to the new time step. *)
Definition commit (s : State) : State :=
  let s := copy Qnew Q s in
  let s := copy Ptnew Pt s in
  let s := copy Pnew P s in
  let s := copy Qeqnew Qeq s in
  let s := copy Vnew V s in
  copy Yinew Yi s.

(** Lines 585-602: pulse boundary condition. *)
Definition pulseBoundaryCondition (t : float) (s : State) : State :=
  if pulse prm then
    if tpulse prm <? t then
      for_loop 0 N (fun j s =>
        if decide (j = carrierGasComponent prm)
        then wr P (0 * N + j) (p_total prm) s
        else wr P (0 * N + j) 0 s) s
    else s
  else s.

(** Lines 479-497: SSP-RK Step 1. *)
Definition SSP_RK_stage1 (s : State) : State :=
  let s := computeFirstDerivatives Dqdt Dpdt Dydt Qeq Q V P Yi s in
  SSP_RK_update1 s.

(** Lines 512-528: SSP-RK Step 2. *)
Definition SSP_RK_stage2 (s : State) : State :=
  let s := computeFirstDerivatives Dqdtnew Dpdtnew Dydtnew Qeqnew Qnew Vnew Ptnew Yinew s in
  SSP_RK_update2 s.

(** Lines 543-562: SSP-RK Step 3. *)
Definition SSP_RK_stage3 (s : State) : State :=
  let s := computeFirstDerivatives Dqdtnew Dpdtnew Dydtnew Qeqnew Qnew Vnew Ptnew Yinew s in
  SSP_RK_update3 s.

(** The three stages up to and including the commit (lines 479-583). *)
Definition SSP_RK (s : State) : result State :=
  let s := SSP_RK_stage1 s in
  s ← computeEquilibriumLoadings s;
  let s := computeVelocity (T prm) s in
  let s := SSP_RK_stage2 s in
  s ← computeEquilibriumLoadings s;
  let s := computeVelocity (T prm) s in
  let s := SSP_RK_stage3 s in
  s ← computeEquilibriumLoadings s;
  let s := computeVelocity (T prm) s in
  Ok (commit s).

Definition computeStep (step : nat) (s : State) : result State :=
  let t := of_size_t step * dt prm in
  let s := autoStepsCheck step s in
  s ← SSP_RK s;
  Ok (pulseBoundaryCondition t s).

(** *** [maxVectorDifference] (lines 64-76) *)

Definition maxVectorDifference (v w : list float) : vector_exn + float :=
  if Nat.eqb (length v) 0 || Nat.eqb (length w) 0 then inr 0
  else if negb (Nat.eqb (length v) (length w)) then inl runtime_error_unequal_vector_size
  else
    let max := abs (rd v 0 - rd w 0) in
    inr (for_loop 1 (length v) (fun i max =>
           let temp := abs (rd v i - rd w i) in
           if max <? temp then temp else max) max).

(** *** [Breakthrough::run] (lines 279-354) and [Breakthrough::compute]
    (lines 358-424)

    Both functions run the same loop,
    [for (step = 0; step < Nsteps || autoSteps; ++step)], in which
    [computeStep] may change [Nsteps] and [autoSteps]; the model gives the
    loop a number of iterations it may use.  The members [printEvery] and
    [writeEvery], which only these two functions read, are arguments.  The
    text written to the files and to [std::cout] is not modelled: a frame
    holds the numbers handed to the streams at a step that is written. *)

Section Driver.

Variables printEvery writeEvery : nat.

(** What is recorded at a written step. *)
Variable Frame : Type.
Variable frame : float -> State -> Frame.

Fixpoint stepLoop (fuel step : nat) (s : State) (out : list Frame)
    : outcome (State * list Frame) :=
  if Nat.ltb step (Nsteps s) || autoSteps s then
    match fuel with
    | O => Unfinished
    | S fuel =>
      (* compute new step *)
      match computeStep step s with
      | Throw e => Aborted e
      | Ok s =>
        let t := of_size_t step * dt prm in
        match writeEvery with
        | O => Undefined_modulo
        | S _ =>
          let out := if Nat.eqb (step mod writeEvery) 0 then out ++ [frame t s] else out in
          match printEvery with
          | O => Undefined_modulo
          | S _ => stepLoop fuel (S step) s out
          end
        end
      end
    end
  else Finished (s, out).

End Driver.

(** The numbers of one written step of [run]: a row of three for the file
    of each component (lines 319-320), and a row for each node in
    [column.data] (lines 325-334). *)
Record RunFrame := mkRunFrame {
  component_rows : list (list float);
  column_rows : list (list float)
}.

Definition component_row (t : float) (s : State) (j : nat) : list float :=
  [t * v_in prm / L prm; t / 60;
   s.[P, G * N + j] / ((p_total prm + dptdx prm * L prm) * Yi0 (component prm j))].

Definition column_row (s : State) (i : nat) : list float :=
  [of_size_t i * dx prm; s.[V, i]; s.[Pt, i]] ++
  flat_map (fun j =>
    [s.[Q, i * N + j]; s.[Qeq, i * N + j]; s.[P, i * N + j];
     s.[P, i * N + j] / (s.[Pt, i] * Yi0 (component prm j));
     s.[Dpdt, i * N + j]; s.[Dqdt, i * N + j]]) (seq 0 N).

Definition run_frame (t : float) (s : State) : RunFrame :=
  mkRunFrame (map (component_row t s) (seq 0 N)) (map (column_row s) (seq 0 (G + 1))).

Definition run (printEvery writeEvery fuel : nat) (s : State)
    : outcome (State * list RunFrame) :=
  stepLoop printEvery writeEvery RunFrame run_frame fuel 0 s [].

(** [size_t colsize = 6 * Ncomp + 5]. *)
Definition colsize : nat := (6 * N + 5)%nat.

(** [t_brk[i][c] = x]. *)
Definition set_entry (i c : nat) (x : float) (t_brk : list (list float)) : list (list float) :=
  <[i := <[c := x]> (default [] (t_brk !! i))]> t_brk.

Arguments set_entry i%_nat c%_nat x%_float t_brk.

(** Lines 376-395 of [compute]: the rows of one written step. *)
Definition t_brk (t : float) (s : State) : list (list float) :=
  for_loop 0 (G + 1) (fun i t_brk =>
    let t_brk := set_entry i 0 (t * v_in prm / L prm) t_brk in
    let t_brk := set_entry i 1 (t / 60) t_brk in
    let t_brk := set_entry i 2 (of_size_t i * dx prm) t_brk in
    let t_brk := set_entry i 3 s.[V, i] t_brk in
    let t_brk := set_entry i 4 s.[Pt, i] t_brk in
    for_loop 0 N (fun j t_brk =>
      let t_brk := set_entry i (5 + 6 * j) s.[Q, i * N + j] t_brk in
      let t_brk := set_entry i (6 + 6 * j) s.[Qeq, i * N + j] t_brk in
      let t_brk := set_entry i (7 + 6 * j) s.[P, i * N + j] t_brk in
      let t_brk := set_entry i (8 + 6 * j)
                     (s.[P, i * N + j] / (s.[Pt, i] * Yi0 (component prm j))) t_brk in
      let t_brk := set_entry i (9 + 6 * j) s.[Dpdt, i * N + j] t_brk in
      set_entry i (10 + 6 * j) s.[Dqdt, i * N + j] t_brk) t_brk)
    (replicate (G + 1) (replicate colsize 0)).

(** [compute] returns the buffer of all written rows and the shape
    [{brk.size(), Ngrid + 1, colsize}] of the array made from it.  The check
    of [PyErr_CheckSignals] is taken to find no pending signal. *)
Definition compute (printEvery writeEvery fuel : nat) (s : State)
    : outcome (State * (list float * (nat * nat * nat))) :=
  match stepLoop printEvery writeEvery (list (list float)) t_brk fuel 0 s [] with
  | Finished (s, brk) =>
      Finished (s, (concat (concat brk), (length brk, (G + 1)%nat, colsize)))
  | Aborted e => Aborted e
  | Undefined_modulo => Undefined_modulo
  | Unfinished => Unfinished
  end.

Local Close Scope float_scope.

(** ** Frames *)

Definition Footprint := Buf -> nat -> Prop.

(** [modifies F s s']: going from [s] to [s'] no vector changes its size,
    only the cells of [F] may change, and [Nsteps] and [autoSteps] are
    kept. *)
Record modifies (F : Footprint) (s s' : State) : Prop := mkModifies {
  modifies_length : forall b, length (vec s' b) = length (vec s b);
  modifies_lookup : forall b k, ~ F b k -> vec s' b !! k = vec s b !! k;
  modifies_Nsteps : Nsteps s' = Nsteps s;
  modifies_autoSteps : autoSteps s' = autoSteps s
}.

(** The vectors have the sizes the constructor gave them, and the grid has
    at least one interval. *)
Record wf (s : State) : Prop := mkWf {
  wf_grid : 1 <= G;
  wf_size : forall b, length (vec s b) = size b;
  wf_cache : length (cache s) = G + 1
}.

(** ** Footprints *)

(** The vectors written before the commit: the derivative fields and the
    shadow buffers. *)
Definition staging : Footprint := fun b _ =>
  match b with
  | Dqdt | Dpdt | Dydt | Dqdtnew | Dpdtnew | Dydtnew
  | Ptnew | Qnew | Yinew | Pnew | Qeqnew | Vnew => True
  | _ => False
  end.

(** What lies between the update loop of one stage and the update loop of
    the next: the oracle, the velocity and the derivatives touch none of
    [Pt], [Q], [Yi], [Ptnew], [Qnew], [Yinew], [Pnew]. *)
Definition between_stages : Footprint := fun b _ =>
  match b with
  | Qeqnew | Vnew | Dqdtnew | Dpdtnew | Dydtnew => True
  | _ => False
  end.

(** The cells written by the iterations [(i, 0) .. (i, m - 1)]. *)
Definition cells_of_node (i m : nat) : Footprint := fun b k =>
  (b = Qnew \/ b = Yinew \/ b = Pnew) /\ i * N <= k < i * N + m.

(** The cells written by the iterations of the nodes [0 .. n - 1]. *)
Definition cells_below (n : nat) : Footprint := fun b k =>
  (b = Ptnew /\ k < n) \/ ((b = Qnew \/ b = Yinew \/ b = Pnew) /\ k < n * N).

(** The cells written by the iteration of node [i]. *)
Definition cells_at (i : nat) : Footprint := fun b k =>
  (b = Ptnew /\ k = i) \/ cells_of_node i N b k.

(** The cells of [Yi] and [Qeq] that the iteration of node [i] in
    [initialize] writes. *)
Definition node_row (i : nat) : Footprint := fun b k =>
  (b = Yi \/ b = Qeq) /\ i * N <= k < i * N + N.

(** The cells of [Yi] and [Qeq] that the iterations of the nodes
    [0 .. n - 1] write. *)
Definition nodes_below (n : nat) : Footprint := fun b k =>
  (b = Yi \/ b = Qeq) /\ k < n * N.

(** ** Values and relations the properties are stated with *)

(** The condition of line 626. *)
Definition pressureCheck (s : State) : bool :=
  (s.[Pt, 0] + dptdx prm * L prm <? 0)%float.

(** The members the oracle call overwrites. *)
Definition oracle_fields (s : State) : list float * list float * list Cache * (nat * nat) :=
  (Xi s, Ni s, cache s, iastPerformance s).

(** The output vectors are distinct from one another and from the vectors
    read, as at the three call sites of [computeStep]. *)
Definition no_alias (dqdt dpdt dydt q_eq q v p : Buf) : Prop :=
  dpdt <> dqdt /\ dpdt <> dydt /\
  Forall (fun b => b <> dqdt /\ b <> dpdt /\ b <> dydt) [q_eq; q; v; p; prefactor].

Section FirstDerivativesValues.

Variables q_eq q v p : Buf.

(** The value line 645 writes to [dpdt[0]] for the last component. *)
Definition inlet_dpdt (s : State) : float :=
  (- s.[v, 0] * (s.[p, 1] - s.[p, 0]) * idx
   - s.[p, 0] * (s.[v, 1] - s.[v, 0]) * idx
   - s.[prefactor, N - 1] * (s.[q_eq, 0 * N + (N - 1)] - s.[q, 0 * N + (N - 1)]))%float.

(** The value line 687 writes to [dpdt[Ngrid]] for the last component. *)
Definition outlet_dpdt (s : State) : float :=
  (- s.[p, G] * (s.[v, G + 1] - s.[v, G]) * idx
   - s.[prefactor, N - 1] * (s.[q_eq, G * N + (N - 1)] - s.[q, G * N + (N - 1)]))%float.


End FirstDerivativesValues.

Section UpdateValues.

Variable g : float -> float -> float -> float.
Variables dqdt dpdt dydt : Buf.

(** Cell [(i, j)] holds the stage's combination, and [Pnew] is
    reconstructed from [Yinew] and [Ptnew]. *)
Definition cell_updated (i j : nat) (s s' : State) : Prop :=
  s'.[Qnew, i * N + j] = g s.[Q, i * N + j] s.[Qnew, i * N + j] s.[dqdt, i * N + j] /\
  s'.[Yinew, i * N + j] = g s.[Yi, i * N + j] s.[Yinew, i * N + j] s.[dydt, i * N + j] /\
  s'.[Pnew, i * N + j] = (s'.[Yinew, i * N + j] * s'.[Ptnew, i])%float.

(** Node [i] holds the stage's combination of the committed state [s], the
    previous stage values and the derivatives, and [Pnew] is reconstructed
    from [Yinew] and [Ptnew]. *)
Definition node_updated (i : nat) (s s' : State) : Prop :=
  s'.[Ptnew, i] = g s.[Pt, i] s.[Ptnew, i] s.[dpdt, i] /\
  forall j, j < N -> cell_updated i j s s'.

End UpdateValues.

(** One update loop in Shu-Osher form, cell by cell: [U] is the state committed
    by the previous step, [F] holds the derivative fields [dqdt], [dpdt],
    [dydt] computed for the stage, [W0] is the result of the previous stage
    and [W] the result of this one. *)
Definition ShuOsher_stage (g : float -> float -> float -> float)
    (dqdt dpdt dydt : Buf) (U F W0 W : State) : Prop :=
  forall i, i <= G ->
    W.[Ptnew, i] = g U.[Pt, i] W0.[Ptnew, i] F.[dpdt, i] /\
    forall j, j < N ->
      W.[Qnew, i * N + j] = g U.[Q, i * N + j] W0.[Qnew, i * N + j] F.[dqdt, i * N + j] /\
      W.[Yinew, i * N + j] = g U.[Yi, i * N + j] W0.[Yinew, i * N + j] F.[dydt, i * N + j] /\
      W.[Pnew, i * N + j] = (W.[Yinew, i * N + j] * W.[Ptnew, i])%float.

(** The value lines 724-730 (and 735-741 for the last node) compute from
    [Pt[i]] and [Pt[i-1]]. *)
Definition Ergun_velocity (T_g pt_i pt_im1 : float) : float :=
  (let term_a := laminar_prefactor * pt_i / T_g in
   let term_b := turbulent_prefactor * pow (T_g / Helium.T_mu0) (3 / 2)
                 * (Helium.T_mu0 + Helium.S) / (T_g + Helium.S) in
   let term_c := (pt_i - pt_im1) / dx prm in
   let D := term_b * term_b - 4 * term_a * term_c in
   1 / (2 * term_a) * (-1 * term_b + sqrt D))%float.

(** The oracle call of node [i]: the mole fractions of node [i] as [s']
    holds them, the initial total pressure of the node, and the node's cache
    slices as [s] holds them. *)
Definition node_call (s s' : State) (i : nat) : Prediction :=
  predictMixture (Yi_at i s') (rd pt_init i) (cache_at i s).

(** The sum of the mole fractions at node [i], and the closure test of the
    specification, [|sum_j Yi[i*Ncomp+j] - 1| < 10^-8]. *)
Definition mole_fraction_sum (s : State) (i : nat) : float :=
  for_loop 0 N (fun j acc => (acc + s.[Yi, i * N + j])%float) 0%float.

Definition closure (s : State) (i : nat) : bool :=
  (abs (mole_fraction_sum s i - 1) <? 1e-8)%float.

(** The ceiling of a non-negative double, as a [size_t]. *)
Definition size_t_ceiling (x : float) : nat :=
  match Prim2SF x with
  | S754_finite false m e => Z.to_nat (- ((- Z.pos m) / 2 ^ (- e)))%Z
  | _ => 0
  end.

(** [a * v^2 + b * v + c]. *)
Definition quadratic (a b c v : float) : float := (a * v * v + b * v + c)%float.

(** The coefficients of the quadratic as C2 words them: the turbulent term
    weighted by [|v_in| * sign(v_in)], and the laminar term with the
    viscosity of Sutherland's law. *)
Definition sutherland_mu : float :=
  (Helium.mu0 * pow (T prm / Helium.T_mu0) (3 / 2)
   * (Helium.T_mu0 + Helium.S) / (T prm + Helium.S))%float.

Definition claimed_a : float :=
  (1.75 * (1 - epsilon prm) * Helium.M / (epsilon prm * Helium.par_diam * R)
   * v_in prm)%float.

Definition claimed_b : float :=
  (150 * sutherland_mu * ((1 - epsilon prm) * (1 - epsilon prm))
   / ((epsilon prm * epsilon prm) * (Helium.par_diam * Helium.par_diam)))%float.

(** The coefficients [term_a], [term_b], [term_c] of lines 724-726 at node
    [i] of the state [s]. *)
Definition term_a (s : State) (i : nat) : float :=
  (laminar_prefactor * s.[Pt, i] / T prm)%float.

Definition term_b : float :=
  (turbulent_prefactor * pow (T prm / Helium.T_mu0) (3 / 2)
   * (Helium.T_mu0 + Helium.S) / (T prm + Helium.S))%float.

Definition term_c (s : State) (i : nat) : float :=
  ((s.[Pt, i] - s.[Pt, i - 1]) / dx prm)%float.

(** The two coefficients with the prefactors paired as lines 770-772 of
    [computeInitialPressure] pair them: turbulent with [p / T], laminar with
    the Sutherland factor. *)
Definition paired_a (s : State) (i : nat) : float :=
  (turbulent_prefactor * s.[Pt, i] / T prm)%float.

Definition paired_b : float :=
  (laminar_prefactor * pow (T prm / Helium.T_mu0) (3 / 2)
   * (Helium.T_mu0 + Helium.S) / (T prm + Helium.S))%float.

(** What an observer sees of a member function's result. *)
Definition observe {A B} (f : A -> B) (r : result A) : option B :=
  match r with
  | Ok a => Some (f a)
  | Throw _ => None
  end.

(** ** The statements of the claims *)

(** The three update loops of a step from [s] to [s']: with [F1], [F2],
    [F3] the states holding the derivative fields of the three stages, [u1],
    [u2], [u3] the states the three update loops produce and [e1], [e2],
    [e3] the states [computeEquilibriumLoadings] returns after each of them,
    every loop writes its Shu-Osher combination and the step commits the
    third. *)
Definition SSP_RK3_step (step : nat) (s s' : State) : Prop :=
  let s0 := autoStepsCheck step s in
  let F1 := computeFirstDerivatives Dqdt Dpdt Dydt Qeq Q V P Yi s0 in
  let u1 := SSP_RK_update1 F1 in
  exists e1 e2 e3,
    computeEquilibriumLoadings u1 = Ok e1 /\
    let F2 := computeFirstDerivatives Dqdtnew Dpdtnew Dydtnew Qeqnew Qnew Vnew Ptnew Yinew
                (computeVelocity (T prm) e1) in
    let u2 := SSP_RK_update2 F2 in
    computeEquilibriumLoadings u2 = Ok e2 /\
    let F3 := computeFirstDerivatives Dqdtnew Dpdtnew Dydtnew Qeqnew Qnew Vnew Ptnew Yinew
                (computeVelocity (T prm) e2) in
    let u3 := SSP_RK_update3 F3 in
    computeEquilibriumLoadings u3 = Ok e3 /\
    ShuOsher_stage (fun u _ d => u + dt prm * d)%float
                   Dqdt Dpdt Dydt s F1 s u1 /\
    ShuOsher_stage (fun u w d => 0.75 * u + 0.25 * w + 0.25 * dt prm * d)%float
                   Dqdtnew Dpdtnew Dydtnew s F2 u1 u2 /\
    ShuOsher_stage (fun u w d => (1 / 3) * u + (2 / 3) * w + (2 / 3) * dt prm * d)%float
                   Dqdtnew Dpdtnew Dydtnew s F3 u2 u3 /\
    vec s' Q = vec u3 Qnew /\ vec s' Yi = vec u3 Yinew /\ vec s' Pt = vec u3 Ptnew /\
    vec s' Qeq = vec e3 Qeqnew /\
    vec s' V = vec (computeVelocity (T prm) e3) Vnew.

(** The derivatives as stages 2 and 3 take them of their stage values
    (lines 517 and 548: the loadings, the velocity, the total pressures
    [Ptnew] in the place of [p], the mole fractions), taken of the committed
    values [Qeq], [Q], [V], [Pt], [Yi] instead. *)
Definition later_stages_F_of_committed (s : State) : State :=
  computeFirstDerivatives Dqdt Dpdt Dydt Qeq Q V Pt Yi s.

(** The auto-stop rule between the state [s] a step starts from and the
    state [s'] it ends in. *)
Definition autoSteps_rule (step : nat) (s s' : State) : Prop :=
  if autoSteps s then
    if (outletTolerance s <? 0.01)%float
    then Nsteps s' = to_size_t (1.1 * of_size_t step)%float /\ autoSteps s' = false
    else Nsteps s' = Nsteps s /\ autoSteps s' = true
  else Nsteps s' = Nsteps s /\ autoSteps s' = false.

(** The pulse boundary condition between the committed state [sc] and the
    state [s'] the step ends in: the inlet row of [P] is pure carrier, and
    nothing else differs. *)
Definition pulse_inlet_only (sc s' : State) : Prop :=
  (forall j, j < N ->
     vec s' P !! (0 * N + j) =
     Some (if decide (j = carrierGasComponent prm) then p_total prm else 0%float)) /\
  (forall k, N <= k -> vec s' P !! k = vec sc P !! k) /\
  (forall b, b <> P -> vec s' b = vec sc b) /\
  oracle_fields s' = oracle_fields sc /\
  Nsteps s' = Nsteps sc /\ autoSteps s' = autoSteps sc.

(** The state [s'] that [initialize] leaves, given the state [s] it was
    called on. *)
Definition initial_state (s s' : State) : Prop :=
  vec s' Q = replicate ((G + 1) * N) 0%float /\
  (forall j, j < N -> s'.[P, 0 * N + j] = (p_total prm * Yi0 (component prm j))%float) /\
  (forall i j, 1 <= i <= G -> j < N ->
     s'.[P, i * N + j] =
     if decide (j = carrierGasComponent prm) then rd pt_init i else 0%float) /\
  rd pt_init G = p_total prm /\
  (forall i, i <= G ->
     cache s' !! i = Some (pred_cache (node_call s s' i)) /\
     forall j, j < N -> s'.[Qeq, i * N + j] = rd (pred_Ni (node_call s s' i)) j) /\
  iastPerformance s' =
    fold_left (fun acc i => pair_add acc (pred_perf (node_call s s' i)))
              (seq 0 (G + 1)) (iastPerformance s).

(** ** Values and footprints of the further properties *)

(** The cells that the iteration of component [j] at node [i] of
    [computeFirstDerivatives] writes, and those of all components at node
    [i]. *)
Definition derivative_cell (dqdt dpdt dydt : Buf) (i j : nat) : Footprint := fun b k =>
  (b = dqdt /\ k = i * N + j) \/ (b = dpdt /\ k = i) \/ (b = dydt /\ k = i * N + j).

Definition derivative_node (dqdt dpdt dydt : Buf) (i : nat) : Footprint := fun b k =>
  ((b = dqdt \/ b = dydt) /\ i * N <= k < i * N + N) \/ (b = dpdt /\ k = i).

(** The linear driving force of lines 643, 665 and 685. *)
Definition LDF_rate (q_eq q : Buf) (s : State) (i j : nat) : float :=
  (Kl (component prm j) * (s.[q_eq, i * N + j] - s.[q, i * N + j]))%float.

(** The value lines 666-668 write to [dpdt[i]] in the iteration of
    component [j]. *)
Definition dpdt_at (q_eq q v p : Buf) (s : State) (i j : nat) : float :=
  (- s.[v, i] * (s.[p, i + 1] - s.[p, i]) * idx
   - s.[p, i] * (s.[v, i + 1] - s.[v, i]) * idx
   - s.[prefactor, j] * (s.[q_eq, i * N + j] - s.[q, i * N + j]))%float.

(** The pressure gradient [f_p] of lines 770-772 of [computeInitialPressure]
    as a function of [p[i]]. *)
Definition pressure_slope (T_g p_i : float) : float :=
  (- laminar_prefactor * pow (T_g / Helium.T_mu0) (3 / 2)
     * (Helium.T_mu0 + Helium.S) / (T_g + Helium.S)
   - turbulent_prefactor * (p_i / T_g))%float.

(** The oracle call of [computeEquilibriumLoadings] at node [i]: the
    committed mole fractions and total pressure of the node, and the node's
    cache slices. *)
Definition loading_call (s : State) (i : nat) : Prediction :=
  predictMixture (Yi_at i s) s.[Pt, i] (cache_at i s).

(** The member vectors [initialize] writes. *)
Definition initialized : Footprint := fun b _ =>
  match b with
  | prefactor | P | Q | V | Yi | Qeq | Pt => True
  | _ => False
  end.

(** The sum of lines 271-275: the positive parts of the partial pressures
    of node [i], added up from [0.0] in the order of the components. *)
Definition positive_pressure_sum (s : State) (i : nat) : float :=
  for_loop 0 N (fun j acc => (acc + fmax 0 s.[P, i * N + j])%float) 0%float.

(** [n] calls of [computeStep], for the steps [step], [step + 1], ... *)
Fixpoint steps (n step : nat) (s : State) : result State :=
  match n with
  | O => Ok s
  | S n => s ← computeStep step s; steps n (S step) s
  end.

(** The number of the steps [0 .. n - 1] that are multiples of [w]. *)
Definition written (n w : nat) : nat := (n + w - 1) / w.

(** The mole fraction of lines 246 and 251 before it is normalised, and
    the sum of line 247 over the components of node [i]. *)
Definition clamped_fraction (s : State) (i j : nat) : float :=
  fmax (s.[P, i * N + j] / rd pt_init i)%float 0%float.

Definition clamped_sum (s : State) (i : nat) : float :=
  for_loop 0 N (fun j sum => (sum + clamped_fraction s i j)%float) 0%float.

(** ** Stand-ins and example columns for the evaluations *)

(** A stand-in for libm's [pow] in the evaluations below.  The program
    calls [pow] with the exponent 3/2 only, and every column below runs at
    [T = T_mu0], so the only call is [pow(1.0, 1.5)], which is [1.0] in
    C; the stand-in returns [x * sqrt x], which is [1.0] there too. *)
Definition pow_three_halves (x y : float) : float := (x * sqrt x)%float.

(** A stand-in for the oracle: a single-site Langmuir isotherm
    ([q_sat = 3 mol/kg], [b = 2e-5 1/Pa]) for every component but the
    carrier gas, which is not adsorbed.  The cache is left as it is. *)
Definition langmuir (carrier : nat) (Yi_i : list float) (pt : float) (c : Cache) : Prediction :=
  mkPrediction
    (replicate (length Yi_i) 0%float)
    (imap (fun j y =>
             if decide (j = carrier) then 0
             else 3 * (0.00002 * (y * pt)) / (1 + 0.00002 * (y * pt)))%float Yi_i)
    c (1, 1).

(** The value of every read past the end of a vector in the evaluations. *)
Definition oob_zero (v : list float) (i : nat) : float := 0%float.

(** Helium carrying 25 percent of an adsorbate through a column of three
    grid intervals. *)
Definition column : Params := {|
  components := [mkComponent 0.75 0 0; mkComponent 0.25 0.06 0];
  carrierGasComponent := 0;
  Ngrid := 3;
  T := 323.15;
  p_total := 100000;
  dptdx := 0;
  epsilon := 0.4;
  rho_p := 1000;
  v_in := 0.1;
  L := 0.3;
  dt := 0.0005;
  pulse := false;
  tpulse := 0;
  maxIsothermTerms := 1;
  numberOfTimeSteps := 100;
  autoNumberOfTimeSteps := false
|}.

(** The same column in a pulse experiment with [tpulse = 0]. *)
Definition column_pulse : Params := {|
  components := components column;
  carrierGasComponent := 0;
  Ngrid := 3;
  T := 323.15;
  p_total := 100000;
  dptdx := 0;
  epsilon := 0.4;
  rho_p := 1000;
  v_in := 0.1;
  L := 0.3;
  dt := 0.0005;
  pulse := true;
  tpulse := 0;
  maxIsothermTerms := 1;
  numberOfTimeSteps := 100;
  autoNumberOfTimeSteps := false
|}.

(** The same column with the input [PressureGradient] set to -10^6 Pa/m. *)
Definition column_gradient : Params := {|
  components := components column;
  carrierGasComponent := 0;
  Ngrid := 3;
  T := 323.15;
  p_total := 100000;
  dptdx := -1000000;
  epsilon := 0.4;
  rho_p := 1000;
  v_in := 0.1;
  L := 0.3;
  dt := 0.0005;
  pulse := false;
  tpulse := 0;
  maxIsothermTerms := 1;
  numberOfTimeSteps := 100;
  autoNumberOfTimeSteps := false
|}.

(** A column fed with the carrier gas alone, with [AutoNumberOfTimeSteps]. *)
Definition column_auto : Params := {|
  components := [mkComponent 1 0 0];
  carrierGasComponent := 0;
  Ngrid := 3;
  T := 323.15;
  p_total := 100000;
  dptdx := 0;
  epsilon := 0.4;
  rho_p := 1000;
  v_in := 0.1;
  L := 0.3;
  dt := 0.0005;
  pulse := false;
  tpulse := 0;
  maxIsothermTerms := 1;
  numberOfTimeSteps := 100;
  autoNumberOfTimeSteps := true
|}.

(** ** Loops, reads and writes *)

Lemma for_loop_nil {A} lo hi (body : nat -> A -> A) a :
  hi <= lo -> for_loop lo hi body a = a.
Proof. intros H. unfold for_loop. by replace (hi - lo)%nat with 0%nat by lia. Qed.

Lemma for_loop_S {A} lo n (body : nat -> A -> A) a :
  lo <= n -> for_loop lo (S n) body a = body n (for_loop lo n body a).
Proof.
  intros H. unfold for_loop.
  replace (S n - lo)%nat with (S (n - lo)) by lia.
  rewrite seq_S, fold_left_app. simpl. by replace (lo + (n - lo))%nat with n by lia.
Qed.

Lemma for_loop_last {A} n (body : nat -> A -> A) a :
  1 <= n -> for_loop 0 n body a = body (n - 1) (for_loop 0 (n - 1) body a).
Proof.
  intros H. replace n with (S (n - 1)) at 1 by lia. apply for_loop_S. lia.
Qed.

Lemma for_loop_ind {A} (I : A -> Prop) lo hi (body : nat -> A -> A) a :
  I a ->
  (forall i x, lo <= i < hi -> I x -> I (body i x)) ->
  I (for_loop lo hi body a).
Proof.
  intros Ha Hstep.
  destruct (decide (hi <= lo)) as [Hle|Hgt]; [by rewrite for_loop_nil|].
  assert (Hn : forall n, lo <= n <= hi -> I (for_loop lo n body a)).
  { induction n as [|n IH]; intros Hb.
    - by rewrite for_loop_nil by lia.
    - destruct (decide (lo = S n)) as [->|Hne]; [by rewrite for_loop_nil|].
      rewrite for_loop_S by lia. apply Hstep; [lia|]. apply IH. lia. }
  apply Hn. lia.
Qed.

Lemma rd_lookup (v : list float) i x : v !! i = Some x -> rd v i = x.
Proof. unfold rd. by intros ->. Qed.

Lemma lookup_rd (v : list float) i : i < length v -> v !! i = Some (rd v i).
Proof.
  intros H. destruct (lookup_lt_is_Some_2 v i H) as [x Hx].
  by rewrite (rd_lookup _ _ _ Hx).
Qed.

Lemma rd_ext (v w : list float) i :
  i < length v -> w !! i = v !! i -> rd w i = rd v i.
Proof. intros H E. apply rd_lookup. rewrite E. by apply lookup_rd. Qed.

Lemma vec_wr b i x s b' :
  vec (wr b i x s) b' = if decide (b = b') then <[i := x]> (vec s b) else vec s b'.
Proof.
  unfold wr. simpl. case_decide as E.
  - subst. by rewrite fn_lookup_insert.
  - by rewrite fn_lookup_insert_ne.
Qed.

Lemma vec_wr_ne b i x s b' : b <> b' -> vec (wr b i x s) b' = vec s b'.
Proof. intros. rewrite vec_wr. by case_decide. Qed.

Lemma rd_wr_eq b i x s : i < length (vec s b) -> (wr b i x s).[b, i] = x.
Proof.
  intros H. apply rd_lookup. rewrite vec_wr. case_decide; [|done].
  by apply list_lookup_insert_eq.
Qed.

Lemma modifies_refl F s : modifies F s s.
Proof. by split. Qed.

Lemma modifies_trans F s1 s2 s3 :
  modifies F s1 s2 -> modifies F s2 s3 -> modifies F s1 s3.
Proof.
  intros [L1 K1 N1 A1] [L2 K2 N2 A2]. split.
  - intros b. by rewrite L2.
  - intros b k Hk. by rewrite K2, K1.
  - congruence.
  - congruence.
Qed.

Lemma modifies_weaken (F F' : Footprint) s s' :
  (forall b k, F b k -> F' b k) -> modifies F s s' -> modifies F' s s'.
Proof. intros HF [Hl Hk Hn Ha]. split; auto. Qed.

Lemma modifies_wr (F : Footprint) s0 s b i x :
  F b i -> modifies F s0 s -> modifies F s0 (wr b i x s).
Proof.
  intros HF [Hl Hk Hn Ha]. split; try done.
  - intros b'. rewrite vec_wr. case_decide; subst; [|done].
    by rewrite length_insert.
  - intros b' k Hnot. rewrite vec_wr. case_decide; subst; [|by apply Hk].
    rewrite list_lookup_insert_ne; [by apply Hk|]. by intros ->.
Qed.

Lemma modifies_for_loop (F : Footprint) s0 lo hi body s :
  modifies F s0 s ->
  (forall i a, lo <= i < hi -> modifies F s0 a -> modifies F s0 (body i a)) ->
  modifies F s0 (for_loop lo hi body s).
Proof. intros. by apply for_loop_ind. Qed.

Lemma modifies_rd F s s' b k :
  modifies F s s' -> ~ F b k -> k < length (vec s b) -> s'.[b, k] = s.[b, k].
Proof. intros [_ Hk _ _] Hnot Hlt. apply rd_ext; auto. Qed.

Lemma modifies_vec F s s' b :
  modifies F s s' -> (forall k, ~ F b k) -> vec s' b = vec s b.
Proof. intros [_ Hk _ _] Hnot. apply list_eq. intros k. by apply Hk. Qed.

Lemma modifies_record_prediction F s0 s i r :
  modifies F s0 s -> modifies F s0 (record_prediction i r s).
Proof. by intros [Hl Hk Hn Ha]. Qed.

(** Propositional steps that leave the parameters of the model alone. *)
Ltac drop_params := try clear pow; try clear predictMixture; try clear oob.
Ltac taut := drop_params; tauto.

(** Membership in a footprint given by equations, bounds, conjunctions and
    disjunctions. *)
Ltac footprint_tac :=
  first [ done | lia | split; footprint_tac | left; footprint_tac | right; footprint_tac ].

(** Frames of nested writes and loops, by the shape of the term. *)
Ltac modifies_tac :=
  cbv beta zeta;
  repeat first
    [ assumption
    | apply modifies_refl
    | apply modifies_record_prediction
    | apply modifies_wr; [ try (simpl; footprint_tac) | ]
    | apply modifies_for_loop; [ | intros ? ? ? ?; cbv beta zeta ]
    | match goal with
      | |- modifies _ _ (if ?c then _ else _) => destruct c
      end ].

Lemma computeFirstDerivatives_modifies dqdt dpdt dydt q_eq q v p y s :
  modifies (fun b _ => b = dqdt \/ b = dpdt \/ b = dydt) s
           (computeFirstDerivatives dqdt dpdt dydt q_eq q v p y s).
Proof.
  unfold computeFirstDerivatives, lastGridpoint, middleGridpoints, firstGridpoint.
  modifies_tac.
Qed.

Lemma computeFirstDerivatives_keeps dqdt dpdt dydt q_eq q v p y s b :
  b <> dqdt -> b <> dpdt -> b <> dydt ->
  vec (computeFirstDerivatives dqdt dpdt dydt q_eq q v p y s) b = vec s b.
Proof.
  intros. apply (modifies_vec _ _ _ _ (computeFirstDerivatives_modifies _ _ _ _ _ _ _ _ s)).
  intros _. taut.
Qed.

Lemma SSP_RK_update_modifies g dqdt dpdt dydt s :
  modifies (fun b _ => b = Ptnew \/ b = Qnew \/ b = Yinew \/ b = Pnew) s
           (SSP_RK_update g dqdt dpdt dydt s).
Proof.
  unfold SSP_RK_update, SSP_RK_update_node, SSP_RK_update_cell. modifies_tac.
Qed.

Lemma computeVelocity_modifies T_g s :
  modifies (fun b _ => b = Vnew) s (computeVelocity T_g s).
Proof. unfold computeVelocity. modifies_tac. Qed.

Lemma computeEquilibriumLoadings_modifies s s' :
  computeEquilibriumLoadings s = Ok s' ->
  modifies (fun b _ => b = Qeqnew) s s'.
Proof.
  unfold computeEquilibriumLoadings. cbv zeta.
  case_match; [done|]. intros [= <-]. modifies_tac.
Qed.

Lemma pulseBoundaryCondition_modifies t s :
  modifies (fun b k => b = P /\ k < N) s (pulseBoundaryCondition t s).
Proof.
  unfold pulseBoundaryCondition. modifies_tac; simpl; (split; [done|lia]).
Qed.

Lemma modifies_staging_Pt s s' : modifies staging s s' -> vec s' Pt = vec s Pt.
Proof.
  intros H. apply (modifies_vec _ _ _ _ H). by intros k Hk.
Qed.

Lemma pressureCheck_staging s s' :
  modifies staging s s' -> pressureCheck s' = pressureCheck s.
Proof. intros H. unfold pressureCheck. by rewrite (modifies_staging_Pt _ _ H). Qed.

Lemma computeEquilibriumLoadings_cases s :
  match computeEquilibriumLoadings s with
  | Ok s' => pressureCheck s = false /\ modifies (fun b _ => b = Qeqnew) s s'
  | Throw _ => pressureCheck s = true
  end.
Proof.
  destruct (computeEquilibriumLoadings s) as [s'|e] eqn:E.
  - split; [|by apply computeEquilibriumLoadings_modifies].
    revert E. unfold computeEquilibriumLoadings. cbv zeta.
    match goal with |- context [for_loop 0 (G + 1) ?body s] =>
      set (a := for_loop 0 (G + 1) body s) end.
    assert (Ha : modifies (fun b _ => b = Qeqnew) s a) by (subst a; modifies_tac).
    assert (Hv : vec a Pt = vec s Pt) by (by apply (modifies_vec _ _ _ _ Ha)).
    unfold pressureCheck. rewrite Hv. by case_match.
  - revert E. unfold computeEquilibriumLoadings. cbv zeta.
    match goal with |- context [for_loop 0 (G + 1) ?body s] =>
      set (a := for_loop 0 (G + 1) body s) end.
    assert (Ha : modifies (fun b _ => b = Qeqnew) s a) by (subst a; modifies_tac).
    assert (Hv : vec a Pt = vec s Pt) by (by apply (modifies_vec _ _ _ _ Ha)).
    unfold pressureCheck. rewrite Hv. by case_match.
Qed.

Ltac staging_tac :=
  eapply modifies_weaken; [| first
    [ apply computeFirstDerivatives_modifies
    | apply SSP_RK_update_modifies
    | apply computeVelocity_modifies
    | eassumption ] ];
  intros ? ? ?; simpl in *; drop_params; intuition (subst; exact I).

Lemma SSP_RK_stage1_staging s : modifies staging s (SSP_RK_stage1 s).
Proof.
  unfold SSP_RK_stage1, SSP_RK_update1. cbv zeta.
  eapply modifies_trans; staging_tac.
Qed.

Lemma SSP_RK_stage2_staging s : modifies staging s (SSP_RK_stage2 s).
Proof.
  unfold SSP_RK_stage2, SSP_RK_update2. cbv zeta.
  eapply modifies_trans; staging_tac.
Qed.

Lemma SSP_RK_stage3_staging s : modifies staging s (SSP_RK_stage3 s).
Proof.
  unfold SSP_RK_stage3, SSP_RK_update3. cbv zeta.
  eapply modifies_trans; staging_tac.
Qed.

Lemma computeVelocity_staging T_g s : modifies staging s (computeVelocity T_g s).
Proof. staging_tac. Qed.

Lemma computeEquilibriumLoadings_staging s s' :
  computeEquilibriumLoadings s = Ok s' -> modifies staging s s'.
Proof.
  intros E. apply computeEquilibriumLoadings_modifies in E. staging_tac.
Qed.

(** [SSP_RK] throws exactly when the check of line 626 fails on the state
    it starts from; otherwise it commits a state that differs from the
    start only in the staging vectors and the oracle's bookkeeping. *)
Lemma SSP_RK_cases s :
  match SSP_RK s with
  | Ok s' => pressureCheck s = false /\
             exists s3, modifies staging s s3 /\ s' = commit s3
  | Throw _ => pressureCheck s = true
  end.
Proof.
  unfold SSP_RK. cbv zeta.
  pose proof (SSP_RK_stage1_staging s) as H1.
  set (u1 := SSP_RK_stage1 s) in *.
  pose proof (computeEquilibriumLoadings_cases u1) as C1.
  destruct (computeEquilibriumLoadings u1) as [e1|] eqn:E1; simpl;
    [|by rewrite <- (pressureCheck_staging _ _ H1)].
  destruct C1 as [C1 _].
  pose proof (computeEquilibriumLoadings_staging _ _ E1) as H1e.
  pose proof (computeVelocity_staging (T prm) e1) as H1v.
  set (v1 := computeVelocity (T prm) e1) in *.
  pose proof (SSP_RK_stage2_staging v1) as H2.
  set (u2 := SSP_RK_stage2 v1) in *.
  assert (M2 : modifies staging s u2) by eauto using modifies_trans.
  pose proof (computeEquilibriumLoadings_cases u2) as C2.
  destruct (computeEquilibriumLoadings u2) as [e2|] eqn:E2; simpl;
    [|by rewrite <- (pressureCheck_staging _ _ M2)].
  pose proof (computeEquilibriumLoadings_staging _ _ E2) as H2e.
  pose proof (computeVelocity_staging (T prm) e2) as H2v.
  set (v2 := computeVelocity (T prm) e2) in *.
  pose proof (SSP_RK_stage3_staging v2) as H3.
  set (u3 := SSP_RK_stage3 v2) in *.
  assert (M3 : modifies staging s u3) by eauto using modifies_trans.
  pose proof (computeEquilibriumLoadings_cases u3) as C3.
  destruct (computeEquilibriumLoadings u3) as [e3|] eqn:E3; simpl;
    [|by rewrite <- (pressureCheck_staging _ _ M3)].
  pose proof (computeEquilibriumLoadings_staging _ _ E3) as H3e.
  pose proof (computeVelocity_staging (T prm) e3) as H3v.
  split; [by rewrite <- (pressureCheck_staging _ _ H1)|].
  eexists. split; [|reflexivity]. eauto 10 using modifies_trans.
Qed.

Lemma lookup_wr_eq b i x s :
  i < length (vec s b) -> vec (wr b i x s) b !! i = Some x.
Proof. intros H. rewrite vec_wr. case_decide; [|done]. by apply list_lookup_insert_eq. Qed.

Lemma lookup_wr_ne b i x s b' k :
  b <> b' \/ i <> k -> vec (wr b i x s) b' !! k = vec s b' !! k.
Proof.
  intros H. rewrite vec_wr. case_decide; [|done]. subst.
  apply list_lookup_insert_ne. by destruct H.
Qed.

Lemma length_wr b i x s b' : length (vec (wr b i x s) b') = length (vec s b').
Proof. rewrite vec_wr. case_decide; subst; [|done]. by rewrite length_insert. Qed.

Lemma staging_size s s' b : modifies staging s s' -> wf s -> length (vec s' b) = size b.
Proof. intros [Hl _ _ _] [_ Hs _]. by rewrite Hl. Qed.

Lemma autoStepsCheck_vec step s : vec (autoStepsCheck step s) = vec s.
Proof. unfold autoStepsCheck. by repeat case_match. Qed.

Lemma autoStepsCheck_pressureCheck step s :
  pressureCheck (autoStepsCheck step s) = pressureCheck s.
Proof. unfold pressureCheck. by rewrite autoStepsCheck_vec. Qed.

(** With an oracle that returns, [computeStep] throws exactly when
    [Pt[0] + dptdx * L < 0.0] holds of the state it is called on. *)
Lemma computeStep_throws_iff step s :
  computeStep step s = Throw runtime_error_negative_outlet_pressure <->
  pressureCheck s = true.
Proof.
  unfold computeStep. cbv zeta.
  pose proof (SSP_RK_cases (autoStepsCheck step s)) as C.
  rewrite autoStepsCheck_pressureCheck in C.
  destruct (SSP_RK (autoStepsCheck step s)) as [s1|[]]; simpl.
  - destruct C as [C _]. rewrite C. split; discriminate.
  - by rewrite C.
Qed.

Lemma pulse_loop_inlet (sc : State) n :
  n <= length (vec sc P) ->
  let a := for_loop 0 n (fun j s =>
             if decide (j = carrierGasComponent prm)
             then wr P (0 * N + j) (p_total prm) s
             else wr P (0 * N + j) 0%float s) sc in
  length (vec a P) = length (vec sc P) /\
  forall j, j < n ->
    vec a P !! (0 * N + j) =
    Some (if decide (j = carrierGasComponent prm) then p_total prm else 0%float).
Proof.
  induction n as [|n IH]; intros Hn; cbv zeta.
  - rewrite for_loop_nil by lia. split; [done|]. lia.
  - rewrite for_loop_S by lia. destruct IH as [Hl IH]; [lia|].
    split.
    + case_decide; by rewrite length_wr.
    + intros j Hj. destruct (decide (j = n)) as [->|Hne].
      * case_decide; rewrite lookup_wr_eq; try done; lia.
      * rewrite <- (IH j) by lia. case_decide; apply lookup_wr_ne; right; lia.
Qed.

Lemma pulseBoundaryCondition_oracle_fields t s :
  oracle_fields (pulseBoundaryCondition t s) = oracle_fields s.
Proof.
  unfold pulseBoundaryCondition. repeat case_match; try done.
  apply (for_loop_ind (fun a => oracle_fields a = oracle_fields s)); [done|].
  intros j x _ <-. by case_decide.
Qed.

(** ** [computeFirstDerivatives]: the total-pressure derivative at the two
    ends of the column *)

Section FirstDerivativesFacts.

Variables dqdt dpdt dydt q_eq q v p y : Buf.
Hypothesis Hna : no_alias dqdt dpdt dydt q_eq q v p.

Local Abbreviation outputs := (fun (b : Buf) (_ : nat) => b = dqdt \/ b = dpdt \/ b = dydt).

Lemma no_alias_inputs b :
  b ∈ [q_eq; q; v; p; prefactor] -> b <> dqdt /\ b <> dpdt /\ b <> dydt.
Proof.
  destruct Hna as (_ & _ & H). rewrite Forall_forall in H. apply H.
Qed.

Lemma outputs_keep_inputs s s' b :
  modifies outputs s s' -> b ∈ [q_eq; q; v; p; prefactor] -> vec s' b = vec s b.
Proof.
  intros M Hb. apply (modifies_vec _ _ _ _ M). intros _.
  destruct (no_alias_inputs b Hb) as (? & ? & ?). taut.
Qed.

Lemma wr_output_keeps_input o i x s b :
  o = dqdt \/ o = dpdt \/ o = dydt ->
  b ∈ [q_eq; q; v; p; prefactor] -> vec (wr o i x s) b = vec s b.
Proof.
  intros Ho Hb. apply vec_wr_ne.
  destruct (no_alias_inputs b Hb) as (? & ? & ?). drop_params; intuition congruence.
Qed.

Ltac input_tac := rewrite !elem_of_cons; taut.


Lemma middleGridpoints_modifies s :
  modifies (fun b k => b = dqdt \/ b = dydt \/ (b = dpdt /\ 1 <= k)) s
           (middleGridpoints dqdt dpdt dydt q_eq q v p y s).
Proof. unfold middleGridpoints. modifies_tac. Qed.


Lemma firstGridpoint_modifies s :
  modifies outputs s (firstGridpoint dqdt dpdt dydt q_eq q v p s).
Proof. unfold firstGridpoint. modifies_tac. Qed.

Lemma middleGridpoints_outputs s :
  modifies outputs s (middleGridpoints dqdt dpdt dydt q_eq q v p y s).
Proof.
  eapply modifies_weaken; [|apply middleGridpoints_modifies]. simpl. taut.
Qed.


(** [dpdt[Ngrid]] after the call. *)
Lemma computeFirstDerivatives_dpdt_outlet s :
  1 <= N -> G < length (vec s dpdt) ->
  (computeFirstDerivatives dqdt dpdt dydt q_eq q v p y s).[dpdt, G] = outlet_dpdt q_eq q v p s.
Proof.
  intros HN Hlen. apply rd_lookup. unfold computeFirstDerivatives. cbv zeta.
  set (s2 := middleGridpoints dqdt dpdt dydt q_eq q v p y
               (firstGridpoint dqdt dpdt dydt q_eq q v p s)).
  assert (M2 : modifies outputs s s2).
  { eapply modifies_trans; [apply firstGridpoint_modifies|apply middleGridpoints_outputs]. }
  unfold lastGridpoint. cbv zeta.
  rewrite (for_loop_last (A := State)) by done.
  match goal with |- context [for_loop 0 (N - 1) ?body s2] =>
    set (a := for_loop 0 (N - 1) body s2) end.
  assert (Ma : modifies outputs s2 a) by (subst a; modifies_tac).
  assert (M : modifies outputs s a) by eauto using modifies_trans.
  destruct Hna as (Hqd & Hyd & _).
  rewrite lookup_wr_ne by (left; congruence).
  rewrite lookup_wr_eq
    by (rewrite length_wr; destruct M as [Hl _ _ _]; by rewrite Hl).
  f_equal. unfold outlet_dpdt.
  rewrite !(wr_output_keeps_input dqdt) by (taut || input_tac).
  by rewrite !(outputs_keep_inputs s a) by (done || input_tac).
Qed.

End FirstDerivativesFacts.

(** ** The update loop of a stage, cell by cell *)

Lemma index_lt i j n c : i < n -> j < c -> i * c + j < n * c.
Proof. nia. Qed.

Lemma index_ge i j n c : n <= i -> n * c <= i * c + j.
Proof. nia. Qed.

Lemma rd_wr_buf b i x s b' k : b <> b' -> (wr b i x s).[b', k] = s.[b', k].
Proof. intros H. by rewrite vec_wr_ne. Qed.

Lemma rd_wr_idx b i x s k :
  i <> k -> k < length (vec s b) -> (wr b i x s).[b, k] = s.[b, k].
Proof. intros H Hk. apply rd_ext; [done|]. apply lookup_wr_ne. by right. Qed.

Section UpdateFacts.

Variable g : float -> float -> float -> float.
Variables dqdt dpdt dydt : Buf.

(** The derivative vectors are none of the four vectors the loop writes. *)
Hypothesis Hd :
  Forall (fun b => b <> Ptnew /\ b <> Qnew /\ b <> Yinew /\ b <> Pnew) [dqdt; dpdt; dydt].

Lemma derivative_not_written b :
  b ∈ [dqdt; dpdt; dydt] -> b <> Ptnew /\ b <> Qnew /\ b <> Yinew /\ b <> Pnew.
Proof. rewrite Forall_forall in Hd. apply Hd. Qed.

Lemma SSP_RK_update_cells_modifies i m s :
  modifies (cells_of_node i m) s (for_loop 0 m (SSP_RK_update_cell g dqdt dydt i) s).
Proof.
  unfold SSP_RK_update_cell, cells_of_node. modifies_tac.
Qed.

Lemma cells_of_node_keeps i m s s' b :
  modifies (cells_of_node i m) s s' ->
  b <> Qnew -> b <> Yinew -> b <> Pnew -> vec s' b = vec s b.
Proof.
  intros M ? ? ?. apply (modifies_vec _ _ _ _ M). intros k [? _]. taut.
Qed.

Lemma SSP_RK_update_cells_spec i s m :
  m <= N ->
  i * N + N <= length (vec s Qnew) ->
  i * N + N <= length (vec s Yinew) ->
  i * N + N <= length (vec s Pnew) ->
  forall j, j < m ->
    cell_updated g dqdt dydt i j s (for_loop 0 m (SSP_RK_update_cell g dqdt dydt i) s).
Proof.
  intros Hm HQ HY HP. induction m as [|m IH]; intros j Hj; [lia|].
  rewrite for_loop_S by lia.
  pose proof (SSP_RK_update_cells_modifies i m s) as M.
  set (a := for_loop 0 m (SSP_RK_update_cell g dqdt dydt i) s) in *.
  destruct (derivative_not_written dqdt) as (? & ? & ? & ?); [rewrite !elem_of_cons; taut|].
  destruct (derivative_not_written dydt) as (? & ? & ? & ?); [rewrite !elem_of_cons; taut|].
  assert (La : forall b, length (vec a b) = length (vec s b)) by apply M.
  destruct (decide (j = m)) as [->|Hne].
  - unfold SSP_RK_update_cell, cell_updated. cbv zeta.
    rewrite !(rd_wr_buf Pnew) by done.
    rewrite !(rd_wr_buf Yinew _ _ _ Qnew), !(rd_wr_buf Yinew _ _ _ Ptnew) by done.
    rewrite !rd_wr_eq by (rewrite ?length_wr, La; lia).
    rewrite !(rd_wr_buf Qnew) by done.
    rewrite ?(cells_of_node_keeps i m s a Q), ?(cells_of_node_keeps i m s a Yi),
      ?(cells_of_node_keeps i m s a dqdt), ?(cells_of_node_keeps i m s a dydt)
      by (done || congruence).
    assert (a.[Qnew, i * N + m] = s.[Qnew, i * N + m]) as ->.
    { apply (modifies_rd _ _ _ _ _ M); [|lia]. intros [_ ?]. lia. }
    assert (a.[Yinew, i * N + m] = s.[Yinew, i * N + m]) as ->.
    { apply (modifies_rd _ _ _ _ _ M); [|lia]. intros [_ ?]. lia. }
    done.
  - specialize (IH ltac:(lia) j ltac:(lia)).
    destruct IH as (IQ & IY & IP). unfold cell_updated.
    assert (K : forall b, b = Qnew \/ b = Yinew \/ b = Pnew ->
                (SSP_RK_update_cell g dqdt dydt i m a).[b, i * N + j] = a.[b, i * N + j]).
    { intros b Hb. unfold SSP_RK_update_cell. cbv zeta.
      assert (i * N + j < length (vec a b)) by (rewrite La; destruct Hb as [-> | [-> | ->]]; lia).
      apply rd_ext; [done|].
      rewrite !lookup_wr_ne; [done|right; lia..]. }
    assert (KP : (SSP_RK_update_cell g dqdt dydt i m a).[Ptnew, i] = a.[Ptnew, i]).
    { unfold SSP_RK_update_cell. cbv zeta. by rewrite !rd_wr_buf by done. }
    rewrite (K Qnew), !(K Yinew), (K Pnew) by taut.
    rewrite KP. by repeat split.
Qed.

Lemma SSP_RK_update_node_modifies i s :
  modifies (cells_at i) s (SSP_RK_update_node g dqdt dpdt dydt i s).
Proof.
  unfold SSP_RK_update_node. cbv zeta.
  eapply modifies_trans.
  - apply modifies_wr; [|apply modifies_refl]. by left.
  - eapply modifies_weaken; [|apply SSP_RK_update_cells_modifies].
    intros b k H. by right.
Qed.

Lemma SSP_RK_update_nodes_modifies n s :
  modifies (cells_below n) s (for_loop 0 n (SSP_RK_update_node g dqdt dpdt dydt) s).
Proof.
  apply modifies_for_loop; [apply modifies_refl|].
  intros i a Hi Ma. eapply modifies_trans; [exact Ma|].
  eapply modifies_weaken; [|apply SSP_RK_update_node_modifies].
  intros b k [[-> ->]|[Hb Hk]]; [left; split; [done|lia]|right; split; [done|]].
  pose proof (index_lt i 0 n N ltac:(lia)). nia.
Qed.

Lemma SSP_RK_update_nodes_spec s n :
  n <= G + 1 ->
  G + 1 <= length (vec s Ptnew) ->
  (G + 1) * N <= length (vec s Qnew) ->
  (G + 1) * N <= length (vec s Yinew) ->
  (G + 1) * N <= length (vec s Pnew) ->
  forall i, i < n ->
    node_updated g dqdt dpdt dydt i s (for_loop 0 n (SSP_RK_update_node g dqdt dpdt dydt) s).
Proof.
  intros Hn HT HQ HY HP.
  destruct (derivative_not_written dqdt) as (? & ? & ? & ?); [rewrite !elem_of_cons; taut|].
  destruct (derivative_not_written dpdt) as (? & ? & ? & ?); [rewrite !elem_of_cons; taut|].
  destruct (derivative_not_written dydt) as (? & ? & ? & ?); [rewrite !elem_of_cons; taut|].
  induction n as [|n IH]; intros i Hi; [lia|].
  rewrite for_loop_S by lia.
  pose proof (SSP_RK_update_nodes_modifies n s) as M.
  set (sn := for_loop 0 n (SSP_RK_update_node g dqdt dpdt dydt) s) in *.
  assert (Ln : forall b, length (vec sn b) = length (vec s b)) by apply M.
  assert (Keep : forall b, b <> Ptnew -> b <> Qnew -> b <> Yinew -> b <> Pnew ->
                   vec sn b = vec s b).
  { intros b ? ? ? ?. apply (modifies_vec _ _ _ _ M). intros k [[? _]|[? _]]; taut. }
  assert (Hrow : forall j, j < N -> n * N + j < (G + 1) * N)
    by (intros j Hj; apply index_lt; lia).
  destruct (decide (i = n)) as [->|Hne].
  - unfold SSP_RK_update_node. cbv zeta.
    set (X := g sn.[Pt, n] sn.[Ptnew, n] sn.[dpdt, n]).
    set (a := wr Ptnew n X sn).
    pose proof (SSP_RK_update_cells_modifies n N a) as Mc.
    set (s' := for_loop 0 N (SSP_RK_update_cell g dqdt dydt n) a) in *.
    assert (HX : s'.[Ptnew, n] = g s.[Pt, n] s.[Ptnew, n] s.[dpdt, n]).
    { rewrite (cells_of_node_keeps _ _ _ _ Ptnew Mc) by done.
      subst a. rewrite rd_wr_eq by (rewrite Ln; lia). subst X.
      rewrite (Keep Pt), (Keep dpdt) by done. f_equal.
      apply (modifies_rd _ _ _ _ _ M); [|lia]. intros [[_ ?]|[? _]]; [lia|].
      drop_params; intuition discriminate. }
    split; [exact HX|]. intros j Hj.
    assert (La : forall b, length (vec a b) = length (vec s b))
      by (intros b; subst a; by rewrite length_wr).
    pose proof (Hrow j Hj) as Hk.
    pose proof (SSP_RK_update_cells_spec n a N ltac:(lia)
                  ltac:(rewrite La; specialize (Hrow 0); nia)
                  ltac:(rewrite La; specialize (Hrow 0); nia)
                  ltac:(rewrite La; specialize (Hrow 0); nia) j Hj) as (CQ & CY & CP).
    fold s' in CQ, CY, CP.
    assert (Old : forall b, b = Qnew \/ b = Yinew ->
                    a.[b, n * N + j] = s.[b, n * N + j]).
    { intros b Hb. subst a. rewrite rd_wr_buf by (drop_params; intuition congruence).
      apply (modifies_rd _ _ _ _ _ M).
      - intros [[? _]|[_ ?]]; [drop_params; intuition congruence|]. nia.
      - destruct Hb as [-> | ->]; lia. }
    assert (In : forall b, b <> Ptnew -> b <> Qnew -> b <> Yinew -> b <> Pnew ->
                   vec a b = vec s b).
    { intros b ? ? ? ?. subst a. rewrite vec_wr_ne by done. by apply Keep. }
    repeat split.
    + rewrite CQ, (Old Qnew), (In Q), (In dqdt) by (done || taut). done.
    + rewrite CY, (Old Yinew), (In Yi), (In dydt) by (done || taut). done.
    + exact CP.
  - specialize (IH ltac:(lia) i ltac:(lia)). destruct IH as [IT IC].
    pose proof (SSP_RK_update_node_modifies n sn) as Mn.
    set (s' := SSP_RK_update_node g dqdt dpdt dydt n sn) in *.
    assert (KT : s'.[Ptnew, i] = sn.[Ptnew, i]).
    { apply (modifies_rd _ _ _ _ _ Mn); [|rewrite Ln; lia].
      intros [[_ ?]|[? _]]; [lia|]. drop_params; intuition discriminate. }
    split; [by rewrite KT|]. intros j Hj.
    assert (i * N + j < n * N) by (apply index_lt; lia).
    pose proof (Hrow 0 ltac:(lia)).
    assert (K : forall b, b = Qnew \/ b = Yinew \/ b = Pnew ->
                  s'.[b, i * N + j] = sn.[b, i * N + j]).
    { intros b Hb. apply (modifies_rd _ _ _ _ _ Mn).
      - intros [[? _]|[_ ?]]; [drop_params; intuition congruence|]. lia.
      - rewrite Ln. destruct Hb as [-> | [-> | ->]]; nia. }
    destruct (IC j Hj) as (IQ & IY & IP). unfold cell_updated.
    rewrite (K Qnew), !(K Yinew), (K Pnew), KT by taut. by repeat split.
Qed.

Lemma SSP_RK_update_spec s i :
  (forall b, length (vec s b) = size b) ->
  i <= G -> node_updated g dqdt dpdt dydt i s (SSP_RK_update g dqdt dpdt dydt s).
Proof.
  intros Hs Hi. unfold SSP_RK_update.
  apply SSP_RK_update_nodes_spec; rewrite ?Hs; simpl; lia.
Qed.

End UpdateFacts.

(** ** Between two stages *)

Lemma restage_modifies u e :
  computeEquilibriumLoadings u = Ok e ->
  modifies between_stages u
    (computeFirstDerivatives Dqdtnew Dpdtnew Dydtnew Qeqnew Qnew Vnew Ptnew Yinew
       (computeVelocity (T prm) e)).
Proof.
  intros E. apply computeEquilibriumLoadings_modifies in E.
  eapply modifies_trans; [|eapply modifies_trans].
  - eapply modifies_weaken; [|exact E]. by intros b k ->.
  - eapply modifies_weaken; [|apply computeVelocity_modifies]. by intros b k ->.
  - eapply modifies_weaken; [|apply computeFirstDerivatives_modifies].
    by intros b k [-> | [-> | ->]].
Qed.

Lemma ShuOsher_stage_intro g dqdt dpdt dydt U F W0 :
  Forall (fun b => b <> Ptnew /\ b <> Qnew /\ b <> Yinew /\ b <> Pnew) [dqdt; dpdt; dydt] ->
  (forall b, length (vec F b) = size b) ->
  vec F Pt = vec U Pt -> vec F Q = vec U Q -> vec F Yi = vec U Yi ->
  vec F Ptnew = vec W0 Ptnew -> vec F Qnew = vec W0 Qnew -> vec F Yinew = vec W0 Yinew ->
  ShuOsher_stage g dqdt dpdt dydt U F W0 (SSP_RK_update g dqdt dpdt dydt F).
Proof.
  intros Hd Hs EPt EQ EYi EPtn EQn EYn i Hi.
  destruct (SSP_RK_update_spec g dqdt dpdt dydt Hd F i Hs Hi) as [HT HC].
  split; [by rewrite HT, EPt, EPtn|].
  intros j Hj. destruct (HC j Hj) as (HQ & HY & HP).
  repeat split; [by rewrite HQ, EQ, EQn|by rewrite HY, EYi, EYn|exact HP].
Qed.

Lemma modifies_size F s s' :
  modifies F s s' ->
  (forall b, length (vec s b) = size b) -> forall b, length (vec s' b) = size b.
Proof. intros [Hl _ _ _] Hs b. by rewrite Hl. Qed.

Lemma staging_keeps s s' b :
  modifies staging s s' -> b = Pt \/ b = Q \/ b = Yi -> vec s' b = vec s b.
Proof.
  intros M Hb. apply (modifies_vec _ _ _ _ M). intros k.
  destruct Hb as [-> | [-> | ->]]; exact (fun H => H).
Qed.

Lemma between_stages_staging s s' :
  modifies between_stages s s' -> modifies staging s s'.
Proof. apply modifies_weaken. by intros [] k. Qed.

Lemma between_stages_keeps s s' b :
  modifies between_stages s s' ->
  b = Ptnew \/ b = Qnew \/ b = Yinew -> vec s' b = vec s b.
Proof.
  intros M Hb. apply (modifies_vec _ _ _ _ M). intros k.
  destruct Hb as [-> | [-> | ->]]; exact (fun H => H).
Qed.

Lemma SSP_RK_update_staging g dqdt dpdt dydt s :
  modifies staging s (SSP_RK_update g dqdt dpdt dydt s).
Proof. staging_tac. Qed.

Lemma commit_vec s :
  vec (commit s) Q = vec s Qnew /\ vec (commit s) Pt = vec s Ptnew /\
  vec (commit s) P = vec s Pnew /\ vec (commit s) Qeq = vec s Qeqnew /\
  vec (commit s) V = vec s Vnew /\ vec (commit s) Yi = vec s Yinew.
Proof. by repeat split. Qed.

Lemma pulseBoundaryCondition_keeps t s b :
  b <> P -> vec (pulseBoundaryCondition t s) b = vec s b.
Proof.
  intros Hb. apply (modifies_vec _ _ _ _ (pulseBoundaryCondition_modifies t s)).
  intros k [? _]. done.
Qed.

(** ** [computeVelocity], node by node *)

Lemma computeVelocity_middle T_g s0 s n :
  modifies (fun b _ => b = Vnew) s0 s ->
  n <= length (vec s0 Vnew) ->
  let a := for_loop 1 n (fun i s =>
    wr Vnew i (Ergun_velocity T_g s.[Pt, i] s.[Pt, i - 1]) s) s in
  modifies (fun b k => b = Vnew /\ 1 <= k < n) s a /\
  forall i, 1 <= i < n -> a.[Vnew, i] = Ergun_velocity T_g s0.[Pt, i] s0.[Pt, i - 1].
Proof.
  intros M0 Hn. induction n as [|n IH]; cbv zeta.
  - rewrite for_loop_nil by lia. split; [apply modifies_refl|lia].
  - destruct (decide (n = 0)) as [->|Hn0].
    { rewrite for_loop_nil by lia. split; [apply modifies_refl|lia]. }
    rewrite for_loop_S by lia. destruct IH as [Ma IH]; [lia|].
    set (a := for_loop 1 n _ s) in *.
    assert (La : length (vec a Vnew) = length (vec s0 Vnew)).
    { destruct Ma as [Hl _ _ _], M0 as [Hl0 _ _ _]. by rewrite Hl, Hl0. }
    assert (HPt : vec a Pt = vec s0 Pt).
    { rewrite (modifies_vec _ _ _ Pt Ma) by (by intros k [? _]).
      by rewrite (modifies_vec _ _ _ Pt M0). }
    split.
    + apply modifies_wr; [split; [done|lia]|].
      eapply modifies_weaken; [|exact Ma]. intros b k [? ?]. split; [done|lia].
    + intros i Hi. destruct (decide (i = n)) as [->|Hne].
      * rewrite rd_wr_eq by lia. by rewrite HPt.
      * rewrite rd_wr_idx by lia. apply IH. lia.
Qed.

(** [Vnew] after [computeVelocity]: the inlet value is [v_in], every other
    node holds [Ergun_velocity] of its own and its upstream total pressure. *)
Lemma computeVelocity_Vnew T_g s :
  1 <= G -> G < length (vec s Vnew) ->
  (computeVelocity T_g s).[Vnew, 0] = v_in prm /\
  forall i, 1 <= i <= G ->
    (computeVelocity T_g s).[Vnew, i] = Ergun_velocity T_g s.[Pt, i] s.[Pt, i - 1].
Proof.
  intros HG Hlen. unfold computeVelocity. cbv zeta.
  set (s1 := wr Vnew 0 (v_in prm) s).
  assert (M1 : modifies (fun b _ => b = Vnew) s s1).
  { subst s1. by apply modifies_wr; [|apply modifies_refl]. }
  assert (L1 : length (vec s1 Vnew) = length (vec s Vnew)) by apply M1.
  destruct (computeVelocity_middle T_g s s1 G M1 ltac:(lia)) as [Ma Ha].
  fold (Ergun_velocity T_g) in *.
  change (for_loop 1 G _ s1) with
    (for_loop 1 G (fun i s =>
       wr Vnew i (Ergun_velocity T_g s.[Pt, i] s.[Pt, i - 1]) s) s1).
  set (a := for_loop 1 G _ s1) in *.
  assert (La : length (vec a Vnew) = length (vec s Vnew)).
  { destruct Ma as [Hl _ _ _]. by rewrite Hl. }
  assert (HPt : vec a Pt = vec s Pt).
  { rewrite (modifies_vec _ _ _ Pt Ma) by (by intros k [? _]).
    by rewrite (modifies_vec _ _ _ Pt M1). }
  split.
  - rewrite rd_wr_idx by lia.
    rewrite (modifies_rd _ _ _ _ _ Ma) by (try lia; intros [_ ?]; lia).
    subst s1. by rewrite rd_wr_eq by lia.
  - intros i Hi. destruct (decide (i = G)) as [->|Hne].
    + rewrite rd_wr_eq by lia. change (Ergun_velocity T_g a.[Pt, G] a.[Pt, G - 1] = 
        Ergun_velocity T_g s.[Pt, G] s.[Pt, G - 1]). by rewrite HPt.
    + rewrite rd_wr_idx by lia. apply Ha. lia.
Qed.

(** ** [initialize] *)

Lemma fold_left_inv {A B} (I : A -> Prop) (f : A -> B -> A) (l : list B) a :
  I a -> (forall x b, b ∈ l -> I x -> I (f x b)) -> I (fold_left f l a).
Proof.
  revert a. induction l as [|b l IH]; intros a Ha Hf; simpl; [done|].
  apply IH.
  - apply Hf; [left|done].
  - intros x b' Hb'. apply Hf. by right.
Qed.

Lemma for_down_ind {A} (I : A -> Prop) hi lo (body : nat -> A -> A) a :
  I a ->
  (forall i x, lo < i <= hi -> I x -> I (body i x)) ->
  I (for_down hi lo body a).
Proof.
  intros Ha Hstep. unfold for_down. apply fold_left_inv; [done|].
  intros x i Hi. apply Hstep.
  apply list_elem_of_In, in_rev, in_seq in Hi. lia.
Qed.

Lemma for_loop_ext {A} lo hi (f g : nat -> A -> A) a :
  (forall i x, lo <= i < hi -> f i x = g i x) ->
  for_loop lo hi f a = for_loop lo hi g a.
Proof.
  intros H. destruct (decide (hi <= lo)) as [Hle|Hgt]; [by rewrite !for_loop_nil|].
  assert (Hn : forall n, lo <= n <= hi -> for_loop lo n f a = for_loop lo n g a).
  { induction n as [|n IH]; intros Hb.
    - by rewrite !for_loop_nil by lia.
    - destruct (decide (lo = S n)) as [->|]; [by rewrite !for_loop_nil|].
      rewrite !for_loop_S by lia. rewrite IH by lia. apply H. lia. }
  apply Hn. lia.
Qed.

Lemma pt_init_spec : length pt_init = G + 1 /\ pt_init !! G = Some (p_total prm).
Proof.
  unfold pt_init, computeInitialPressure. cbv zeta.
  apply (for_down_ind (fun p => length p = G + 1 /\ p !! G = Some (p_total prm))).
  - rewrite length_insert, length_replicate. split; [done|].
    apply list_lookup_insert_eq. rewrite length_replicate. lia.
  - intros i p Hi [Hl Hp]. rewrite length_insert. split; [done|].
    rewrite list_lookup_insert_ne by lia. done.
Qed.

Lemma pt_init_outlet : rd pt_init G = p_total prm.
Proof. apply rd_lookup, pt_init_spec. Qed.

Lemma modifies_fill (F : Footprint) s0 s b x :
  (forall k, F b k) -> modifies F s0 s -> modifies F s0 (fill b x s).
Proof.
  intros HF [Hl Hk Hn Ha]. split; try done.
  - intros b'. unfold fill. simpl. destruct (decide (b = b')) as [->|Hne].
    + by rewrite fn_lookup_insert, length_replicate.
    + by rewrite fn_lookup_insert_ne.
  - intros b' k Hnot. unfold fill. simpl. destruct (decide (b = b')) as [->|Hne].
    + by destruct (Hnot (HF k)).
    + rewrite fn_lookup_insert_ne by done. by apply Hk.
Qed.

Lemma vec_fill b x s : vec (fill b x s) b = replicate (length (vec s b)) x.
Proof. unfold fill. simpl. by rewrite fn_lookup_insert. Qed.

Lemma vec_fill_ne b x s b' : b <> b' -> vec (fill b x s) b' = vec s b'.
Proof. intros. unfold fill. simpl. by rewrite fn_lookup_insert_ne. Qed.

(** Loops of writes leave the oracle's members alone. *)
Lemma for_loop_oracle_fields lo hi (body : nat -> State -> State) s :
  (forall i a, oracle_fields (body i a) = oracle_fields a) ->
  oracle_fields (for_loop lo hi body s) = oracle_fields s.
Proof.
  intros H. apply (for_loop_ind (fun a => oracle_fields a = oracle_fields s)); [done|].
  intros i x _ <-. apply H.
Qed.

(** The mole fractions handed to the oracle depend on row [i] of [Yi]
    only. *)
Lemma Yi_at_ext i s s' :
  (forall j, j < N -> s'.[Yi, i * N + j] = s.[Yi, i * N + j]) ->
  Yi_at i s' = Yi_at i s.
Proof.
  intros H. unfold Yi_at. apply for_loop_ext. intros j x Hj. by rewrite H by lia.
Qed.

Lemma index_inj i j i' j' c :
  j < c -> j' < c -> i * c + j = i' * c + j' -> i = i' /\ j = j'.
Proof.
  intros Hj Hj' E.
  assert (i = i'); [|subst; lia].
  destruct (decide (i < i')); [nia|]. destruct (decide (i' < i)); [nia|]. lia.
Qed.

(** A loop whose iteration [i] writes the single cell [idx i] of [b], with a
    value that the writes to [b] do not change. *)
Lemma for_loop_writes b (idx : nat -> nat) (val : nat -> State -> float) lo n s :
  (forall i a k x, val i (wr b k x a) = val i a) ->
  (forall i i', lo <= i < n -> lo <= i' < n -> idx i = idx i' -> i = i') ->
  (forall i, lo <= i < n -> idx i < length (vec s b)) ->
  let a := for_loop lo n (fun i s => wr b (idx i) (val i s) s) s in
  modifies (fun b' k => b' = b /\ exists i, lo <= i < n /\ k = idx i) s a /\
  oracle_fields a = oracle_fields s /\
  (forall i, val i a = val i s) /\
  forall i, lo <= i < n -> a.[b, idx i] = val i s.
Proof.
  intros Hval. induction n as [|n IH]; intros Hinj Hlen; cbv zeta.
  - rewrite for_loop_nil by lia.
    refine (conj (modifies_refl _ _) (conj eq_refl (conj (fun _ => eq_refl) _))). lia.
  - destruct (decide (lo <= n)) as [Hlo|Hlo].
    2:{ rewrite for_loop_nil by lia.
        refine (conj (modifies_refl _ _) (conj eq_refl (conj (fun _ => eq_refl) _))). lia. }
    rewrite for_loop_S by lia.
    destruct IH as (Ma & Ho & Hv & Hr); [intros; apply Hinj; lia|intros; apply Hlen; lia|].
    set (a := for_loop lo n _ s) in *.
    assert (La : length (vec a b) = length (vec s b)) by apply Ma.
    refine (conj _ (conj _ (conj _ _))).
    + apply modifies_wr; [split; [done|exists n; split; [lia|done]]|].
      eapply modifies_weaken; [|exact Ma].
      intros b' k [-> (i & Hi & ->)]. split; [done|]. exists i. split; [lia|done].
    + exact Ho.
    + intros i. by rewrite Hval, Hv.
    + intros i Hi. destruct (decide (i = n)) as [->|Hne].
      * rewrite rd_wr_eq by (rewrite La; apply Hlen; lia). apply Hv.
      * rewrite rd_wr_idx.
        -- apply Hr. lia.
        -- intros E. apply Hne. symmetry. apply Hinj; [lia..|done].
        -- rewrite La. apply Hlen. lia.
Qed.

(** In the first inner loop of [initialize_node] the running [sum] does
    not influence the writes. *)
Lemma initialize_node_clamp_fst i n s :
  (for_loop 0 n (fun j '(s, sum) =>
     let s := wr Yi (i * N + j) (fmax (s.[P, i * N + j] / rd pt_init i) 0)%float s in
     (s, (sum + s.[Yi, i * N + j])%float)) (s, 0%float)).1 =
  for_loop 0 n (fun j s =>
     wr Yi (i * N + j) (fmax (s.[P, i * N + j] / rd pt_init i) 0)%float s) s.
Proof.
  induction n as [|n IH]; [by rewrite !for_loop_nil by lia|].
  rewrite !for_loop_S by lia. rewrite <- IH.
  by destruct (for_loop 0 n _ (s, 0%float)).
Qed.

Lemma initialize_node_spec i s :
  i * N + N <= length (vec s Qeq) ->
  let s' := initialize_node i s in
  modifies (node_row i) s s' /\
  Xi s' = pred_Xi (node_call s s' i) /\
  cache s' = <[i := pred_cache (node_call s s' i)]> (cache s) /\
  iastPerformance s' = pair_add (iastPerformance s) (pred_perf (node_call s s' i)) /\
  forall j, j < N -> s'.[Qeq, i * N + j] = rd (pred_Ni (node_call s s' i)) j.
Proof.
  intros HQ. unfold initialize_node.
  pose proof (initialize_node_clamp_fst i N s) as E1.
  destruct (for_loop 0 N _ (s, 0%float)) as [a1 sum]. simpl in E1. cbv zeta.
  assert (M1 : modifies (node_row i) s a1) by (subst a1; unfold node_row; modifies_tac).
  assert (O1 : oracle_fields a1 = oracle_fields s).
  { subst a1. by apply for_loop_oracle_fields. }
  clear E1.
  set (a2 := for_loop 0 N (fun j s => wr Yi (i * N + j) (s.[Yi, i * N + j] / sum)%float s) a1).
  assert (M2 : modifies (node_row i) s a2).
  { eapply modifies_trans; [exact M1|]. subst a2. unfold node_row. modifies_tac. }
  assert (O2 : oracle_fields a2 = oracle_fields s).
  { subst a2. rewrite <- O1. by apply for_loop_oracle_fields. }
  set (r := predictMixture (Yi_at i a2) (rd pt_init i) (cache_at i a2)).
  set (a3 := record_prediction i r a2).
  destruct (for_loop_writes Qeq (fun j => i * N + j) (fun j a => rd (Ni a) j) 0 N a3)
    as (M4 & O4 & _ & H4).
  { done. }
  { intros; lia. }
  { intros j Hj. change (vec a3 Qeq) with (vec a2 Qeq).
    destruct M2 as [Hl _ _ _]. rewrite Hl. lia. }
  set (s' := for_loop 0 N _ a3) in *.
  assert (EY : Yi_at i s' = Yi_at i a2).
  { apply Yi_at_ext. intros j Hj.
    rewrite (modifies_vec _ _ _ Yi M4) by (by intros k [? _]). done. }
  assert (EC : cache_at i a2 = cache_at i s).
  { unfold cache_at. injection O2 as _ _ -> _. done. }
  assert (Er : node_call s s' i = r).
  { unfold node_call. subst r. by rewrite EY, EC. }
  rewrite Er. injection O4 as EX4 EN4 EC4 EP4. injection O2 as _ _ EC2 EP2.
  refine (conj _ (conj _ (conj _ (conj _ _)))).
  - destruct M2 as [L2 K2 N2 A2], M4 as [L4 K4 N4 A4]. split.
    + intros b. by rewrite L4, <- L2.
    + intros b k Hk. rewrite K4.
      * by apply K2.
      * intros [-> (j & Hj & ->)]. apply Hk. split; [by right|lia].
    + by rewrite N4.
    + by rewrite A4.
  - by rewrite EX4.
  - rewrite EC4. simpl. by rewrite EC2.
  - rewrite EP4. simpl. by rewrite EP2.
  - intros j Hj. rewrite H4 by lia. done.
Qed.

Lemma fold_left_ext_in {A B} (f g : A -> B -> A) (l : list B) a :
  (forall x b, b ∈ l -> f x b = g x b) -> fold_left f l a = fold_left g l a.
Proof.
  revert a. induction l as [|b l IH]; intros a H; simpl; [done|].
  rewrite H by left. apply IH. intros x b' Hb'. apply H. by right.
Qed.

Lemma initialize_nodes_spec s n :
  n <= G + 1 ->
  (G + 1) * N <= length (vec s Qeq) ->
  (G + 1) * N <= length (vec s Yi) ->
  let sn := for_loop 0 n initialize_node s in
  modifies (nodes_below n) s sn /\
  length (cache sn) = length (cache s) /\
  (forall i, n <= i -> cache sn !! i = cache s !! i) /\
  (forall i, i < n -> i < length (cache s) ->
     cache sn !! i = Some (pred_cache (node_call s sn i))) /\
  (forall i j, i < n -> j < N -> sn.[Qeq, i * N + j] = rd (pred_Ni (node_call s sn i)) j) /\
  iastPerformance sn =
    fold_left (fun acc i => pair_add acc (pred_perf (node_call s sn i)))
              (seq 0 n) (iastPerformance s).
Proof.
  intros Hn HQ HY. induction n as [|n IH]; cbv zeta.
  - rewrite for_loop_nil by lia.
    refine (conj (modifies_refl _ _) (conj eq_refl (conj (fun _ _ => eq_refl) _))).
    split; [intros; lia|]. split; [intros; lia|done].
  - rewrite for_loop_S by lia.
    destruct IH as (Mn & Lc & Cge & Clt & Qlt & Perf); [lia|].
    set (sn := for_loop 0 n initialize_node s) in *.
    assert (Ln : forall b, length (vec sn b) = length (vec s b)) by apply Mn.
    assert (Hrow : n * N + N <= (G + 1) * N) by nia.
    destruct (initialize_node_spec n sn) as (Mr & _ & Cr & Pr & Qr);
      [rewrite Ln; lia|].
    set (s' := initialize_node n sn) in *.
    assert (Ecall : node_call sn s' n = node_call s s' n).
    { unfold node_call, cache_at. by rewrite Cge. }
    rewrite Ecall in Cr, Pr, Qr.
    assert (Eold : forall i, i < n -> node_call s s' i = node_call s sn i).
    { intros i Hi. unfold node_call. f_equal. apply Yi_at_ext. intros j Hj.
      assert (i * N + j < n * N) by (apply index_lt; lia).
      apply (modifies_rd _ _ _ _ _ Mr); [|rewrite Ln; lia].
      intros [_ ?]. lia. }
    refine (conj _ (conj _ (conj _ (conj _ (conj _ _))))).
    + eapply modifies_trans.
      * eapply modifies_weaken; [|exact Mn]. intros b k [? ?]. split; [done|lia].
      * eapply modifies_weaken; [|exact Mr]. intros b k [? ?]. split; [done|lia].
    + by rewrite Cr, length_insert.
    + intros i Hi. rewrite Cr, list_lookup_insert_ne by lia. apply Cge. lia.
    + intros i Hi Hc. rewrite Cr. destruct (decide (i = n)) as [->|Hne].
      * by rewrite list_lookup_insert_eq by lia.
      * rewrite list_lookup_insert_ne by lia. rewrite Eold by lia. apply Clt; lia.
    + intros i j Hi Hj. destruct (decide (i = n)) as [->|Hne]; [by apply Qr|].
      rewrite Eold by lia. rewrite <- Qlt by lia.
      assert (i * N + j < n * N) by (apply index_lt; lia).
      apply (modifies_rd _ _ _ _ _ Mr); [|rewrite Ln; lia].
      intros [_ ?]. lia.
    + rewrite seq_S, fold_left_app. simpl. rewrite Pr. f_equal.
      rewrite Perf. apply fold_left_ext_in. intros acc i Hi.
      apply elem_of_seq in Hi. by rewrite Eold by lia.
Qed.

(** With an oracle that returns, a step on a state that passes the check
    of line 626 completes. *)
Lemma computeStep_completes step s :
  pressureCheck s = false -> exists s', computeStep step s = Ok s'.
Proof.
  intros H. destruct (computeStep step s) as [s'|[]] eqn:E; [by exists s'|].
  apply computeStep_throws_iff in E. congruence.
Qed.

(** * The properties of the specification *)

(** X26: in a step that completes, each of the three update loops writes,
    cell by cell, its Shu-Osher combination of the committed vectors [Q],
    [Yi], [Pt], of the values the loop before left in [Qnew], [Yinew],
    [Ptnew], and of the derivative vectors that the call of
    [computeFirstDerivatives] before the loop has filled: [u + dt * d], then
    [0.75 * u + 0.25 * w + 0.25 * dt * d], then
    [(1/3) * u + (2/3) * w + (2/3) * dt * d]; each loop leaves
    [Pnew[i*Ncomp+j] = Yinew[i*Ncomp+j] * Ptnew[i]]; and the step commits the
    [Qnew], [Yinew], [Ptnew] of the third loop, with the [Qeqnew] and [Vnew]
    that [computeEquilibriumLoadings] and [computeVelocity] compute after
    it.  What the derivative vectors hold is not part of this statement. *)
Theorem computeStep_SSP_RK3 step s s' :
  wf s ->
  computeStep step s = Ok s' ->
  SSP_RK3_step step s s'.
Proof.
  intros [_ Hs _] E. unfold SSP_RK3_step. cbv zeta.
  set (s0 := autoStepsCheck step s).
  set (F1 := computeFirstDerivatives Dqdt Dpdt Dydt Qeq Q V P Yi s0).
  set (u1 := SSP_RK_update1 F1).
  unfold computeStep, SSP_RK, SSP_RK_stage1, SSP_RK_stage2, SSP_RK_stage3 in E.
  cbv zeta in E. fold s0 F1 u1 in E.
  assert (Hs0 : forall b, length (vec s0 b) = size b)
    by (intros b; subst s0; by rewrite autoStepsCheck_vec).
  assert (MF1 : modifies staging s0 F1) by (subst F1; staging_tac).
  assert (Mu1 : modifies staging s0 u1).
  { eapply modifies_trans; [exact MF1|apply SSP_RK_update_staging]. }
  destruct (computeEquilibriumLoadings u1) as [e1|] eqn:E1; [|done]. simpl in E.
  pose proof (restage_modifies u1 e1 E1) as R2.
  set (F2 := computeFirstDerivatives Dqdtnew Dpdtnew Dydtnew Qeqnew Qnew Vnew Ptnew Yinew
               (computeVelocity (T prm) e1)) in *.
  set (u2 := SSP_RK_update2 F2) in *.
  assert (MF2 : modifies staging s0 F2)
    by (eapply modifies_trans; [exact Mu1|by apply between_stages_staging]).
  assert (Mu2 : modifies staging s0 u2).
  { eapply modifies_trans; [exact MF2|apply SSP_RK_update_staging]. }
  destruct (computeEquilibriumLoadings u2) as [e2|] eqn:E2; [|done]. simpl in E.
  pose proof (restage_modifies u2 e2 E2) as R3.
  set (F3 := computeFirstDerivatives Dqdtnew Dpdtnew Dydtnew Qeqnew Qnew Vnew Ptnew Yinew
               (computeVelocity (T prm) e2)) in *.
  set (u3 := SSP_RK_update3 F3) in *.
  assert (MF3 : modifies staging s0 F3)
    by (eapply modifies_trans; [exact Mu2|by apply between_stages_staging]).
  destruct (computeEquilibriumLoadings u3) as [e3|] eqn:E3; [|done]. simpl in E.
  injection E as <-.
  assert (Hv : vec s0 = vec s) by apply autoStepsCheck_vec.
  exists e1, e2, e3.
  split; [done|]. split; [done|]. split; [done|].
  refine (conj _ (conj _ (conj _ (conj _ (conj _ (conj _ (conj _ _))))))).
  - apply ShuOsher_stage_intro.
    + repeat constructor; done.
    + by apply (modifies_size _ _ _ MF1).
    + rewrite <- Hv. apply (staging_keeps _ _ Pt MF1). taut.
    + rewrite <- Hv. apply (staging_keeps _ _ Q MF1). taut.
    + rewrite <- Hv. apply (staging_keeps _ _ Yi MF1). taut.
    + rewrite <- Hv. by apply computeFirstDerivatives_keeps.
    + rewrite <- Hv. by apply computeFirstDerivatives_keeps.
    + rewrite <- Hv. by apply computeFirstDerivatives_keeps.
  - apply ShuOsher_stage_intro.
    + repeat constructor; done.
    + by apply (modifies_size _ _ _ MF2).
    + rewrite <- Hv. apply (staging_keeps _ _ Pt MF2). taut.
    + rewrite <- Hv. apply (staging_keeps _ _ Q MF2). taut.
    + rewrite <- Hv. apply (staging_keeps _ _ Yi MF2). taut.
    + by apply (between_stages_keeps _ _ Ptnew R2); taut.
    + by apply (between_stages_keeps _ _ Qnew R2); taut.
    + by apply (between_stages_keeps _ _ Yinew R2); taut.
  - apply ShuOsher_stage_intro.
    + repeat constructor; done.
    + by apply (modifies_size _ _ _ MF3).
    + rewrite <- Hv. apply (staging_keeps _ _ Pt MF3). taut.
    + rewrite <- Hv. apply (staging_keeps _ _ Q MF3). taut.
    + rewrite <- Hv. apply (staging_keeps _ _ Yi MF3). taut.
    + by apply (between_stages_keeps _ _ Ptnew R3); taut.
    + by apply (between_stages_keeps _ _ Qnew R3); taut.
    + by apply (between_stages_keeps _ _ Yinew R3); taut.
  - rewrite pulseBoundaryCondition_keeps by done.
    change (vec (commit (computeVelocity (T prm) e3)) Q)
      with (vec (computeVelocity (T prm) e3) Qnew).
    rewrite (modifies_vec _ _ _ Qnew (computeVelocity_modifies (T prm) e3)) by done.
    by rewrite (modifies_vec _ _ _ Qnew (computeEquilibriumLoadings_modifies _ _ E3)).
  - rewrite pulseBoundaryCondition_keeps by done.
    change (vec (commit (computeVelocity (T prm) e3)) Yi)
      with (vec (computeVelocity (T prm) e3) Yinew).
    rewrite (modifies_vec _ _ _ Yinew (computeVelocity_modifies (T prm) e3)) by done.
    by rewrite (modifies_vec _ _ _ Yinew (computeEquilibriumLoadings_modifies _ _ E3)).
  - rewrite pulseBoundaryCondition_keeps by done.
    change (vec (commit (computeVelocity (T prm) e3)) Pt)
      with (vec (computeVelocity (T prm) e3) Ptnew).
    rewrite (modifies_vec _ _ _ Ptnew (computeVelocity_modifies (T prm) e3)) by done.
    by rewrite (modifies_vec _ _ _ Ptnew (computeEquilibriumLoadings_modifies _ _ E3)).
  - rewrite pulseBoundaryCondition_keeps by done.
    change (vec (commit (computeVelocity (T prm) e3)) Qeq)
      with (vec (computeVelocity (T prm) e3) Qeqnew).
    by rewrite (modifies_vec _ _ _ Qeqnew (computeVelocity_modifies (T prm) e3)).
  - by rewrite pulseBoundaryCondition_keeps.
Qed.

(** C7 (as amended): after [initialize] the loadings [Q] are zero in every
    cell; at node 0 [P[0*Ncomp+j] = p_total * Yi0[j]]; at every node
    [i >= 1] the partial pressure of the carrier gas is [pt_init[i]], the
    initial total pressure that [computeInitialPressure] integrates from
    [pt_init[Ngrid] = p_total], and that of every other component is zero;
    and [Qeq] at node [i] is the loading returned by one call of the oracle,
    on the mole fractions of node [i] and [pt_init[i]]: the node's cache
    slices are those one call leaves, and [iastPerformance] has grown by the
    pairs of one call per node. *)
Theorem initialize_state s :
  wf s ->
  carrierGasComponent prm < N ->
  initial_state s (initialize s).
Proof.
  intros [HG Hs Hc] Hcar. unfold initial_state, initialize. cbv zeta.
  set (s1 := for_loop 0 N _ s).
  assert (M1 : modifies (fun b _ => b = prefactor) s s1) by (subst s1; modifies_tac).
  assert (O1 : oracle_fields s1 = oracle_fields s)
    by (subst s1; by apply for_loop_oracle_fields).
  set (s3 := fill Q 0 (fill P 0 s1)).
  assert (L3 : forall b, length (vec s3 b) = size b).
  { intros b. rewrite <- Hs. destruct M1 as [Hl _ _ _]. rewrite <- Hl. subst s3.
    destruct (decide (b = Q)) as [->|]; [by rewrite vec_fill, length_replicate, vec_fill_ne|].
    rewrite vec_fill_ne by done.
    destruct (decide (b = P)) as [->|]; [by rewrite vec_fill, length_replicate|].
    by rewrite vec_fill_ne. }
  assert (Q3 : vec s3 Q = replicate ((G + 1) * N) 0%float).
  { subst s3. rewrite vec_fill, vec_fill_ne by done.
    destruct M1 as [Hl _ _ _]. by rewrite Hl, Hs. }
  assert (P3 : vec s3 P = replicate ((G + 1) * N) 0%float).
  { subst s3. rewrite vec_fill_ne, vec_fill by done.
    destruct M1 as [Hl _ _ _]. by rewrite Hl, Hs. }
  set (s4 := for_loop 0 (G + 1) _ s3).
  assert (M4 : modifies (fun b _ => b = V) s3 s4) by (subst s4; modifies_tac).
  assert (O4 : oracle_fields s4 = oracle_fields s).
  { subst s4. rewrite for_loop_oracle_fields by done. exact O1. }
  assert (L4 : forall b, length (vec s4 b) = size b)
    by (apply (modifies_size _ _ _ M4), L3).
  assert (Hrow : forall i, i <= G -> i * N + N <= (G + 1) * N) by (intros; nia).
  destruct (for_loop_writes P (fun i => i * N + carrierGasComponent prm)
              (fun i _ => rd pt_init i) 1 (G + 1) s4) as (M5 & O5 & _ & H5).
  { done. }
  { intros i i' _ _ E. by destruct (index_inj _ _ _ _ N Hcar Hcar E). }
  { intros i Hi. rewrite L4. simpl. specialize (Hrow i). lia. }
  set (s5 := for_loop 1 (G + 1) _ s4) in *.
  assert (L5 : forall b, length (vec s5 b) = size b)
    by (apply (modifies_size _ _ _ M5), L4).
  destruct (for_loop_writes P (fun j => 0 * N + j)
              (fun j _ => (p_total prm * Yi0 (component prm j))%float) 0 N s5)
    as (M6 & O6 & _ & H6).
  { done. }
  { intros; lia. }
  { intros j Hj. rewrite L5. simpl. specialize (Hrow 0). lia. }
  set (s6 := for_loop 0 N _ s5) in *.
  assert (L6 : forall b, length (vec s6 b) = size b)
    by (apply (modifies_size _ _ _ M6), L5).
  assert (O6s : oracle_fields s6 = oracle_fields s) by (by rewrite O6, O5).
  destruct (initialize_nodes_spec s6 (G + 1)) as (M7 & _ & _ & C7 & Q7 & Pf7);
    [done|by rewrite L6..|].
  set (s7 := for_loop 0 (G + 1) initialize_node s6) in *.
  assert (L7 : forall b, length (vec s7 b) = size b)
    by (apply (modifies_size _ _ _ M7), L6).
  set (s8 := for_loop 0 (G + 1) _ s7).
  assert (M8 : modifies (fun b _ => b = Pt) s7 s8) by (subst s8; modifies_tac).
  assert (O8 : oracle_fields s8 = oracle_fields s7).
  { subst s8. apply for_loop_oracle_fields. intros i a.
    by rewrite for_loop_oracle_fields. }
  assert (K8 : forall b, b <> Pt -> vec s8 b = vec s7 b).
  { intros b Hb. by apply (modifies_vec _ _ _ _ M8). }
  assert (K7 : forall b, b <> Yi -> b <> Qeq -> vec s7 b = vec s6 b).
  { intros b ? ?. apply (modifies_vec _ _ _ _ M7). intros k [? _]. taut. }
  assert (Ecall : forall i, node_call s s8 i = node_call s6 s7 i).
  { intros i. unfold node_call, cache_at. rewrite (Yi_at_ext i s7 s8).
    - injection O6s as _ _ -> _. done.
    - intros j _. by rewrite K8. }
  refine (conj _ (conj _ (conj _ (conj pt_init_outlet (conj _ _))))).
  - rewrite K8, K7 by done.
    rewrite (modifies_vec _ _ _ Q M6) by (by intros k [? _]).
    rewrite (modifies_vec _ _ _ Q M5) by (by intros k [? _]).
    by rewrite (modifies_vec _ _ _ Q M4).
  - intros j Hj. rewrite K8, K7 by done. apply H6. lia.
  - intros i j Hi Hj. rewrite K8, K7 by done.
    assert (Hk : i * N + j < length (vec s5 P)).
    { rewrite L5. simpl. specialize (Hrow i). lia. }
    rewrite (modifies_rd _ _ _ _ _ M6); [|intros [_ (j' & Hj' & E)]; nia|done].
    case_decide as Hjc.
    + subst j. apply H5. lia.
    + rewrite (modifies_rd _ _ _ _ _ M5).
      * rewrite (modifies_vec _ _ _ P M4) by done. apply rd_lookup.
        rewrite P3. apply lookup_replicate_2. specialize (Hrow i). lia.
      * intros [_ (i' & Hi' & E)]. apply index_inj in E; [|done..]. taut.
      * rewrite L4. simpl. specialize (Hrow i). lia.
  - intros i Hi. rewrite Ecall. split.
    + injection O8 as _ _ -> _. apply C7; [lia|].
      injection O6s as _ _ -> _. lia.
    + intros j Hj. rewrite K8 by done. apply Q7; [lia|done].
  - injection O8 as _ _ _ ->. rewrite Pf7. injection O6s as _ _ _ ->.
    apply fold_left_ext_in. intros acc i _. by rewrite Ecall.
Qed.

(** C4 (as amended): with [autoSteps] enabled, [computeStep] computes the
    outlet tolerance from the state it is called on; when the tolerance is
    below 0.01 it leaves [Nsteps] at [static_cast<size_t>(1.1 * step)], the
    truncation toward zero, and [autoSteps] disabled; otherwise, and on every
    step once [autoSteps] is disabled, both are unchanged. *)
Theorem computeStep_autoSteps step s s' :
  computeStep step s = Ok s' ->
  autoSteps_rule step s s'.
Proof.
  unfold computeStep, autoSteps_rule. cbv zeta. intros E.
  pose proof (SSP_RK_cases (autoStepsCheck step s)) as C.
  destruct (SSP_RK (autoStepsCheck step s)) as [sc|]; [|done].
  simpl in E. injection E as <-.
  destruct C as [_ (s3 & [_ _ Hn Ha] & ->)].
  destruct (pulseBoundaryCondition_modifies (of_size_t step * dt prm)%float (commit s3))
    as [_ _ Hn' Ha'].
  rewrite Hn', Ha'. change (Nsteps (commit s3)) with (Nsteps s3).
  change (autoSteps (commit s3)) with (autoSteps s3). rewrite Hn, Ha.
  unfold autoStepsCheck. destruct (autoSteps s) eqn:EA; [|done].
  by destruct (outletTolerance s <? 0.01)%float.
Qed.


(** C6: in a pulse run, a step whose time [t = step * dt] exceeds [tpulse]
    ends with the inlet row of [P] set to pure carrier ([p_total] for the
    carrier gas, 0 for every other component), and relative to the state
    the step committed this changes nothing else: the cells of [P] at nodes
    [i >= 1], every other vector ([Yi] included) and all other members are
    those of the committed state. *)
Theorem pulse_switches_inlet_row_only step s s' :
  wf s ->
  computeStep step s = Ok s' ->
  pulse prm = true ->
  (tpulse prm <? of_size_t step * dt prm)%float = true ->
  exists sc, SSP_RK (autoStepsCheck step s) = Ok sc /\ pulse_inlet_only sc s'.
Proof.
  intros Hwf E Hp Ht. unfold computeStep in E. cbv zeta in E.
  pose proof (SSP_RK_cases (autoStepsCheck step s)) as C.
  destruct (SSP_RK (autoStepsCheck step s)) as [sc|]; [|done].
  simpl in E. injection E as <-. exists sc. split; [done|].
  unfold pulse_inlet_only.
  destruct C as [_ (s3 & M3 & ->)].
  assert (Hlen : N <= length (vec (commit s3) P)).
  { change (vec (commit s3) P) with (vec s3 Pnew).
    destruct M3 as [Hl _ _ _]. rewrite Hl, autoStepsCheck_vec.
    destruct Hwf as [_ Hs _]. rewrite Hs. simpl. lia. }
  pose proof (pulseBoundaryCondition_modifies
                (of_size_t step * dt prm)%float (commit s3)) as [Hl Hk Hn Ha].
  repeat split; auto.
  - intros j Hj. unfold pulseBoundaryCondition. rewrite Hp, Ht.
    by apply (pulse_loop_inlet (commit s3) N Hlen).
  - intros k Hk'. apply Hk. lia.
  - intros b Hb. apply list_eq. intros k. apply Hk. taut.
  - apply pulseBoundaryCondition_oracle_fields.
Qed.

(** C9 (the code departs from it): on vectors of the constructor's sizes
    the velocity vector has the indices [0 .. Ngrid], and the outlet value
    [dpdt[Ngrid]] that [computeFirstDerivatives] returns is computed from
    [v[Ngrid + 1]], the value of a read one past the end of [v]. *)
Theorem computeFirstDerivatives_outlet_reads_past_v dqdt dpdt dydt q_eq q v p y s :
  no_alias dqdt dpdt dydt q_eq q v p ->
  1 <= N ->
  length (vec s v) = G + 1 ->
  G < length (vec s dpdt) ->
  vec s v !! (G + 1) = None /\
  (computeFirstDerivatives dqdt dpdt dydt q_eq q v p y s).[dpdt, G] =
  (- s.[p, G] * (oob (vec s v) (G + 1) - s.[v, G]) * idx
   - s.[prefactor, N - 1] * (s.[q_eq, G * N + (N - 1)] - s.[q, G * N + (N - 1)]))%float.
Proof.
  intros Hna HN Hv Hd.
  assert (Hnone : vec s v !! (G + 1) = None) by (apply lookup_ge_None; lia).
  split; [done|].
  rewrite (computeFirstDerivatives_dpdt_outlet _ _ _ _ _ _ _ _ Hna) by done.
  unfold outlet_dpdt. unfold rd at 2. by rewrite Hnone.
Qed.

(** * Further properties of the code *)

(** ** The members the oracle overwrites, through the member functions *)

Lemma oracle_fields_wr_to b i x s X :
  oracle_fields s = X -> oracle_fields (wr b i x s) = X.
Proof. done. Qed.

Lemma oracle_fields_for_loop_to lo hi (body : nat -> State -> State) s X :
  (forall i a, oracle_fields (body i a) = oracle_fields a) ->
  oracle_fields s = X -> oracle_fields (for_loop lo hi body s) = X.
Proof. intros H <-. by apply for_loop_oracle_fields. Qed.

Ltac oracle_tac :=
  cbv beta zeta;
  repeat first
    [ reflexivity
    | assumption
    | apply oracle_fields_wr_to
    | apply oracle_fields_for_loop_to; [ intros ? ?; cbv beta zeta | ]
    | match goal with
      | |- oracle_fields (if ?c then _ else _) = _ => destruct c
      end ].

Lemma computeFirstDerivatives_oracle_fields dqdt dpdt dydt q_eq q v p y s :
  oracle_fields (computeFirstDerivatives dqdt dpdt dydt q_eq q v p y s) = oracle_fields s.
Proof.
  unfold computeFirstDerivatives, lastGridpoint, middleGridpoints, firstGridpoint.
  oracle_tac.
Qed.

Lemma SSP_RK_update_oracle_fields g dqdt dpdt dydt s :
  oracle_fields (SSP_RK_update g dqdt dpdt dydt s) = oracle_fields s.
Proof. unfold SSP_RK_update, SSP_RK_update_node, SSP_RK_update_cell. oracle_tac. Qed.

Lemma computeVelocity_oracle_fields T_g s :
  oracle_fields (computeVelocity T_g s) = oracle_fields s.
Proof. unfold computeVelocity. oracle_tac. Qed.

Lemma oracle_fields_cache s s' : oracle_fields s' = oracle_fields s -> cache s' = cache s.
Proof. by intros [= _ _ -> _]. Qed.

Lemma computeEquilibriumLoadings_cache_length s s' :
  computeEquilibriumLoadings s = Ok s' -> length (cache s') = length (cache s).
Proof.
  unfold computeEquilibriumLoadings. cbv zeta. case_match; [done|]. intros [= <-].
  apply (for_loop_ind (fun a => length (cache a) = length (cache s))); [done|].
  intros i a _ Ha.
  rewrite (oracle_fields_cache (record_prediction i _ a)) by oracle_tac.
  simpl. by rewrite length_insert.
Qed.

(** The states a completed step goes through. *)
Lemma computeStep_stages step s s' :
  computeStep step s = Ok s' ->
  exists F1 u1 e1 F2 u2 e2 F3 u3 e3,
    F1 = computeFirstDerivatives Dqdt Dpdt Dydt Qeq Q V P Yi (autoStepsCheck step s) /\
    u1 = SSP_RK_update1 F1 /\
    computeEquilibriumLoadings u1 = Ok e1 /\
    F2 = computeFirstDerivatives Dqdtnew Dpdtnew Dydtnew Qeqnew Qnew Vnew Ptnew Yinew
           (computeVelocity (T prm) e1) /\
    u2 = SSP_RK_update2 F2 /\
    computeEquilibriumLoadings u2 = Ok e2 /\
    F3 = computeFirstDerivatives Dqdtnew Dpdtnew Dydtnew Qeqnew Qnew Vnew Ptnew Yinew
           (computeVelocity (T prm) e2) /\
    u3 = SSP_RK_update3 F3 /\
    computeEquilibriumLoadings u3 = Ok e3 /\
    s' = pulseBoundaryCondition (of_size_t step * dt prm)%float
           (commit (computeVelocity (T prm) e3)).
Proof.
  unfold computeStep, SSP_RK, SSP_RK_stage1, SSP_RK_stage2, SSP_RK_stage3. cbv zeta.
  intros E.
  destruct (computeEquilibriumLoadings _) as [e1|] eqn:E1 in E; [|done]. simpl in E.
  destruct (computeEquilibriumLoadings _) as [e2|] eqn:E2 in E; [|done]. simpl in E.
  destruct (computeEquilibriumLoadings _) as [e3|] eqn:E3 in E; [|done]. simpl in E.
  injection E as <-.
  by eexists _, _, e1, _, _, e2, _, _, e3.
Qed.

(** The frames of the states of [computeStep_stages]. *)
Lemma stage_frames s0 F1 u1 e1 F2 u2 e2 F3 u3 e3 :
  F1 = computeFirstDerivatives Dqdt Dpdt Dydt Qeq Q V P Yi s0 ->
  u1 = SSP_RK_update1 F1 ->
  computeEquilibriumLoadings u1 = Ok e1 ->
  F2 = computeFirstDerivatives Dqdtnew Dpdtnew Dydtnew Qeqnew Qnew Vnew Ptnew Yinew
         (computeVelocity (T prm) e1) ->
  u2 = SSP_RK_update2 F2 ->
  computeEquilibriumLoadings u2 = Ok e2 ->
  F3 = computeFirstDerivatives Dqdtnew Dpdtnew Dydtnew Qeqnew Qnew Vnew Ptnew Yinew
         (computeVelocity (T prm) e2) ->
  u3 = SSP_RK_update3 F3 ->
  computeEquilibriumLoadings u3 = Ok e3 ->
  modifies staging s0 F1 /\ modifies staging s0 u1 /\
  modifies between_stages u1 F2 /\ modifies staging s0 u2 /\
  modifies between_stages u2 F3 /\ modifies staging s0 u3 /\
  modifies (fun b _ => b = Qeqnew) u3 e3 /\
  modifies staging s0 (computeVelocity (T prm) e3).
Proof.
  intros -> -> E1 -> -> E2 -> -> E3.
  set (F1 := computeFirstDerivatives Dqdt Dpdt Dydt Qeq Q V P Yi s0) in *.
  assert (MF1 : modifies staging s0 F1) by (subst F1; staging_tac).
  assert (Mu1 : modifies staging s0 (SSP_RK_update1 F1)).
  { eapply modifies_trans; [exact MF1|apply SSP_RK_update_staging]. }
  pose proof (restage_modifies _ _ E1) as R2.
  assert (Mu2 : modifies staging s0 (SSP_RK_update2
            (computeFirstDerivatives Dqdtnew Dpdtnew Dydtnew Qeqnew Qnew Vnew Ptnew Yinew
               (computeVelocity (T prm) e1)))).
  { eapply modifies_trans; [|apply SSP_RK_update_staging].
    eapply modifies_trans; [exact Mu1|by apply between_stages_staging]. }
  pose proof (restage_modifies _ _ E2) as R3.
  assert (Mu3 : modifies staging s0 (SSP_RK_update3
            (computeFirstDerivatives Dqdtnew Dpdtnew Dydtnew Qeqnew Qnew Vnew Ptnew Yinew
               (computeVelocity (T prm) e2)))).
  { eapply modifies_trans; [|apply SSP_RK_update_staging].
    eapply modifies_trans; [exact Mu2|by apply between_stages_staging]. }
  pose proof (computeEquilibriumLoadings_modifies _ _ E3) as M3.
  refine (conj MF1 (conj Mu1 (conj R2 (conj Mu2 (conj R3 (conj Mu3 (conj M3 _))))))).
  eapply modifies_trans; [exact Mu3|].
  eapply modifies_trans; [by apply computeEquilibriumLoadings_staging|].
  apply computeVelocity_staging.
Qed.


Lemma SSP_RK_cache_length s s' :
  SSP_RK s = Ok s' -> length (cache s') = length (cache s).
Proof.
  unfold SSP_RK, SSP_RK_stage1, SSP_RK_stage2, SSP_RK_stage3. cbv zeta. intros E.
  destruct (computeEquilibriumLoadings _) as [e1|] eqn:E1 in E; [|done]. simpl in E.
  destruct (computeEquilibriumLoadings _) as [e2|] eqn:E2 in E; [|done]. simpl in E.
  destruct (computeEquilibriumLoadings _) as [e3|] eqn:E3 in E; [|done]. simpl in E.
  injection E as <-.
  apply computeEquilibriumLoadings_cache_length in E1, E2, E3.
  change (cache (commit (computeVelocity (T prm) e3)))
    with (cache (computeVelocity (T prm) e3)).
  rewrite (oracle_fields_cache _ _ (computeVelocity_oracle_fields _ e3)), E3.
  unfold SSP_RK_update3.
  rewrite (oracle_fields_cache _ _ (SSP_RK_update_oracle_fields _ _ _ _ _)).
  rewrite (oracle_fields_cache _ _ (computeFirstDerivatives_oracle_fields _ _ _ _ _ _ _ _ _)).
  rewrite (oracle_fields_cache _ _ (computeVelocity_oracle_fields _ e2)), E2.
  unfold SSP_RK_update2.
  rewrite (oracle_fields_cache _ _ (SSP_RK_update_oracle_fields _ _ _ _ _)).
  rewrite (oracle_fields_cache _ _ (computeFirstDerivatives_oracle_fields _ _ _ _ _ _ _ _ _)).
  rewrite (oracle_fields_cache _ _ (computeVelocity_oracle_fields _ e1)), E1.
  unfold SSP_RK_update1.
  rewrite (oracle_fields_cache _ _ (SSP_RK_update_oracle_fields _ _ _ _ _)).
  by rewrite (oracle_fields_cache _ _ (computeFirstDerivatives_oracle_fields _ _ _ _ _ _ _ _ _)).
Qed.

Lemma commit_length s b :
  (forall b, length (vec s b) = size b) -> length (vec (commit s) b) = size b.
Proof. intros H. destruct b; simpl; try apply H; by rewrite H. Qed.

Lemma computeStep_wf step s s' : wf s -> computeStep step s = Ok s' -> wf s'.
Proof.
  intros [HG Hs Hc] E. unfold computeStep in E. cbv zeta in E.
  pose proof (SSP_RK_cases (autoStepsCheck step s)) as C.
  destruct (SSP_RK (autoStepsCheck step s)) as [sc|] eqn:ER; [|done].
  simpl in E. injection E as <-.
  destruct C as [_ (s3 & M3 & ->)].
  pose proof (pulseBoundaryCondition_modifies (of_size_t step * dt prm)%float (commit s3))
    as [Hl _ _ _].
  split; [done| |].
  - intros b. rewrite Hl. apply commit_length.
    apply (modifies_size _ _ _ M3). intros b'. by rewrite autoStepsCheck_vec.
  - rewrite (oracle_fields_cache _ _ (pulseBoundaryCondition_oracle_fields _ _)).
    rewrite (SSP_RK_cache_length _ _ ER). unfold autoStepsCheck.
    by repeat case_match.
Qed.

(** X1: the outcome of a step tells the test of line 626 on the state the
    step was called on, whatever the step number: a step that returns was
    called on a state where [Pt[0] + dptdx * L < 0.0] is false, and a step
    that throws the negative-outlet-pressure error was called on a state
    where it is true.  The test is made in each of the three calls of
    [computeEquilibriumLoadings], every time on the value [Pt[0]] had when
    the step was called, since no stage writes [Pt] before the commit.
    Whether a step returns at all is not stated: that also depends on the
    oracle. *)
Theorem computeStep_outcome_tells_pressure_check step s :
  (forall s', computeStep step s = Ok s' -> pressureCheck s = false) /\
  (computeStep step s = Throw runtime_error_negative_outlet_pressure ->
   pressureCheck s = true).
Proof.
  split.
  - intros s' E. destruct (pressureCheck s) eqn:H; [|done].
    apply (computeStep_throws_iff step) in H. congruence.
  - apply computeStep_throws_iff.
Qed.

(** X2: a completed step keeps the sizes the constructor gave to the
    nineteen vectors of doubles that [computeStep] indexes ([prefactor];
    [Yi], [V], [Pt], [P], [Q], [Qeq] and their [new] copies; the six
    derivative vectors) and the number of per-node cache slices, on a grid of
    at least one interval: the next step indexes vectors of the sizes it
    expects.  The vectors [Xi] and [Ni] and the contents of the cache slices
    are what the oracle left; their sizes are not part of [wf]. *)
Theorem computeStep_keeps_sizes step s s' :
  wf s -> computeStep step s = Ok s' -> wf s'.
Proof. apply computeStep_wf. Qed.

Lemma stage3_sizes s0 F3 u2 :
  (forall b, length (vec s0 b) = size b) ->
  modifies staging s0 u2 -> modifies between_stages u2 F3 ->
  forall b, length (vec F3 b) = size b.
Proof.
  intros Hs M2 R3. apply (modifies_size _ _ _ R3), (modifies_size _ _ _ M2), Hs.
Qed.

(** X3: when a step completes, the partial pressures it commits are the
    products of the committed mole fractions and total pressures,
    [P[i*Ncomp+j] = Yi[i*Ncomp+j] * Pt[i]], exactly: at every node when the
    pulse boundary condition does not fire, and at every node but the inlet
    when it does. *)
Theorem computeStep_reconstructs_partial_pressures step s s' i j :
  wf s ->
  computeStep step s = Ok s' ->
  i <= G -> j < N ->
  1 <= i \/ pulse prm = false \/ (tpulse prm <? of_size_t step * dt prm)%float = false ->
  s'.[P, i * N + j] = (s'.[Yi, i * N + j] * s'.[Pt, i])%float.
Proof.
  intros [HG Hs Hc] E Hi Hj Hcase.
  destruct (computeStep_stages _ _ _ E)
    as (F1 & u1 & e1 & F2 & u2 & e2 & F3 & u3 & e3 & EF1 & Eu1 & E1 & EF2 & Eu2 & E2 &
        EF3 & Eu3 & E3 & ->).
  destruct (stage_frames _ _ _ _ _ _ _ _ _ _ EF1 Eu1 E1 EF2 Eu2 E2 EF3 Eu3 E3)
    as (MF1 & Mu1 & R2 & Mu2 & R3 & Mu3 & M3 & Mv3).
  assert (Hs0 : forall b, length (vec (autoStepsCheck step s) b) = size b)
    by (intros b; by rewrite autoStepsCheck_vec).
  pose proof (stage3_sizes _ _ _ Hs0 Mu2 R3) as HF3.
  assert (Hd : Forall (fun b => b <> Ptnew /\ b <> Qnew /\ b <> Yinew /\ b <> Pnew)
                 [Dqdtnew; Dpdtnew; Dydtnew]) by (repeat constructor; done).
  destruct (SSP_RK_update_spec
              (fun u w d => (1 / 3) * u + (2 / 3) * w + (2 / 3) * dt prm * d)%float
              _ _ _ Hd F3 i HF3 Hi) as [_ HC].
  destruct (HC j Hj) as (_ & _ & HP). fold (SSP_RK_update3 F3) in HP. rewrite <- Eu3 in HP.
  set (v3 := computeVelocity (T prm) e3) in *.
  assert (K : forall b, b = Pnew \/ b = Yinew \/ b = Ptnew -> vec v3 b = vec u3 b).
  { intros b Hb. subst v3.
    rewrite (modifies_vec _ _ _ b (computeVelocity_modifies (T prm) e3))
      by (intros _ ->; drop_params; intuition discriminate).
    apply (modifies_vec _ _ _ b M3). intros _ ->. drop_params; intuition discriminate. }
  set (t := (of_size_t step * dt prm)%float).
  rewrite (pulseBoundaryCondition_keeps t (commit v3) Yi) by done.
  rewrite (pulseBoundaryCondition_keeps t (commit v3) Pt) by done.
  assert (EP : (pulseBoundaryCondition t (commit v3)).[P, i * N + j] =
               (commit v3).[P, i * N + j]).
  { destruct Hcase as [H1|[Hp|Ht]].
    - apply (modifies_rd _ _ _ _ _ (pulseBoundaryCondition_modifies t (commit v3))).
      + intros [_ ?]. nia.
      + change (vec (commit v3) P) with (vec v3 Pnew). rewrite (K Pnew) by taut.
        rewrite (modifies_size _ _ _ Mu3 Hs0). simpl. nia.
    - unfold pulseBoundaryCondition. by rewrite Hp.
    - unfold pulseBoundaryCondition, t. rewrite Ht. by destruct (pulse prm). }
  rewrite EP.
  change (vec (commit v3) P) with (vec v3 Pnew).
  change (vec (commit v3) Yi) with (vec v3 Yinew).
  change (vec (commit v3) Pt) with (vec v3 Ptnew).
  rewrite (K Pnew), (K Yinew), (K Ptnew) by taut. exact HP.
Qed.

(** X4: the velocity a completed step commits is computed from the total
    pressures of the state the step started from: [V[0] = v_in], and at
    every node [i >= 1] [V[i]] is the root that [computeVelocity] takes for
    [Pt[i]] and [Pt[i-1]] as they were when the step was called, not as the
    step commits them. *)
Theorem computeStep_velocity_of_entry_pressures step s s' :
  wf s ->
  computeStep step s = Ok s' ->
  s'.[V, 0] = v_in prm /\
  forall i, 1 <= i <= G ->
    s'.[V, i] = Ergun_velocity (T prm) s.[Pt, i] s.[Pt, i - 1].
Proof.
  intros [HG Hs Hc] E.
  destruct (computeStep_stages _ _ _ E)
    as (F1 & u1 & e1 & F2 & u2 & e2 & F3 & u3 & e3 & EF1 & Eu1 & E1 & EF2 & Eu2 & E2 &
        EF3 & Eu3 & E3 & ->).
  destruct (stage_frames _ _ _ _ _ _ _ _ _ _ EF1 Eu1 E1 EF2 Eu2 E2 EF3 Eu3 E3)
    as (MF1 & Mu1 & R2 & Mu2 & R3 & Mu3 & M3 & Mv3).
  assert (Hs0 : forall b, length (vec (autoStepsCheck step s) b) = size b)
    by (intros b; by rewrite autoStepsCheck_vec).
  assert (Me3 : modifies staging (autoStepsCheck step s) e3).
  { eapply modifies_trans; [exact Mu3|]. by apply computeEquilibriumLoadings_staging. }
  assert (HPt : vec e3 Pt = vec s Pt).
  { rewrite (staging_keeps _ _ Pt Me3) by taut. by rewrite autoStepsCheck_vec. }
  rewrite pulseBoundaryCondition_keeps by done.
  change (vec (commit (computeVelocity (T prm) e3)) V)
    with (vec (computeVelocity (T prm) e3) Vnew).
  destruct (computeVelocity_Vnew (T prm) e3 HG) as [H0 Hi].
  { rewrite (modifies_size _ _ _ Me3 Hs0). simpl. lia. }
  split; [exact H0|]. intros i Hi'. rewrite Hi by done. by rewrite HPt.
Qed.

(** ** The derivative vectors over a step *)

Lemma for_loop_commute {A} (h : A -> A) lo hi (body : nat -> A -> A) a :
  (forall i x, body i (h x) = h (body i x)) ->
  for_loop lo hi body (h a) = h (for_loop lo hi body a).
Proof.
  intros H. unfold for_loop. generalize (seq lo (hi - lo)). intros l. revert a.
  induction l as [|k l IH]; intros a; simpl; [done|]. by rewrite H, IH.
Qed.

(** [computeFirstDerivatives] reads the vectors only: the counters
    [Nsteps] and [autoSteps] pass through it. *)
Lemma computeFirstDerivatives_counters dqdt dpdt dydt q_eq q v p y n a s :
  computeFirstDerivatives dqdt dpdt dydt q_eq q v p y (set_autoSteps a (set_Nsteps n s)) =
  set_autoSteps a (set_Nsteps n (computeFirstDerivatives dqdt dpdt dydt q_eq q v p y s)).
Proof.
  set (h := fun s => set_autoSteps a (set_Nsteps n s)).
  change (computeFirstDerivatives dqdt dpdt dydt q_eq q v p y (h s) =
          h (computeFirstDerivatives dqdt dpdt dydt q_eq q v p y s)).
  unfold computeFirstDerivatives. cbv zeta.
  assert (H1 : firstGridpoint dqdt dpdt dydt q_eq q v p (h s) =
               h (firstGridpoint dqdt dpdt dydt q_eq q v p s)).
  { unfold firstGridpoint. by apply for_loop_commute. }
  rewrite H1.
  assert (H2 : forall x, middleGridpoints dqdt dpdt dydt q_eq q v p y (h x) =
                         h (middleGridpoints dqdt dpdt dydt q_eq q v p y x)).
  { intros x. unfold middleGridpoints. apply for_loop_commute.
    intros i x'. cbv zeta. by rewrite (for_loop_commute h). }
  rewrite H2.
  unfold lastGridpoint. cbv zeta. by rewrite (for_loop_commute h).
Qed.

Lemma computeFirstDerivatives_autoStepsCheck dqdt dpdt dydt q_eq q v p y step s :
  vec (computeFirstDerivatives dqdt dpdt dydt q_eq q v p y (autoStepsCheck step s)) =
  vec (computeFirstDerivatives dqdt dpdt dydt q_eq q v p y s).
Proof.
  unfold autoStepsCheck. repeat case_match; try done.
  by rewrite computeFirstDerivatives_counters.
Qed.

(** After the derivatives of stage 1 are taken, nothing in the step writes
    [Dqdt], [Dpdt] or [Dydt]. *)
Lemma computeStep_derivatives step s s' b :
  computeStep step s = Ok s' ->
  b = Dqdt \/ b = Dpdt \/ b = Dydt ->
  vec s' b = vec (computeFirstDerivatives Dqdt Dpdt Dydt Qeq Q V P Yi s) b.
Proof.
  intros E Hb.
  destruct (computeStep_stages _ _ _ E)
    as (F1 & u1 & e1 & F2 & u2 & e2 & F3 & u3 & e3 & EF1 & Eu1 & E1 & EF2 & Eu2 & E2 &
        EF3 & Eu3 & E3 & ->).
  destruct (stage_frames _ _ _ _ _ _ _ _ _ _ EF1 Eu1 E1 EF2 Eu2 E2 EF3 Eu3 E3)
    as (MF1 & Mu1 & R2 & Mu2 & R3 & Mu3 & M3 & Mv3).
  rewrite <- (computeFirstDerivatives_autoStepsCheck _ _ _ _ _ _ _ _ step s), <- EF1.
  rewrite pulseBoundaryCondition_keeps by (destruct Hb as [-> | [-> | ->]]; done).
  set (later := fun (b : Buf) (_ : nat) => b <> Dqdt /\ b <> Dpdt /\ b <> Dydt).
  assert (Hu : forall g dq dp dy x, modifies later x (SSP_RK_update g dq dp dy x)).
  { intros. eapply modifies_weaken; [|apply SSP_RK_update_modifies].
    intros b' k. unfold later. drop_params. intuition (subst; discriminate). }
  assert (Hr : forall x x', modifies between_stages x x' -> modifies later x x').
  { intros x x'. apply modifies_weaken. intros [] k; simpl; unfold later; try done;
      drop_params; intuition discriminate. }
  assert (M : modifies later F1 (computeVelocity (T prm) e3)).
  { apply (modifies_trans _ _ u1); [rewrite Eu1; apply Hu|].
    apply (modifies_trans _ _ F2); [apply Hr, R2|].
    apply (modifies_trans _ _ u2); [rewrite Eu2; apply Hu|].
    apply (modifies_trans _ _ F3); [apply Hr, R3|].
    apply (modifies_trans _ _ u3); [rewrite Eu3; apply Hu|].
    apply (modifies_trans _ _ e3).
    - eapply modifies_weaken; [|exact M3]. intros b' k ->. by unfold later.
    - eapply modifies_weaken; [|apply computeVelocity_modifies].
      intros b' k ->. by unfold later. }
  transitivity (vec (computeVelocity (T prm) e3) b).
  { destruct Hb as [-> | [-> | ->]]; done. }
  apply (modifies_vec _ _ _ _ M). intros k. unfold later.
  drop_params. intuition congruence.
Qed.

(** X5: the vectors [Dqdt], [Dpdt] and [Dydt] that a completed step leaves
    behind, and that [run] writes to the output, are the derivatives of
    stage 1: those [computeFirstDerivatives] takes on the state the step was
    called on, with [P] in the place of the pressure argument. *)
Theorem computeStep_keeps_stage1_derivatives step s s' :
  computeStep step s = Ok s' ->
  let F1 := computeFirstDerivatives Dqdt Dpdt Dydt Qeq Q V P Yi s in
  vec s' Dqdt = vec F1 Dqdt /\ vec s' Dpdt = vec F1 Dpdt /\ vec s' Dydt = vec F1 Dydt.
Proof.
  intros E. cbv zeta.
  split; [|split]; apply (computeStep_derivatives step); (done || taut).
Qed.

(** [computeFirstDerivatives] writes [dpdt] at the indices [0 .. Ngrid]
    only, one per node. *)
Lemma computeFirstDerivatives_dpdt_nodes dqdt dpdt dydt q_eq q v p y s :
  modifies (fun b k => b = dqdt \/ b = dydt \/ (b = dpdt /\ k <= G)) s
           (computeFirstDerivatives dqdt dpdt dydt q_eq q v p y s).
Proof.
  unfold computeFirstDerivatives, lastGridpoint, middleGridpoints, firstGridpoint.
  modifies_tac.
Qed.

(** X6: a completed step never changes [prefactor], and never writes
    [Dpdt] above the index [Ngrid], although the constructor gives [Dpdt]
    [(Ngrid + 1) * Ncomp] entries and [run] writes [Dpdt[i*Ncomp+j]] to the
    output for every node and component. *)
Theorem computeStep_never_writes step s s' :
  computeStep step s = Ok s' ->
  vec s' prefactor = vec s prefactor /\
  forall k, G < k -> vec s' Dpdt !! k = vec s Dpdt !! k.
Proof.
  intros E. split.
  - unfold computeStep in E. cbv zeta in E.
    pose proof (SSP_RK_cases (autoStepsCheck step s)) as C.
    destruct (SSP_RK (autoStepsCheck step s)) as [sc|]; [|done].
    simpl in E. injection E as <-. destruct C as [_ (s3 & M3 & ->)].
    rewrite pulseBoundaryCondition_keeps by done.
    change (vec (commit s3) prefactor) with (vec s3 prefactor).
    rewrite (modifies_vec _ _ _ prefactor M3) by (intros k; exact (fun H => H)).
    by rewrite autoStepsCheck_vec.
  - intros k Hk. rewrite (computeStep_derivatives step s s' Dpdt E) by taut.
    apply (modifies_lookup _ _ _ (computeFirstDerivatives_dpdt_nodes _ _ _ _ _ _ _ _ s)).
    intros [?|[?|[_ ?]]]; (discriminate || lia).
Qed.

(** X7: [computeVelocity] fixes the inlet velocity at [v_in], gives every
    other node the root [(-b + sqrt(b^2 - 4ac)) / 2a] for the committed
    total pressures [Pt[i]] and [Pt[i-1]] (it does not read [Ptnew]), and
    changes nothing but [Vnew]. *)
Theorem computeVelocity_writes_Vnew_only T_g s :
  1 <= G -> G < length (vec s Vnew) ->
  (computeVelocity T_g s).[Vnew, 0] = v_in prm /\
  (forall i, 1 <= i <= G ->
     (computeVelocity T_g s).[Vnew, i] = Ergun_velocity T_g s.[Pt, i] s.[Pt, i - 1]) /\
  (forall b, b <> Vnew -> vec (computeVelocity T_g s) b = vec s b) /\
  length (vec (computeVelocity T_g s) Vnew) = length (vec s Vnew) /\
  oracle_fields (computeVelocity T_g s) = oracle_fields s.
Proof.
  intros HG Hlen. destruct (computeVelocity_Vnew T_g s HG Hlen) as [H0 Hi].
  refine (conj H0 (conj Hi (conj _ (conj _ _)))).
  - intros b Hb. by apply (modifies_vec _ _ _ _ (computeVelocity_modifies T_g s)).
  - apply (computeVelocity_modifies T_g s).
  - apply computeVelocity_oracle_fields.
Qed.

(** ** Loops that write one cell per iteration *)

Lemma for_loop_union (Fk : nat -> Footprint) lo n (body : nat -> State -> State) s :
  (forall k a, lo <= k < n -> modifies (Fk k) a (body k a)) ->
  modifies (fun b c => exists k, lo <= k < n /\ Fk k b c) s (for_loop lo n body s).
Proof.
  intros H. apply modifies_for_loop; [apply modifies_refl|].
  intros k a Hk Ma. eapply modifies_trans; [exact Ma|].
  eapply modifies_weaken; [|by apply H]. intros b c HF. by exists k.
Qed.

(** A loop whose iteration [k] writes within [Fk k], leaves in the cell
    [idx k] of [b] a value [val k] that depends on the unwritten vectors
    only, and whose later iterations do not come back to that cell. *)
Lemma for_loop_tracks (O : Footprint) (Fk : nat -> Footprint) b (idx : nat -> nat)
    (val : nat -> State -> float) lo n (body : nat -> State -> State) s :
  (forall k a, lo <= k < n -> modifies O s a -> modifies (Fk k) a (body k a)) ->
  (forall k b' c, lo <= k < n -> Fk k b' c -> O b' c) ->
  (forall k a, lo <= k < n -> modifies O s a -> (body k a).[b, idx k] = val k a) ->
  (forall k a, lo <= k < n -> modifies O s a -> val k a = val k s) ->
  (forall k k', lo <= k < k' -> k' < n -> ~ Fk k' b (idx k)) ->
  (forall k, lo <= k < n -> idx k < length (vec s b)) ->
  modifies (fun b' c => exists k, lo <= k < n /\ Fk k b' c) s (for_loop lo n body s) /\
  forall k, lo <= k < n -> (for_loop lo n body s).[b, idx k] = val k s.
Proof.
  induction n as [|n IH]; intros Hm HO Hv Hin Hlater Hlen.
  - rewrite for_loop_nil by lia. split; [apply modifies_refl|lia].
  - destruct (decide (lo <= n)) as [Hlo|Hlo].
    2:{ rewrite for_loop_nil by lia. split; [apply modifies_refl|lia]. }
    rewrite for_loop_S by lia.
    destruct IH as [Ma Hr].
    { intros; apply Hm; [lia|done]. } { intros k b' c ?; apply HO; lia. }
    { intros; apply Hv; [lia|done]. } { intros; apply Hin; [lia|done]. }
    { intros; apply Hlater; lia. } { intros; apply Hlen; lia. }
    set (a := for_loop lo n body s) in *.
    assert (MO : modifies O s a).
    { eapply modifies_weaken; [|exact Ma]. intros b' c (k & Hk & HF). by apply (HO k); [lia|]. }
    pose proof (Hm n a ltac:(lia) MO) as Mn.
    split.
    + eapply modifies_trans.
      * eapply modifies_weaken; [|exact Ma].
        intros b' c (k & Hk & HF). exists k. split; [lia|done].
      * eapply modifies_weaken; [|exact Mn]. intros b' c HF. exists n. split; [lia|done].
    + intros k Hk. destruct (decide (k = n)) as [->|Hne].
      * rewrite Hv by (done || lia). apply Hin; [lia|done].
      * rewrite (modifies_rd _ _ _ _ _ Mn).
        -- apply Hr. lia.
        -- apply Hlater; lia.
        -- destruct MO as [Hl _ _ _]. rewrite Hl. apply Hlen. lia.
Qed.

(** ** [computeFirstDerivatives], cell by cell *)

Section FirstDerivativesCells.

Variables dqdt dpdt dydt q_eq q v p y : Buf.
Hypothesis Hna : no_alias dqdt dpdt dydt q_eq q v p.
Hypothesis Hqy : dqdt <> dydt.

Local Abbreviation outs := (fun (b : Buf) (_ : nat) => b = dqdt \/ b = dpdt \/ b = dydt).

Lemma outs_keep s s' b :
  modifies outs s s' -> b ∈ [q_eq; q; v; p; prefactor] -> vec s' b = vec s b.
Proof. apply (outputs_keep_inputs dqdt dpdt dydt q_eq q v p Hna). Qed.

Ltac inputs_tac :=
  repeat match goal with
  | M : modifies _ ?s ?a |- context [vec ?a ?b] =>
      rewrite (outs_keep s a b M) by (rewrite !elem_of_cons; taut)
  end.

Lemma LDF_rate_inputs s a i j :
  modifies outs s a -> LDF_rate q_eq q a i j = LDF_rate q_eq q s i j.
Proof. intros M. unfold LDF_rate. by inputs_tac. Qed.

Lemma dpdt_at_inputs s a i j :
  modifies outs s a -> dpdt_at q_eq q v p a i j = dpdt_at q_eq q v p s i j.
Proof. intros M. unfold dpdt_at. by inputs_tac. Qed.

Lemma derivative_cell_outs i j b c : derivative_cell dqdt dpdt dydt i j b c -> outs b c.
Proof. unfold derivative_cell. taut. Qed.

Lemma derivative_cell_node i j b c :
  j < N -> derivative_cell dqdt dpdt dydt i j b c -> derivative_node dqdt dpdt dydt i b c.
Proof.
  unfold derivative_cell, derivative_node. intros Hj [[-> ->]|[[-> ->]|[-> ->]]].
  - left. split; [by left|lia].
  - by right.
  - left. split; [by right|lia].
Qed.

Lemma derivative_node_outs i b c : derivative_node dqdt dpdt dydt i b c -> outs b c.
Proof. unfold derivative_node. taut. Qed.

(** The loop over the components at node [i], whatever is written to
    [dpdt[i]] and [dydt[i*Ncomp+j]]. *)
Lemma node_loop_dqdt i (body : nat -> State -> State) a0 :
  (forall j a, exists x y,
     body j a = wr dydt (i * N + j) y (wr dpdt i x
                  (wr dqdt (i * N + j) (LDF_rate q_eq q a i j) a))) ->
  i * N + N <= length (vec a0 dqdt) ->
  modifies (derivative_node dqdt dpdt dydt i) a0 (for_loop 0 N body a0) /\
  forall j, j < N -> (for_loop 0 N body a0).[dqdt, i * N + j] = LDF_rate q_eq q a0 i j.
Proof.
  intros Hbody Hlen.
  destruct (for_loop_tracks outs (derivative_cell dqdt dpdt dydt i) dqdt
              (fun j => i * N + j) (fun j a => LDF_rate q_eq q a i j) 0 N body a0)
    as [M Hv].
  - intros j a Hj Ma. destruct (Hbody j a) as (x & y' & ->).
    unfold derivative_cell. modifies_tac.
  - intros j b c _. apply derivative_cell_outs.
  - intros j a Hj Ma. destruct (Hbody j a) as (x & y' & ->).
    destruct Hna as (Hpq & Hpy & _).
    rewrite rd_wr_buf by congruence. rewrite rd_wr_buf by congruence.
    rewrite rd_wr_eq; [done|]. destruct Ma as [Hl _ _ _]. rewrite Hl. lia.
  - intros j a _ Ma. by apply LDF_rate_inputs.
  - intros j j' Hlt Hj'. unfold derivative_cell. destruct Hna as (Hpq & Hpy & _).
    intros [[_ ?]|[[? _]|[? _]]]; [lia|congruence|congruence].
  - intros j Hj. lia.
  - split; [|intros j Hj; apply Hv; lia].
    eapply modifies_weaken; [|exact M].
    intros b c (j & Hj & HF). apply (derivative_cell_node i j); [lia|done].
Qed.

(** The value left in [dpdt[i]] by the loop over the components at node
    [i] is the one of the last component. *)
Lemma node_loop_dpdt i (Pv : nat -> State -> float) (body : nat -> State -> State) a0 :
  (forall j a, exists x y,
     body j a = wr dydt (i * N + j) y (wr dpdt i (Pv j (wr dqdt (i * N + j) x a))
                  (wr dqdt (i * N + j) x a))) ->
  (forall j a a', modifies outs a a' -> Pv j a' = Pv j a) ->
  1 <= N -> i < length (vec a0 dpdt) ->
  (for_loop 0 N body a0).[dpdt, i] = Pv (N - 1) a0.
Proof.
  intros Hbody HP HN Hlen.
  rewrite (for_loop_last (A := State)) by done.
  set (a := for_loop 0 (N - 1) body a0).
  assert (Ma : modifies outs a0 a).
  { subst a. apply modifies_for_loop; [apply modifies_refl|].
    intros j x _ Mx. destruct (Hbody j x) as (x1 & y1 & ->). modifies_tac. }
  destruct (Hbody (N - 1) a) as (x & y' & ->).
  destruct Hna as (Hpq & Hpy & _).
  rewrite rd_wr_buf by congruence.
  rewrite rd_wr_eq by (rewrite length_wr; destruct Ma as [Hl _ _ _]; by rewrite Hl).
  rewrite (HP _ a); [by apply HP|].
  apply modifies_wr; [by left|apply modifies_refl].
Qed.

(** The inlet loop. *)
Lemma firstGridpoint_cells s :
  N <= length (vec s dqdt) -> N <= length (vec s dydt) ->
  let r := firstGridpoint dqdt dpdt dydt q_eq q v p s in
  modifies (derivative_node dqdt dpdt dydt 0) s r /\
  (forall j, j < N -> r.[dqdt, 0 * N + j] = LDF_rate q_eq q s 0 j) /\
  (forall j, j < N -> r.[dydt, 0 * N + j] = 0%float).
Proof.
  intros Hq Hy r. subst r. unfold firstGridpoint.
  assert (H0 : 0 * N + N <= length (vec s dqdt)) by (simpl; lia).
  match goal with |- context [for_loop 0 N ?body s] =>
    destruct (node_loop_dqdt 0 body s) as [M Hv];
      [intros j a; by eexists _, _|exact H0|];
    destruct (for_loop_tracks outs (derivative_cell dqdt dpdt dydt 0) dydt
                (fun j => 0 * N + j) (fun _ _ => 0%float) 0 N body s)
      as [_ Hz]
  end.
  - intros j a Hj Ma. unfold derivative_cell. modifies_tac.
  - intros j b c _. apply derivative_cell_outs.
  - intros j a Hj Ma. cbv beta zeta.
    rewrite rd_wr_eq; [done|]. rewrite !length_wr.
    destruct Ma as [Hl _ _ _]. rewrite Hl. lia.
  - done.
  - intros j j' Hlt Hj'. unfold derivative_cell. destruct Hna as (Hpq & Hpy & _).
    intros [[? _]|[[? _]|[_ ?]]]; [congruence|congruence|lia].
  - intros j Hj. lia.
  - split; [exact M|]. split; [exact Hv|]. intros j Hj. apply Hz. lia.
Qed.

(** The interior loop. *)
Lemma middleGridpoints_cells s :
  G * N <= length (vec s dqdt) -> G <= length (vec s dpdt) ->
  let r := middleGridpoints dqdt dpdt dydt q_eq q v p y s in
  modifies (fun b c => exists i, 1 <= i < G /\ derivative_node dqdt dpdt dydt i b c) s r /\
  (forall i j, 1 <= i < G -> j < N -> r.[dqdt, i * N + j] = LDF_rate q_eq q s i j) /\
  (1 <= N -> forall i, 1 <= i < G -> r.[dpdt, i] = dpdt_at q_eq q v p s i (N - 1)).
Proof.
  intros Hq Hp r. subst r. unfold middleGridpoints.
  match goal with |- context [for_loop 1 G ?body s] => set (outer := body) end.
  assert (Hnode : forall i a, 1 <= i < G -> modifies outs s a ->
            modifies (derivative_node dqdt dpdt dydt i) a (outer i a) /\
            (forall j, j < N -> (outer i a).[dqdt, i * N + j] = LDF_rate q_eq q a i j) /\
            (1 <= N -> (outer i a).[dpdt, i] = dpdt_at q_eq q v p a i (N - 1))).
  { intros i a Hi [Hl _ _ _]. subst outer. cbv beta zeta.
    match goal with |- context [for_loop 0 N ?body a] =>
      destruct (node_loop_dqdt i body a) as [M Hv];
        [intros j x; by eexists _, _|rewrite Hl; nia|];
      pose proof (node_loop_dpdt i (fun j x => dpdt_at q_eq q v p x i j) body a) as Hd
    end.
    refine (conj M (conj Hv _)). intros HN. apply Hd.
    - intros j x. by eexists _, _.
    - intros j x x' Mx. by apply dpdt_at_inputs.
    - done.
    - rewrite Hl. lia. }
  assert (Hframe : forall i a, 1 <= i < G ->
            modifies (derivative_node dqdt dpdt dydt i) a (outer i a)).
  { intros i a Hi. subst outer. unfold derivative_node. modifies_tac. }
  destruct Hna as (Hpq & Hpy & _).
  split; [|split].
  - by apply for_loop_union.
  - intros i j Hi Hj.
    destruct (for_loop_tracks outs (derivative_node dqdt dpdt dydt) dqdt
                (fun i => i * N + j) (fun i a => LDF_rate q_eq q a i j) 1 G outer s)
      as [_ Hv]; [| | | | | |by apply Hv].
    + intros k a Hk _. by apply Hframe.
    + intros k b c _. apply derivative_node_outs.
    + intros k a Hk Ma. by apply Hnode.
    + intros k a _ Ma. by apply LDF_rate_inputs.
    + intros k k' Hlt Hk'. unfold derivative_node.
      intros [[_ ?]|[? _]]; [nia|congruence].
    + intros k Hk. nia.
  - intros HN i Hi.
    destruct (for_loop_tracks outs (derivative_node dqdt dpdt dydt) dpdt
                (fun i => i) (fun i a => dpdt_at q_eq q v p a i (N - 1)) 1 G outer s)
      as [_ Hv]; [| | | | | |by apply Hv].
    + intros k a Hk _. by apply Hframe.
    + intros k b c _. apply derivative_node_outs.
    + intros k a Hk Ma. by apply Hnode.
    + intros k a _ Ma. by apply dpdt_at_inputs.
    + intros k k' Hlt Hk'. unfold derivative_node.
      intros [[[?|?] _]|[_ ?]]; [congruence|congruence|lia].
    + intros k Hk. lia.
Qed.

(** The outlet loop. *)
Lemma lastGridpoint_cells s :
  G * N + N <= length (vec s dqdt) ->
  let r := lastGridpoint dqdt dpdt dydt q_eq q v p y s in
  modifies (derivative_node dqdt dpdt dydt G) s r /\
  forall j, j < N -> r.[dqdt, G * N + j] = LDF_rate q_eq q s G j.
Proof.
  intros Hq r. subst r. unfold lastGridpoint. cbv zeta.
  match goal with |- context [for_loop 0 N ?body s] =>
    apply (node_loop_dqdt G body s); [intros j x; by eexists _, _|done]
  end.
Qed.

(** The three loops one after the other. *)
Lemma computeFirstDerivatives_cells s :
  (G + 1) * N <= length (vec s dqdt) ->
  (G + 1) * N <= length (vec s dydt) ->
  G < length (vec s dpdt) ->
  let r := computeFirstDerivatives dqdt dpdt dydt q_eq q v p y s in
  (forall i j, i <= G -> j < N -> r.[dqdt, i * N + j] = LDF_rate q_eq q s i j) /\
  (1 <= G -> forall j, j < N -> r.[dydt, 0 * N + j] = 0%float) /\
  (1 <= N -> forall i, 1 <= i < G -> r.[dpdt, i] = dpdt_at q_eq q v p s i (N - 1)).
Proof.
  intros Hq Hy Hp r. subst r. unfold computeFirstDerivatives. cbv zeta.
  destruct (firstGridpoint_cells s) as (M1 & Q1 & Y1); [nia..|].
  set (s1 := firstGridpoint dqdt dpdt dydt q_eq q v p s) in *.
  assert (O1 : modifies outs s s1)
    by (eapply modifies_weaken; [|exact M1]; exact (derivative_node_outs 0)).
  assert (L1 : forall b, length (vec s1 b) = length (vec s b)) by apply O1.
  destruct (middleGridpoints_cells s1) as (M2 & Q2 & P2); [rewrite L1; nia..|].
  set (s2 := middleGridpoints dqdt dpdt dydt q_eq q v p y s1) in *.
  assert (O2 : modifies outs s1 s2).
  { eapply modifies_weaken; [|exact M2]. intros b c (i & _ & HF).
    exact (derivative_node_outs i b c HF). }
  assert (L2 : forall b, length (vec s2 b) = length (vec s b))
    by (intros b; destruct O2 as [Hl _ _ _]; by rewrite Hl).
  destruct (lastGridpoint_cells s2) as (M3 & Q3); [rewrite L2; nia|].
  set (r := lastGridpoint dqdt dpdt dydt q_eq q v p y s2) in *.
  assert (O12 : modifies outs s s2) by eauto using modifies_trans.
  destruct Hna as (Hpq & Hpy & _).
  split; [|split].
  - intros i j Hi Hj. destruct (decide (i = G)) as [->|HiG].
    { rewrite Q3 by done. by apply LDF_rate_inputs. }
    rewrite (modifies_rd _ _ _ _ _ M3);
      [|unfold derivative_node; intros [[_ ?]|[? _]]; [nia|congruence]|rewrite L2; nia].
    destruct (decide (i = 0)) as [->|Hi0].
    + rewrite (modifies_rd _ _ _ _ _ M2); [by apply Q1| |rewrite L1; nia].
      unfold derivative_node. intros (i' & Hi' & [[_ ?]|[? _]]); [nia|congruence].
    + rewrite Q2 by (done || lia). by apply LDF_rate_inputs.
  - intros HG j Hj.
    rewrite (modifies_rd _ _ _ _ _ M3);
      [|unfold derivative_node; intros [[_ ?]|[? _]]; [nia|congruence]|rewrite L2; nia].
    rewrite (modifies_rd _ _ _ _ _ M2); [by apply Y1| |rewrite L1; nia].
    unfold derivative_node. intros (i' & Hi' & [[_ ?]|[? _]]); [nia|congruence].
  - intros HN i Hi.
    rewrite (modifies_rd _ _ _ _ _ M3);
      [|unfold derivative_node; intros [[[?|?] _]|[_ ?]]; [congruence|congruence|lia]
       |rewrite L2; lia].
    rewrite P2 by done. by apply dpdt_at_inputs.
Qed.


End FirstDerivativesCells.

(** X8: [computeFirstDerivatives] leaves in every cell of [dqdt] the
    linear driving force [Kl[j] * (q_eq[i*Ncomp+j] - q[i*Ncomp+j])] of the
    loadings it was called with, at every node and for every component. *)
Theorem computeFirstDerivatives_linear_driving_force dqdt dpdt dydt q_eq q v p y s i j :
  no_alias dqdt dpdt dydt q_eq q v p -> dqdt <> dydt ->
  (G + 1) * N <= length (vec s dqdt) ->
  (G + 1) * N <= length (vec s dydt) ->
  G < length (vec s dpdt) ->
  i <= G -> j < N ->
  (computeFirstDerivatives dqdt dpdt dydt q_eq q v p y s).[dqdt, i * N + j] =
  (Kl (component prm j) * (s.[q_eq, i * N + j] - s.[q, i * N + j]))%float.
Proof.
  intros Hna Hqy Hq Hy Hp Hi Hj.
  by apply (computeFirstDerivatives_cells dqdt dpdt dydt q_eq q v p y Hna Hqy s Hq Hy Hp).
Qed.

(** X9: on a grid of at least one interval, [computeFirstDerivatives]
    leaves the mole-fraction derivative of every component at the inlet node
    at exactly [0.0]. *)
Theorem computeFirstDerivatives_inlet_dydt_zero dqdt dpdt dydt q_eq q v p y s j :
  no_alias dqdt dpdt dydt q_eq q v p -> dqdt <> dydt ->
  (G + 1) * N <= length (vec s dqdt) ->
  (G + 1) * N <= length (vec s dydt) ->
  G < length (vec s dpdt) ->
  1 <= G -> j < N ->
  (computeFirstDerivatives dqdt dpdt dydt q_eq q v p y s).[dydt, 0 * N + j] = 0%float.
Proof.
  intros Hna Hqy Hq Hy Hp HG Hj.
  by apply (computeFirstDerivatives_cells dqdt dpdt dydt q_eq q v p y Hna Hqy s Hq Hy Hp).
Qed.

(** X10: at every interior node [i] the loop over the components
    overwrites [dpdt[i]] in each iteration, so the value
    [computeFirstDerivatives] returns holds the sorption term of the last
    component only:
    [- v[i]*(p[i+1]-p[i])/dx - p[i]*(v[i+1]-v[i])/dx
     - prefactor[Ncomp-1]*(q_eq[i*Ncomp+Ncomp-1] - q[i*Ncomp+Ncomp-1])]. *)
Theorem computeFirstDerivatives_interior_dpdt dqdt dpdt dydt q_eq q v p y s i :
  no_alias dqdt dpdt dydt q_eq q v p -> dqdt <> dydt ->
  (G + 1) * N <= length (vec s dqdt) ->
  (G + 1) * N <= length (vec s dydt) ->
  G < length (vec s dpdt) ->
  1 <= N -> 1 <= i < G ->
  (computeFirstDerivatives dqdt dpdt dydt q_eq q v p y s).[dpdt, i] =
  (- s.[v, i] * (s.[p, i + 1] - s.[p, i]) * idx
   - s.[p, i] * (s.[v, i + 1] - s.[v, i]) * idx
   - s.[prefactor, N - 1] * (s.[q_eq, i * N + (N - 1)] - s.[q, i * N + (N - 1)]))%float.
Proof.
  intros Hna Hqy Hq Hy Hp HN Hi.
  by apply (computeFirstDerivatives_cells dqdt dpdt dydt q_eq q v p y Hna Hqy s Hq Hy Hp).
Qed.

(** ** [computeInitialPressure] *)

Lemma for_down_S {A} n (body : nat -> A -> A) a :
  for_down (S n) 0 body a = for_down n 0 body (body (S n) a).
Proof.
  unfold for_down. replace (S n - 0) with (S (n - 0)) by lia.
  rewrite seq_S, rev_app_distr. simpl. by replace (n - 0) with n by lia.
Qed.

Lemma rd_list_ext (l l' : list float) i :
  i < length l -> l' !! i = l !! i -> rd l' i = rd l i.
Proof. apply rd_ext. Qed.

(** The backward sweep from node [n] down to node 1. *)
Lemma pressure_sweep T_g n (p : list float) :
  n < length p ->
  let r := for_down n 0 (fun i p =>
             <[(i - 1)%nat := (rd p i - pressure_slope T_g (rd p i) * dx prm)%float]> p) p in
  length r = length p /\
  (forall k, n <= k -> r !! k = p !! k) /\
  forall i, 1 <= i <= n ->
    rd r (i - 1) = (rd r i - pressure_slope T_g (rd r i) * dx prm)%float.
Proof.
  revert p. induction n as [|n IH]; intros p Hn; cbv zeta.
  - unfold for_down. simpl. split; [done|]. split; [done|]. lia.
  - rewrite for_down_S.
    set (p' := <[(S n - 1)%nat := (rd p (S n) - pressure_slope T_g (rd p (S n)) * dx prm)%float]> p).
    assert (Lp : length p' = length p) by (subst p'; by rewrite length_insert).
    destruct (IH p') as (Hl & Hge & Hrec); [lia|].
    set (r := for_down n 0 _ p') in *.
    split; [by rewrite Hl|]. split.
    + intros k Hk. rewrite Hge by lia. subst p'. apply list_lookup_insert_ne. lia.
    + intros i Hi. destruct (decide (i = S n)) as [->|Hne]; [|apply Hrec; lia].
      assert (E1 : rd r (S n) = rd p (S n)).
      { apply rd_ext; [lia|]. rewrite Hge by lia. subst p'.
        apply list_lookup_insert_ne. lia. }
      rewrite E1. apply rd_lookup. rewrite Hge by lia. subst p'.
      apply list_lookup_insert_eq. lia.
Qed.

Lemma computeInitialPressure_sweep (p : list float) T_g :
  length p = G + 1 ->
  let r := computeInitialPressure p T_g in
  length r = G + 1 /\
  rd r G = p_total prm /\
  forall i, 1 <= i <= G ->
    rd r (i - 1) = (rd r i - pressure_slope T_g (rd r i) * dx prm)%float.
Proof.
  intros Hp. unfold computeInitialPressure. cbv zeta.
  destruct (pressure_sweep T_g G (<[G := p_total prm]> p)) as (Hl & Hge & Hrec).
  { rewrite length_insert. lia. }
  match type of Hl with length ?X = _ => set (r := X) in * end.
  match goal with |- context [for_down G 0 ?b ?q] => change (for_down G 0 b q) with r end.
  split; [by rewrite Hl, length_insert|]. split; [|exact Hrec].
  apply rd_lookup. rewrite Hge by lia. apply list_lookup_insert_eq. lia.
Qed.

(** X11: [computeInitialPressure] fills a buffer of [Ngrid + 1] entries
    with the pressure profile of the backward sweep: the outlet entry is
    [p_total], and every entry below it is obtained from the entry above by
    one explicit Euler step, [p[i-1] = p[i] - f_p(p[i]) * dx], with the
    gradient [f_p] of lines 770-772. *)
Theorem computeInitialPressure_profile (p : list float) T_g :
  length p = G + 1 ->
  length (computeInitialPressure p T_g) = G + 1 /\
  rd (computeInitialPressure p T_g) G = p_total prm /\
  forall i, 1 <= i <= G ->
    rd (computeInitialPressure p T_g) (i - 1) =
    (rd (computeInitialPressure p T_g) i
     - pressure_slope T_g (rd (computeInitialPressure p T_g) i) * dx prm)%float.
Proof. apply computeInitialPressure_sweep. Qed.

(** X12: the profile does not depend on what the caller's buffer holds:
    [computeInitialPressure] overwrites every entry and reads none that it
    has not written. *)
Theorem computeInitialPressure_ignores_buffer (p p' : list float) T_g :
  length p = G + 1 -> length p' = G + 1 ->
  computeInitialPressure p T_g = computeInitialPressure p' T_g.
Proof.
  intros Hp Hp'.
  destruct (computeInitialPressure_sweep p T_g Hp) as (Hl & HG & Hrec).
  destruct (computeInitialPressure_sweep p' T_g Hp') as (Hl' & HG' & Hrec').
  set (r := computeInitialPressure p T_g) in *.
  set (r' := computeInitialPressure p' T_g) in *.
  assert (H : forall d k, k + d = G -> rd r k = rd r' k).
  { induction d as [|d IH]; intros k Hk.
    - replace k with G by lia. by rewrite HG, HG'.
    - replace k with (S k - 1) by lia. rewrite Hrec, Hrec' by lia.
      by rewrite (IH (S k)) by lia. }
  apply list_eq. intros k. destruct (decide (k <= G)) as [Hk|Hk].
  - rewrite (lookup_rd r k), (lookup_rd r' k) by lia. f_equal. apply (H (G - k)). lia.
  - rewrite !(proj2 (lookup_ge_None _ _)); [done|lia..].
Qed.

(** ** [initialize], phase by phase *)

Lemma total_pressure_loop i n a :
  i < length (vec a Pt) ->
  let r := for_loop 0 n (fun j s =>
             wr Pt i (s.[Pt, i] + fmax 0 s.[P, i * N + j])%float s) a in
  modifies (fun b k => b = Pt /\ k = i) a r /\
  r.[Pt, i] = for_loop 0 n (fun j acc => (acc + fmax 0 a.[P, i * N + j])%float) a.[Pt, i].
Proof.
  intros Hi. induction n as [|n IH]; cbv zeta.
  - rewrite !for_loop_nil by lia. split; [apply modifies_refl|done].
  - rewrite !for_loop_S by lia. destruct IH as [M IH].
    set (r := for_loop 0 n _ a) in *.
    split.
    + apply modifies_wr; [done|exact M].
    + rewrite rd_wr_eq by (destruct M as [Hl _ _ _]; by rewrite Hl).
      rewrite IH. by rewrite (modifies_vec _ _ _ P M) by (by intros k [? _]).
Qed.

(** The first loop of [initialize_node]: the state and the sum. *)
Lemma initialize_node_clamp i n a :
  n <= N -> i * N + N <= length (vec a Yi) ->
  let r := for_loop 0 n (fun j '(s, sum) =>
    let s := wr Yi (i * N + j) (fmax (s.[P, i * N + j] / rd pt_init i) 0)%float s in
    (s, (sum + s.[Yi, i * N + j])%float)) (a, 0%float) in
  modifies (fun b k => b = Yi /\ i * N <= k < i * N + n) a r.1 /\
  (forall j, j < n -> r.1.[Yi, i * N + j] = clamped_fraction a i j) /\
  r.2 = for_loop 0 n (fun j sum => (sum + clamped_fraction a i j)%float) 0%float.
Proof.
  intros Hn Hlen. induction n as [|n IH]; cbv zeta.
  - rewrite !for_loop_nil by lia. cbn [fst snd]. split; [apply modifies_refl|]. split; [lia|done].
  - rewrite !for_loop_S by lia. destruct IH as (M & Hv & Hs); [lia|].
    destruct (for_loop 0 n _ (a, 0%float)) as [s1 sum]. cbn [fst snd] in *.
    assert (L1 : length (vec s1 Yi) = length (vec a Yi)) by apply M.
    assert (EP : vec s1 P = vec a P) by (by apply (modifies_vec _ _ _ P M); intros k [? _]).
    split; [|split].
    + apply modifies_wr; [split; [done|lia]|].
      eapply modifies_weaken; [|exact M]. intros b k [? ?]. split; [done|lia].
    + intros j Hj. destruct (decide (j = n)) as [->|Hne].
      * rewrite rd_wr_eq by lia. unfold clamped_fraction. by rewrite EP.
      * rewrite rd_wr_idx by lia. apply Hv. lia.
    + rewrite rd_wr_eq by lia. rewrite Hs. unfold clamped_fraction. by rewrite EP.
Qed.

(** The second loop of [initialize_node]. *)
Lemma initialize_node_divide i sum n a :
  n <= N -> i * N + N <= length (vec a Yi) ->
  let r := for_loop 0 n (fun j s =>
             wr Yi (i * N + j) (s.[Yi, i * N + j] / sum)%float s) a in
  modifies (fun b k => b = Yi /\ i * N <= k < i * N + n) a r /\
  forall j, j < n -> r.[Yi, i * N + j] = (a.[Yi, i * N + j] / sum)%float.
Proof.
  intros Hn Hlen. induction n as [|n IH]; cbv zeta.
  - rewrite !for_loop_nil by lia. split; [apply modifies_refl|lia].
  - rewrite !for_loop_S by lia. destruct IH as (M & Hv); [lia|].
    set (r := for_loop 0 n _ a) in *.
    assert (L1 : length (vec r Yi) = length (vec a Yi)) by apply M.
    split.
    + apply modifies_wr; [split; [done|lia]|].
      eapply modifies_weaken; [|exact M]. intros b k [? ?]. split; [done|lia].
    + intros j Hj. destruct (decide (j = n)) as [->|Hne].
      * rewrite rd_wr_eq by lia. f_equal.
        apply (modifies_rd _ _ _ _ _ M); [intros [_ ?]; lia|lia].
      * rewrite rd_wr_idx by lia. apply Hv. lia.
Qed.

Lemma initialize_node_Yi i a j :
  i * N + N <= length (vec a Yi) -> j < N ->
  (initialize_node i a).[Yi, i * N + j] = (clamped_fraction a i j / clamped_sum a i)%float.
Proof.
  intros Hlen Hj. unfold initialize_node.
  destruct (initialize_node_clamp i N a ltac:(lia) Hlen) as (M1 & V1 & S1).
  destruct (for_loop 0 N _ (a, 0%float)) as [a1 sum]. cbn [fst snd] in M1, V1, S1. cbv zeta.
  destruct (initialize_node_divide i sum N a1 ltac:(lia)) as (M2 & V2).
  { destruct M1 as [Hl _ _ _]. by rewrite Hl. }
  set (a2 := for_loop 0 N _ a1) in *.
  match goal with |- context [record_prediction i ?r a2] =>
    set (a3 := record_prediction i r a2) end.
  assert (M4 : modifies (fun b _ => b = Qeq) a3 (for_loop 0 N
                 (fun j s => wr Qeq (i * N + j) (rd (Ni s) j) s) a3)) by modifies_tac.
  rewrite (modifies_vec _ _ _ Yi M4) by done.
  change (vec a3 Yi) with (vec a2 Yi).
  rewrite V2, V1 by done. unfold clamped_sum. by rewrite S1.
Qed.

Lemma initialize_facts s :
  wf s ->
  modifies initialized s (initialize s) /\
  length (cache (initialize s)) = length (cache s) /\
  (forall j, j < N ->
     (initialize s).[prefactor, j] =
     (R * T prm * ((1 - epsilon prm) / epsilon prm) * rho_p prm * Kl (component prm j))%float) /\
  (forall i, i <= G ->
     (initialize s).[V, i] = (v_in prm * p_total prm / rd pt_init i)%float) /\
  (forall i, i <= G -> (initialize s).[Pt, i] = positive_pressure_sum (initialize s) i) /\
  (forall i j, i <= G -> j < N ->
     (initialize s).[Yi, i * N + j] =
     (clamped_fraction (initialize s) i j / clamped_sum (initialize s) i)%float).
Proof.
  intros [HG Hs Hc]. unfold initialize. cbv zeta.
  destruct (for_loop_writes prefactor (fun j => j)
              (fun j _ => (R * T prm * ((1 - epsilon prm) / epsilon prm) * rho_p prm
                           * Kl (component prm j))%float) 0 N s) as (M1 & O1 & _ & H1).
  { done. } { intros; lia. } { intros j Hj. rewrite Hs. simpl. lia. }
  set (s1 := for_loop 0 N _ s) in *.
  assert (I1 : modifies initialized s s1).
  { eapply modifies_weaken; [|exact M1]. by intros b k [-> _]. }
  set (s3 := fill Q 0 (fill P 0 s1)).
  assert (I3 : modifies initialized s s3).
  { subst s3. apply modifies_fill; [done|]. by apply modifies_fill. }
  assert (K3 : forall b, b <> P -> b <> Q -> vec s3 b = vec s1 b).
  { intros b ? ?. subst s3. by rewrite !vec_fill_ne. }
  assert (L3 : forall b, length (vec s3 b) = size b) by (apply (modifies_size _ _ _ I3), Hs).
  destruct (for_loop_writes V (fun i => i)
              (fun i _ => (v_in prm * p_total prm / rd pt_init i)%float) 0 (G + 1) s3)
    as (M4 & O4 & _ & H4).
  { done. } { intros; lia. } { intros i Hi. rewrite L3. simpl. lia. }
  set (s4 := for_loop 0 (G + 1) _ s3) in *.
  assert (L4 : forall b, length (vec s4 b) = size b) by (apply (modifies_size _ _ _ M4), L3).
  set (s5 := for_loop 1 (G + 1) _ s4).
  assert (M5 : modifies (fun b _ => b = P) s4 s5) by (subst s5; modifies_tac).
  set (s6 := for_loop 0 N _ s5).
  assert (M6 : modifies (fun b _ => b = P) s5 s6) by (subst s6; modifies_tac).
  assert (L6 : forall b, length (vec s6 b) = size b)
    by (apply (modifies_size _ _ _ M6), (modifies_size _ _ _ M5), L4).
  destruct (initialize_nodes_spec s6 (G + 1)) as (M7 & C7 & _);
    [done|by rewrite L6..|].
  set (s7 := for_loop 0 (G + 1) initialize_node s6) in *.
  assert (L7 : forall b, length (vec s7 b) = size b) by (apply (modifies_size _ _ _ M7), L6).
  match goal with |- context [for_loop 0 (G + 1) ?body s7] => set (outer := body) end.
  assert (Hbody : forall i a, i < length (vec a Pt) ->
            modifies (fun b k => b = Pt /\ k = i) a (outer i a) /\
            (outer i a).[Pt, i] = positive_pressure_sum a i).
  { intros i a Hi. subst outer. cbv beta zeta.
    destruct (total_pressure_loop i N (wr Pt i 0%float a)) as [M E];
      [by rewrite length_wr|].
    split.
    - eapply modifies_trans; [|exact M]. apply modifies_wr; [done|apply modifies_refl].
    - rewrite E. rewrite rd_wr_eq by done. unfold positive_pressure_sum.
      apply for_loop_ext. intros j x _. by rewrite rd_wr_buf. }
  destruct (for_loop_tracks (fun b _ => b = Pt) (fun i b k => b = Pt /\ k = i) Pt
              (fun i => i) (fun i a => positive_pressure_sum a i) 0 (G + 1) outer s7)
    as [M8 H8].
  { intros i a Hi [Hl _ _ _]. apply Hbody. rewrite Hl, L7. simpl. lia. }
  { by intros i b c _ [-> _]. }
  { intros i a Hi [Hl _ _ _]. apply Hbody. rewrite Hl, L7. simpl. lia. }
  { intros i a _ Ma. unfold positive_pressure_sum.
    by rewrite (modifies_vec _ _ _ P Ma). }
  { intros i i' Hlt _ [_ ?]. lia. }
  { intros i Hi. rewrite L7. simpl. lia. }
  set (s8 := for_loop 0 (G + 1) outer s7) in *.
  assert (O8 : modifies (fun b _ => b = Pt) s7 s8).
  { eapply modifies_weaken; [|exact M8]. by intros b c (i & _ & -> & _). }
  assert (Hcache : cache s8 = cache s7).
  { subst s8 outer. apply oracle_fields_cache. oracle_tac. }
  assert (HY : forall i j, i <= G -> j < N ->
            s7.[Yi, i * N + j] = (clamped_fraction s6 i j / clamped_sum s6 i)%float).
  { intros i j Hi Hj.
    destruct (for_loop_tracks (fun b _ => b = Yi \/ b = Qeq) node_row Yi
                (fun i => i * N + j)
                (fun i a => (clamped_fraction a i j / clamped_sum a i)%float)
                0 (G + 1) initialize_node s6) as [_ Hv]; [| | | | | |apply Hv; lia].
    - intros k a Hk [Hl _ _ _]. apply initialize_node_spec. rewrite Hl, L6. simpl. nia.
    - intros k b c _ [? _]. done.
    - intros k a Hk [Hl _ _ _]. apply initialize_node_Yi; [|done].
      rewrite Hl, L6. simpl. nia.
    - intros k a _ Ma. unfold clamped_sum, clamped_fraction.
      by rewrite (modifies_vec _ _ _ P Ma) by (intros c [?|?]; done).
    - intros k k' Hlt Hk' [_ ?]. nia.
    - intros k Hk. rewrite L6. simpl. nia. }
  assert (EP : vec s8 P = vec s6 P).
  { rewrite (modifies_vec _ _ _ P O8) by done.
    by rewrite (modifies_vec _ _ _ P M7) by (intros k [[?|?] _]; done). }
  refine (conj _ (conj _ (conj _ (conj _ (conj _ _))))).
  - eapply modifies_trans; [exact I3|].
    eapply modifies_trans; [eapply modifies_weaken; [|exact M4]; by intros b k [-> _]|].
    eapply modifies_trans; [eapply modifies_weaken; [|exact M5]; by intros b k ->|].
    eapply modifies_trans; [eapply modifies_weaken; [|exact M6]; by intros b k ->|].
    eapply modifies_trans; [eapply modifies_weaken; [|exact M7]|].
    { intros b k [[-> | ->] _]; done. }
    eapply modifies_weaken; [|exact O8]. by intros b k ->.
  - rewrite Hcache, C7.
    assert (E6 : oracle_fields s6 = oracle_fields s).
    { subst s6 s5. rewrite !for_loop_oracle_fields by done. rewrite O4. exact O1. }
    by rewrite (oracle_fields_cache _ _ E6).
  - intros j Hj.
    rewrite (modifies_vec _ _ _ prefactor O8) by done.
    rewrite (modifies_vec _ _ _ prefactor M7) by (intros k [[?|?] _]; done).
    rewrite (modifies_vec _ _ _ prefactor M6), (modifies_vec _ _ _ prefactor M5) by done.
    rewrite (modifies_vec _ _ _ prefactor M4) by (by intros k [? _]).
    rewrite K3 by done. apply H1. lia.
  - intros i Hi.
    rewrite (modifies_vec _ _ _ V O8) by done.
    rewrite (modifies_vec _ _ _ V M7) by (intros k [[?|?] _]; done).
    rewrite (modifies_vec _ _ _ V M6), (modifies_vec _ _ _ V M5) by done.
    apply H4. lia.
  - intros i Hi. rewrite H8 by lia. unfold positive_pressure_sum.
    by rewrite (modifies_vec _ _ _ P O8).
  - intros i j Hi Hj. rewrite (modifies_vec _ _ _ Yi O8) by done.
    rewrite HY by done. unfold clamped_sum, clamped_fraction. by rewrite EP.
Qed.

(** X13: after [initialize] the mass-transfer factor of every component is
    [R * T * ((1 - epsilon) / epsilon) * rho_p * Kl[j]], and the velocity at
    every node is [v_in * p_total / pt_init[i]], with [pt_init] the profile
    of [computeInitialPressure]. *)
Theorem initialize_prefactor_and_velocity s :
  wf s ->
  (forall j, j < N ->
     (initialize s).[prefactor, j] =
     (R * T prm * ((1 - epsilon prm) / epsilon prm) * rho_p prm * Kl (component prm j))%float) /\
  (forall i, i <= G ->
     (initialize s).[V, i] = (v_in prm * p_total prm / rd pt_init i)%float).
Proof. intros Hwf. destruct (initialize_facts s Hwf) as (_ & _ & H1 & H2 & _ & _). by split. Qed.

Lemma initialize_node_oracle_vectors i s :
  i * N + N <= length (vec s Qeq) ->
  let s' := initialize_node i s in
  Xi s' = pred_Xi (node_call s s' i) /\ Ni s' = pred_Ni (node_call s s' i).
Proof.
  intros HQ. unfold initialize_node.
  pose proof (initialize_node_clamp_fst i N s) as E1.
  destruct (for_loop 0 N _ (s, 0%float)) as [a1 sum]. simpl in E1. cbv zeta.
  assert (M1 : modifies (node_row i) s a1) by (subst a1; unfold node_row; modifies_tac).
  assert (O1 : oracle_fields a1 = oracle_fields s).
  { subst a1. by apply for_loop_oracle_fields. }
  clear E1.
  set (a2 := for_loop 0 N (fun j s => wr Yi (i * N + j) (s.[Yi, i * N + j] / sum)%float s) a1).
  assert (M2 : modifies (node_row i) s a2).
  { eapply modifies_trans; [exact M1|]. subst a2. unfold node_row. modifies_tac. }
  assert (O2 : oracle_fields a2 = oracle_fields s).
  { subst a2. rewrite <- O1. by apply for_loop_oracle_fields. }
  set (r := predictMixture (Yi_at i a2) (rd pt_init i) (cache_at i a2)).
  set (a3 := record_prediction i r a2).
  destruct (for_loop_writes Qeq (fun j => i * N + j) (fun j a => rd (Ni a) j) 0 N a3)
    as (M4 & O4 & _ & H4).
  { done. }
  { intros; lia. }
  { intros j Hj. change (vec a3 Qeq) with (vec a2 Qeq).
    destruct M2 as [Hl _ _ _]. rewrite Hl. lia. }
  set (s' := for_loop 0 N _ a3) in *.
  assert (EY : Yi_at i s' = Yi_at i a2).
  { apply Yi_at_ext. intros j Hj.
    rewrite (modifies_vec _ _ _ Yi M4) by (by intros k [? _]). done. }
  assert (EC : cache_at i a2 = cache_at i s).
  { unfold cache_at. injection O2 as _ _ -> _. done. }
  assert (Er : node_call s s' i = r).
  { unfold node_call. subst r. by rewrite EY, EC. }
  rewrite Er. injection O4 as EX4 EN4 EC4 EP4.
  split; [by rewrite EX4|by rewrite EN4].
Qed.

(** [Xi] and [Ni] after [initialize] are those of the call for the last
    node. *)
Lemma initialize_last_call s :
  wf s ->
  Xi (initialize s) = pred_Xi (node_call s (initialize s) G) /\
  Ni (initialize s) = pred_Ni (node_call s (initialize s) G).
Proof.
  intros [HG Hs Hc]. unfold initialize. cbv zeta.
  set (s1 := for_loop 0 N _ s).
  assert (M1 : modifies (fun b _ => b = prefactor) s s1) by (subst s1; modifies_tac).
  assert (O1 : oracle_fields s1 = oracle_fields s)
    by (subst s1; by apply for_loop_oracle_fields).
  set (s3 := fill Q 0 (fill P 0 s1)).
  assert (L3 : forall b, length (vec s3 b) = size b).
  { intros b. rewrite <- Hs. destruct M1 as [Hl _ _ _]. rewrite <- Hl. subst s3.
    destruct (decide (b = Q)) as [->|]; [by rewrite vec_fill, length_replicate, vec_fill_ne|].
    rewrite vec_fill_ne by done.
    destruct (decide (b = P)) as [->|]; [by rewrite vec_fill, length_replicate|].
    by rewrite vec_fill_ne. }
  set (s4 := for_loop 0 (G + 1) _ s3).
  assert (M4 : modifies (fun b _ => b = V) s3 s4) by (subst s4; modifies_tac).
  assert (O4 : oracle_fields s4 = oracle_fields s).
  { subst s4. rewrite for_loop_oracle_fields by done. exact O1. }
  set (s5 := for_loop 1 (G + 1) _ s4).
  assert (M5 : modifies (fun b _ => b = P) s4 s5) by (subst s5; modifies_tac).
  set (s6 := for_loop 0 N _ s5).
  assert (M6 : modifies (fun b _ => b = P) s5 s6) by (subst s6; modifies_tac).
  assert (L6 : forall b, length (vec s6 b) = size b)
    by (apply (modifies_size _ _ _ M6), (modifies_size _ _ _ M5), (modifies_size _ _ _ M4), L3).
  assert (O6 : oracle_fields s6 = oracle_fields s).
  { subst s6 s5. rewrite !for_loop_oracle_fields by done. exact O4. }
  set (s7 := for_loop 0 (G + 1) initialize_node s6).
  set (sG := for_loop 0 G initialize_node s6).
  assert (E7 : s7 = initialize_node G sG).
  { subst s7 sG. rewrite Nat.add_1_r. apply for_loop_S. lia. }
  destruct (initialize_nodes_spec s6 G) as (MG & _ & CG & _);
    [lia|by rewrite L6..|].
  fold sG in MG, CG.
  destruct (initialize_node_oracle_vectors G sG) as [EX EN].
  { destruct MG as [Hl _ _ _]. rewrite Hl, L6. simpl. nia. }
  rewrite <- E7 in EX, EN.
  set (s8 := for_loop 0 (G + 1) _ s7).
  assert (M8 : modifies (fun b _ => b = Pt) s7 s8) by (subst s8; modifies_tac).
  assert (O8 : oracle_fields s8 = oracle_fields s7).
  { subst s8. apply for_loop_oracle_fields. intros i a.
    by rewrite for_loop_oracle_fields. }
  assert (Ecall : node_call s s8 G = node_call sG s7 G).
  { unfold node_call, cache_at. rewrite (Yi_at_ext G s7 s8).
    - rewrite CG by lia. injection O6 as _ _ -> _. done.
    - intros j _. by rewrite (modifies_vec _ _ _ Yi M8). }
  rewrite Ecall. injection O8 as -> -> _ _. done.
Qed.

(** X14: of the nineteen vectors of doubles the constructor sizes,
    [initialize] writes [prefactor], [P], [Q], [V], [Yi], [Qeq] and [Pt]
    only: the six [new] vectors and the six derivative vectors are left as
    they were; the nineteen vectors and the list of per-node cache slices
    keep their sizes; [Nsteps] and [autoSteps] are kept.  The oracle's
    vectors [Xi] and [Ni] are overwritten: they are left as the call for
    the last node, [Ngrid], returned them. *)
Theorem initialize_frame s :
  wf s ->
  wf (initialize s) /\
  (forall b, b ∈ [Yinew; Vnew; Ptnew; Pnew; Qnew; Qeqnew;
                  Dpdt; Dpdtnew; Dqdt; Dqdtnew; Dydt; Dydtnew] ->
     vec (initialize s) b = vec s b) /\
  Nsteps (initialize s) = Nsteps s /\ autoSteps (initialize s) = autoSteps s /\
  Xi (initialize s) =
    pred_Xi (predictMixture (Yi_at G (initialize s)) (rd pt_init G) (cache_at G s)) /\
  Ni (initialize s) =
    pred_Ni (predictMixture (Yi_at G (initialize s)) (rd pt_init G) (cache_at G s)).
Proof.
  intros Hwf. destruct (initialize_facts s Hwf) as (M & Hc & _).
  destruct (initialize_last_call s Hwf) as [EX EN]. unfold node_call in EX, EN.
  destruct Hwf as [HG Hs Hcs].
  split; [split; [done|by apply (modifies_size _ _ _ M)|by rewrite Hc]|].
  split; [|destruct M as [_ _ HN HA]; exact (conj HN (conj HA (conj EX EN)))].
  intros b Hb. apply (modifies_vec _ _ _ _ M). intros k.
  rewrite !elem_of_cons, elem_of_nil in Hb.
  destruct b; simpl; (exact (fun H => H)) || (exfalso; clear -Hb; intuition discriminate).
Qed.

(** X15: after [initialize] the total pressure [Pt[i]] of every node is
    the sum of the positive parts [max(0.0, P[i*Ncomp+j])] of the partial
    pressures of the node, added up from [0.0] in the order of the
    components (lines 269-276). *)
Theorem initialize_total_pressure s i :
  wf s -> i <= G ->
  (initialize s).[Pt, i] =
  for_loop 0 N (fun j acc => (acc + fmax 0 (initialize s).[P, i * N + j])%float) 0%float.
Proof. intros Hwf Hi. destruct (initialize_facts s Hwf) as (_ & _ & _ & _ & H & _). by apply H. Qed.

(** X16: after [initialize] every mole fraction is the clamped ratio
    [max(P[i*Ncomp+j] / pt_init[i], 0.0)] divided by the sum of the clamped
    ratios of the node, added up from [0.0] in the order of the components
    (lines 241-252). *)
Theorem initialize_mole_fractions s i j :
  wf s -> i <= G -> j < N ->
  (initialize s).[Yi, i * N + j] =
  (fmax ((initialize s).[P, i * N + j] / rd pt_init i) 0
   / for_loop 0 N (fun k sum =>
       sum + fmax ((initialize s).[P, i * N + k] / rd pt_init i) 0) 0)%float.
Proof.
  intros Hwf Hi Hj. destruct (initialize_facts s Hwf) as (_ & _ & _ & _ & _ & H).
  by apply H.
Qed.

(** ** [computeEquilibriumLoadings], node by node *)

Lemma computeEquilibriumLoadings_nodes s n :
  n <= G + 1 ->
  (G + 1) * N <= length (vec s Qeqnew) ->
  let a := for_loop 0 n (fun i s =>
    let Yi_i := Yi_at i s in
    let s := record_prediction i (predictMixture Yi_i s.[Pt, i] (cache_at i s)) s in
    for_loop 0 N (fun j s => wr Qeqnew (i * N + j) (rd (Ni s) j) s) s) s in
  modifies (fun b k => b = Qeqnew /\ k < n * N) s a /\
  length (cache a) = length (cache s) /\
  (forall i, n <= i -> cache a !! i = cache s !! i) /\
  (forall i, i < n -> i < length (cache s) ->
     cache a !! i = Some (pred_cache (loading_call s i))) /\
  (forall i j, i < n -> j < N -> a.[Qeqnew, i * N + j] = rd (pred_Ni (loading_call s i)) j) /\
  iastPerformance a =
    fold_left (fun acc i => pair_add acc (pred_perf (loading_call s i)))
              (seq 0 n) (iastPerformance s).
Proof.
  intros Hn HQ. induction n as [|n IH]; cbv zeta.
  - rewrite for_loop_nil by lia.
    refine (conj (modifies_refl _ _) (conj eq_refl (conj (fun _ _ => eq_refl) _))).
    split; [intros; lia|]. split; [intros; lia|done].
  - rewrite for_loop_S by lia.
    destruct IH as (Mn & Lc & Cge & Clt & Qlt & Perf); [lia|].
    set (a := for_loop 0 n _ s) in *.
    assert (La : forall b, length (vec a b) = length (vec s b)) by apply Mn.
    assert (Ka : forall b, b <> Qeqnew -> vec a b = vec s b).
    { intros b Hb. apply (modifies_vec _ _ _ _ Mn). by intros k [? _]. }
    assert (Er : predictMixture (Yi_at n a) a.[Pt, n] (cache_at n a) = loading_call s n).
    { unfold loading_call. rewrite (Yi_at_ext n s a) by (intros j _; by rewrite Ka).
      rewrite (Ka Pt) by done. unfold cache_at. by rewrite Cge. }
    rewrite Er.
    set (a3 := record_prediction n (loading_call s n) a).
    destruct (for_loop_writes Qeqnew (fun j => n * N + j) (fun j x => rd (Ni x) j) 0 N a3)
      as (M4 & O4 & _ & H4).
    { done. } { intros; lia. }
    { intros j Hj. change (vec a3 Qeqnew) with (vec a Qeqnew). rewrite La. nia. }
    set (a' := for_loop 0 N _ a3) in *.
    injection O4 as EX4 EN4 EC4 EP4.
    refine (conj _ (conj _ (conj _ (conj _ (conj _ _))))).
    + eapply modifies_trans.
      * eapply modifies_weaken; [|exact Mn]. intros b k [? ?]. split; [done|lia].
      * destruct M4 as [L4 K4 N4 A4]. split; [done| |done|done].
        intros b k Hk. apply K4. intros [-> (j & Hj & ->)]. apply Hk. split; [done|nia].
    + rewrite EC4. simpl. by rewrite length_insert.
    + intros i Hi. rewrite EC4. simpl. rewrite list_lookup_insert_ne by lia. apply Cge. lia.
    + intros i Hi Hc. rewrite EC4. simpl. destruct (decide (i = n)) as [->|Hne].
      * by rewrite list_lookup_insert_eq by lia.
      * rewrite list_lookup_insert_ne by lia. apply Clt; lia.
    + intros i j Hi Hj. destruct (decide (i = n)) as [->|Hne]; [by apply H4; lia|].
      rewrite <- Qlt by lia.
      assert (i * N + j < n * N) by (apply index_lt; lia).
      apply (modifies_rd _ _ _ _ _ M4).
      * intros [_ (j' & Hj' & ?)]. lia.
      * change (vec a3 Qeqnew) with (vec a Qeqnew). rewrite La. nia.
    + rewrite seq_S, fold_left_app. simpl. rewrite EP4. simpl. by rewrite Perf.
Qed.

Lemma computeEquilibriumLoadings_spec s s' :
  (G + 1) * N <= length (vec s Qeqnew) ->
  G + 1 <= length (cache s) ->
  computeEquilibriumLoadings s = Ok s' ->
  modifies (fun b _ => b = Qeqnew) s s' /\
  (forall i j, i <= G -> j < N -> s'.[Qeqnew, i * N + j] = rd (pred_Ni (loading_call s i)) j) /\
  (forall i, i <= G -> cache s' !! i = Some (pred_cache (loading_call s i))) /\
  iastPerformance s' =
    fold_left (fun acc i => pair_add acc (pred_perf (loading_call s i)))
              (seq 0 (G + 1)) (iastPerformance s).
Proof.
  intros HQ Hc E. split; [by apply computeEquilibriumLoadings_modifies|].
  revert E. unfold computeEquilibriumLoadings. cbv zeta.
  destruct (computeEquilibriumLoadings_nodes s (G + 1)) as (_ & _ & _ & Clt & Qlt & Perf);
    [done..|].
  case_match; [done|]. intros [= <-].
  split; [intros; apply Qlt; lia|]. split; [intros; apply Clt; lia|exact Perf].
Qed.

(** [Xi] and [Ni] after [computeEquilibriumLoadings] are those of the call
    for the last node. *)
Lemma computeEquilibriumLoadings_last_call s s' :
  (G + 1) * N <= length (vec s Qeqnew) ->
  computeEquilibriumLoadings s = Ok s' ->
  Xi s' = pred_Xi (loading_call s G) /\ Ni s' = pred_Ni (loading_call s G).
Proof.
  intros HQ. unfold computeEquilibriumLoadings. cbv zeta.
  pose proof (computeEquilibriumLoadings_nodes s G) as H. cbv zeta in H.
  destruct H as (Mn & _ & Cge & _); [lia|done|].
  rewrite Nat.add_1_r, for_loop_S by lia.
  set (a := for_loop 0 G _ s) in *.
  assert (Ka : forall b, b <> Qeqnew -> vec a b = vec s b).
  { intros b Hb. apply (modifies_vec _ _ _ _ Mn). by intros k [? _]. }
  assert (Er : predictMixture (Yi_at G a) a.[Pt, G] (cache_at G a) = loading_call s G).
  { unfold loading_call. rewrite (Yi_at_ext G s a) by (intros j _; by rewrite Ka).
    rewrite (Ka Pt) by done. unfold cache_at. by rewrite Cge. }
  rewrite Er.
  set (a3 := record_prediction G (loading_call s G) a).
  set (a' := for_loop 0 N _ a3).
  assert (O : oracle_fields a' = oracle_fields a3)
    by (subst a'; by apply for_loop_oracle_fields).
  case_match; [done|]. intros [= <-].
  injection O as -> -> _ _. done.
Qed.

(** X17: a call of [computeEquilibriumLoadings] that returns has called the
    oracle once per node, in the order of the nodes, on the committed mole
    fractions [Yi] and total pressure [Pt[i]] of the node and on the node's
    own cache slices (it reads neither [Yinew] nor [Ptnew]).  Of the
    nineteen vectors of doubles the constructor sizes only [Qeqnew] changes:
    its row [i] holds the loadings of the call for node [i].  The oracle's
    vectors [Xi] and [Ni] are overwritten by every call and are left as the
    call for the last node, [Ngrid], returned them; the cache slices of node
    [i] are those the call for node [i] left, [iastPerformance] has grown by
    the pair of every call, and [Nsteps] and [autoSteps] are kept. *)
Theorem computeEquilibriumLoadings_calls_oracle_per_node s s' :
  wf s ->
  computeEquilibriumLoadings s = Ok s' ->
  (forall b, b <> Qeqnew -> vec s' b = vec s b) /\
  (forall i j, i <= G -> j < N ->
     s'.[Qeqnew, i * N + j] =
     rd (pred_Ni (predictMixture (Yi_at i s) s.[Pt, i] (cache_at i s))) j) /\
  Xi s' = pred_Xi (predictMixture (Yi_at G s) s.[Pt, G] (cache_at G s)) /\
  Ni s' = pred_Ni (predictMixture (Yi_at G s) s.[Pt, G] (cache_at G s)) /\
  (forall i, i <= G ->
     cache s' !! i =
     Some (pred_cache (predictMixture (Yi_at i s) s.[Pt, i] (cache_at i s)))) /\
  length (cache s') = length (cache s) /\
  iastPerformance s' =
    fold_left (fun acc i =>
                 pair_add acc (pred_perf (predictMixture (Yi_at i s) s.[Pt, i] (cache_at i s))))
              (seq 0 (G + 1)) (iastPerformance s) /\
  Nsteps s' = Nsteps s /\ autoSteps s' = autoSteps s.
Proof.
  intros [HG Hs Hc] E.
  destruct (computeEquilibriumLoadings_spec s s') as (M & HQ & HC & HP);
    [rewrite Hs; simpl; lia|lia|done|].
  destruct (computeEquilibriumLoadings_last_call s s') as [EX EN];
    [rewrite Hs; simpl; lia|done|].
  pose proof (computeEquilibriumLoadings_cache_length s s' E) as HL.
  refine (conj _ (conj HQ (conj EX (conj EN (conj HC (conj HL (conj HP _))))))).
  - intros b Hb. by apply (modifies_vec _ _ _ _ M).
  - by destruct M.
Qed.

(** X18: the equilibrium loadings a completed step commits are those the
    oracle returns for the mole fractions and total pressures of the state
    the step was called on: the third call of [computeEquilibriumLoadings]
    still reads the committed [Yi] and [Pt], which the step has not yet
    overwritten. *)
Theorem computeStep_loadings_of_entry_state step s s' i :
  wf s ->
  computeStep step s = Ok s' ->
  i <= G ->
  exists c, forall j, j < N ->
    s'.[Qeq, i * N + j] = rd (pred_Ni (predictMixture (Yi_at i s) s.[Pt, i] c)) j.
Proof.
  intros Hwf E Hi. pose proof Hwf as [HG Hs Hc].
  destruct (computeStep_stages _ _ _ E)
    as (F1 & u1 & e1 & F2 & u2 & e2 & F3 & u3 & e3 & EF1 & Eu1 & E1 & EF2 & Eu2 & E2 &
        EF3 & Eu3 & E3 & ->).
  destruct (stage_frames _ _ _ _ _ _ _ _ _ _ EF1 Eu1 E1 EF2 Eu2 E2 EF3 Eu3 E3)
    as (MF1 & Mu1 & R2 & Mu2 & R3 & Mu3 & M3 & Mv3).
  assert (Hs0 : forall b, length (vec (autoStepsCheck step s) b) = size b)
    by (intros b; by rewrite autoStepsCheck_vec).
  assert (Hc3 : G + 1 <= length (cache u3)).
  { assert (Hc' : length (cache e3) = length (cache s)).
    { assert (W : wf (pulseBoundaryCondition (of_size_t step * dt prm)%float
                        (commit (computeVelocity (T prm) e3))))
        by (by apply (computeStep_wf step s)).
      destruct W as [_ _ W].
      rewrite (oracle_fields_cache _ _ (pulseBoundaryCondition_oracle_fields _ _)) in W.
      change (cache (commit (computeVelocity (T prm) e3)))
        with (cache (computeVelocity (T prm) e3)) in W.
      rewrite (oracle_fields_cache _ _ (computeVelocity_oracle_fields _ e3)) in W. lia. }
    rewrite <- (computeEquilibriumLoadings_cache_length _ _ E3). lia. }
  destruct (computeEquilibriumLoadings_spec u3 e3) as (_ & HQ & _);
    [rewrite (modifies_size _ _ _ Mu3 Hs0); simpl; lia|done|done|].
  exists (cache_at i u3). intros j Hj.
  rewrite pulseBoundaryCondition_keeps by done.
  change (vec (commit (computeVelocity (T prm) e3)) Qeq)
    with (vec (computeVelocity (T prm) e3) Qeqnew).
  rewrite (modifies_vec _ _ _ Qeqnew (computeVelocity_modifies (T prm) e3)) by done.
  rewrite HQ by done. unfold loading_call.
  assert (KY : vec u3 Yi = vec s Yi).
  { rewrite (staging_keeps _ _ Yi Mu3) by taut. by rewrite autoStepsCheck_vec. }
  assert (KP : vec u3 Pt = vec s Pt).
  { rewrite (staging_keeps _ _ Pt Mu3) by taut. by rewrite autoStepsCheck_vec. }
  rewrite (Yi_at_ext i s u3) by (intros j' _; by rewrite KY). by rewrite KP.
Qed.

(** ** Comparisons of doubles *)

Lemma SFltb_irrefl a : SFltb a a = false.
Proof.
  unfold SFltb, SFcompare. destruct a as [[]|[]| |[] m e]; try done.
  - rewrite Z.compare_refl, Pos.compare_cont_refl. done.
  - rewrite Z.compare_refl, Pos.compare_cont_refl. done.
Qed.

Lemma SFltb_trans a b c : SFltb a b = true -> SFltb b c = true -> SFltb a c = true.
Proof.
  unfold SFltb, SFcompare.
  destruct a as [sa|sa| |sa ma ea], b as [sb|sb| |sb mb eb], c as [sc|sc| |sc mc ec];
    try destruct sa; try destruct sb; try destruct sc; try done;
    change (Pos.compare_cont Eq) with Pos.compare;
    destruct (Z.compare_spec ea eb), (Z.compare_spec eb ec), (Z.compare_spec ea ec);
    try done; try lia; subst;
    destruct (Pos.compare_spec ma mb), (Pos.compare_spec mb mc), (Pos.compare_spec ma mc);
    simpl; try done; try lia.
Qed.

Lemma ltb_irrefl (x : float) : (x <? x)%float = false.
Proof. rewrite ltb_spec. apply SFltb_irrefl. Qed.

Lemma ltb_trans (x y z : float) :
  (x <? y)%float = true -> (y <? z)%float = true -> (x <? z)%float = true.
Proof. rewrite !ltb_spec. apply SFltb_trans. Qed.

(** ** [maxVectorDifference] *)

Lemma maxVectorDifference_loop (d : nat -> float) n :
  1 <= n ->
  let m := for_loop 1 n (fun i max => if (max <? d i)%float then d i else max) (d 0) in
  (exists i, i < n /\ m = d i) /\
  forall i, i < n -> (m <? d i)%float = false.
Proof.
  induction n as [|n IH]; [lia|]. intros _. cbv zeta.
  destruct (decide (n = 0)) as [->|Hn].
  - rewrite for_loop_nil by lia. split; [exists 0; split; [lia|done]|].
    intros i Hi. replace i with 0 by lia. apply ltb_irrefl.
  - rewrite for_loop_S by lia. destruct IH as [(k & Hk & Em) Hle]; [lia|].
    set (m := for_loop 1 n _ (d 0)) in *.
    destruct (m <? d n)%float eqn:E.
    + split; [exists n; split; [lia|done]|].
      intros i Hi. destruct (decide (i = n)) as [->|Hne]; [apply ltb_irrefl|].
      destruct (d n <? d i)%float eqn:E'; [|done].
      rewrite <- (Hle i) by lia. symmetry. by apply (ltb_trans _ (d n)).
    + split; [exists k; split; [lia|done]|].
      intros i Hi. destruct (decide (i = n)) as [->|Hne]; [done|]. apply Hle. lia.
Qed.

(** X19: [maxVectorDifference] returns [0.0] as soon as one of the two
    vectors is empty, whatever the size of the other: the sizes are compared
    only when both vectors are non-empty, and then unequal sizes throw. *)
Theorem maxVectorDifference_empty_or_unequal (v w : list float) :
  (v = [] \/ w = [] -> maxVectorDifference v w = inr 0%float) /\
  (v <> [] -> w <> [] -> length v <> length w ->
   maxVectorDifference v w = inl runtime_error_unequal_vector_size).
Proof.
  unfold maxVectorDifference. split.
  - intros [-> | ->]; [done|]. simpl. by rewrite orb_true_r.
  - intros Hv Hw Hl. destruct v as [|x v]; [done|]. destruct w as [|x' w]; [done|].
    cbn [length Nat.eqb orb]. simpl in Hl.
    destruct (Nat.eqb_spec (length v) (length w)) as [Heq|Hne]; [lia|done].
Qed.

(** X20: on two non-empty vectors of equal size, [maxVectorDifference]
    returns one of the absolute differences [|v[i] - w[i]|], and none of
    the absolute differences compares greater than the value returned. *)
Theorem maxVectorDifference_is_largest (v w : list float) :
  v <> [] -> length v = length w ->
  exists m, maxVectorDifference v w = inr m /\
    (exists i, i < length v /\ m = abs (rd v i - rd w i)%float) /\
    forall i, i < length v -> (m <? abs (rd v i - rd w i))%float = false.
Proof.
  intros Hv Hl. unfold maxVectorDifference.
  assert (Hn : 1 <= length v) by (destruct v; [done|simpl; lia]).
  destruct (Nat.eqb_spec (length v) 0) as [?|_]; [lia|].
  destruct (Nat.eqb_spec (length w) 0) as [?|_]; [lia|].
  destruct (Nat.eqb_spec (length v) (length w)) as [_|?]; [|lia].
  cbn [orb negb]. cbv zeta. eexists. split; [reflexivity|].
  apply (maxVectorDifference_loop (fun i => abs (rd v i - rd w i)%float) (length v) Hn).
Qed.

(** ** NaN in the auto-stop tolerance *)

Lemma is_nan_Prim2SF (x : float) : is_nan x = true -> Prim2SF x = S754_nan.
Proof.
  unfold is_nan. rewrite FloatAxioms.eqb_spec. unfold SFeqb, SFcompare.
  destruct (Prim2SF x) as [[]|[]| |[] m e]; try done;
    rewrite Z.compare_refl, Pos.compare_cont_refl; done.
Qed.

Lemma nan_deviation (x y : float) :
  is_nan x = true -> Prim2SF (abs (x / y - 1))%float = S754_nan.
Proof.
  intros Hx. apply is_nan_Prim2SF in Hx.
  rewrite abs_spec, sub_spec, div_spec, Hx. reflexivity.
Qed.

Lemma fmax_nan (t z : float) : Prim2SF z = S754_nan -> fmax t z = t.
Proof.
  intros Hz. unfold fmax. rewrite ltb_spec, Hz. unfold SFltb, SFcompare.
  by destruct (Prim2SF t).
Qed.

Lemma outletTolerance_nan s :
  (forall j, j < N -> is_nan s.[P, G * N + j] = true) -> outletTolerance s = 0%float.
Proof.
  intros H. unfold outletTolerance.
  apply (for_loop_ind (fun tol => tol = 0%float)); [done|].
  intros j tol Hj ->. apply fmax_nan, nan_deviation, H. lia.
Qed.

(** X21: a NaN partial pressure at the outlet never raises the auto-stop
    tolerance.  When every partial pressure at the outlet node is NaN, the
    tolerance is [0.0], and with [autoSteps] enabled the step takes the
    outlet for converged: it sets [Nsteps] to
    [static_cast<size_t>(1.1 * step)] and disables [autoSteps]. *)
Theorem autoStepsCheck_takes_nan_for_converged step s :
  autoSteps s = true ->
  (forall j, j < N -> is_nan s.[P, G * N + j] = true) ->
  outletTolerance s = 0%float /\
  Nsteps (autoStepsCheck step s) = to_size_t (1.1 * of_size_t step)%float /\
  autoSteps (autoStepsCheck step s) = false.
Proof.
  intros Ha Hnan. pose proof (outletTolerance_nan s Hnan) as E.
  split; [exact E|]. unfold autoStepsCheck. rewrite Ha, E.
  by change (0 <? 0.01)%float with true.
Qed.

(** ** The loop of [run] and [compute] *)

Lemma computeStep_counters step s s' :
  computeStep step s = Ok s' ->
  Nsteps s' = Nsteps (autoStepsCheck step s) /\
  autoSteps s' = autoSteps (autoStepsCheck step s).
Proof.
  unfold computeStep. cbv zeta. intros E.
  pose proof (SSP_RK_cases (autoStepsCheck step s)) as C.
  destruct (SSP_RK (autoStepsCheck step s)) as [sc|]; [|done].
  simpl in E. injection E as <-.
  destruct C as [_ (s3 & [_ _ Hn Ha] & ->)].
  destruct (pulseBoundaryCondition_modifies (of_size_t step * dt prm)%float (commit s3))
    as [_ _ Hn' Ha'].
  rewrite Hn', Ha'. change (Nsteps (commit s3)) with (Nsteps s3).
  change (autoSteps (commit s3)) with (autoSteps s3). by rewrite Hn, Ha.
Qed.

Lemma written_0 w : 0 < w -> written 0 w = 0.
Proof. intros Hw. unfold written. apply Nat.div_small. lia. Qed.

Lemma written_S n w :
  0 < w -> written (S n) w = written n w + (if Nat.eqb (n mod w) 0 then 1 else 0).
Proof.
  intros Hw. unfold written.
  pose proof (Nat.div_mod_eq n w) as E. pose proof (Nat.mod_upper_bound n w ltac:(lia)) as Hr.
  set (q := n / w) in *. set (r := n mod w) in *.
  destruct (Nat.eqb_spec r 0) as [Hr0|Hr0].
  - rewrite <- (Nat.div_unique (S n + w - 1) w (S q) 0) by lia.
    rewrite <- (Nat.div_unique (n + w - 1) w q (w - 1)) by lia. lia.
  - rewrite <- (Nat.div_unique (S n + w - 1) w (S q) r) by lia.
    rewrite <- (Nat.div_unique (n + w - 1) w (S q) (r - 1)) by lia. lia.
Qed.

Section DriverFacts.

Variables printEvery writeEvery : nat.
Variable Frame : Type.
Variable frame : float -> State -> Frame.
Hypothesis Hprint : 0 < printEvery.
Hypothesis Hwrite : 0 < writeEvery.

Local Abbreviation loop := (stepLoop printEvery writeEvery Frame frame).

Lemma stepLoop_done fuel step s out :
  Nsteps s <= step -> autoSteps s = false -> loop fuel step s out = Finished (s, out).
Proof.
  intros Hn Ha. destruct fuel; simpl; rewrite Ha;
    by destruct (Nat.ltb_spec step (Nsteps s)); [lia|].
Qed.

Lemma stepLoop_next fuel step s s' out :
  (step < Nsteps s \/ autoSteps s = true) ->
  computeStep step s = Ok s' ->
  loop (S fuel) step s out =
  loop fuel (S step) s'
    (if Nat.eqb (step mod writeEvery) 0
     then out ++ [frame (of_size_t step * dt prm)%float s'] else out).
Proof.
  intros Hc E. simpl. rewrite E.
  assert ((Nat.ltb step (Nsteps s) || autoSteps s) = true) as ->.
  { destruct Hc as [H| ->]; [|apply orb_true_r].
    by destruct (Nat.ltb_spec step (Nsteps s)); [|lia]. }
  destruct writeEvery; [lia|]. destruct printEvery; [lia|]. done.
Qed.

Lemma stepLoop_throw fuel step s e out :
  (step < Nsteps s \/ autoSteps s = true) ->
  computeStep step s = Throw e ->
  loop (S fuel) step s out = Aborted e.
Proof.
  intros Hc E. simpl. rewrite E.
  assert ((Nat.ltb step (Nsteps s) || autoSteps s) = true) as ->; [|done].
  destruct Hc as [H| ->]; [|apply orb_true_r].
  by destruct (Nat.ltb_spec step (Nsteps s)); [|lia].
Qed.

(** With [autoSteps] off the loop is a loop over the steps up to
    [Nsteps]. *)
Lemma stepLoop_fixed n : forall fuel step s out,
  autoSteps s = false ->
  n = Nsteps s - step -> n <= fuel ->
  match steps n step s with
  | Ok s' =>
      exists out', loop fuel step s out = Finished (s', out') /\
        length out' + written step writeEvery =
        length out + written (Nat.max step (Nsteps s)) writeEvery /\
        Nsteps s' = Nsteps s /\ autoSteps s' = false
  | Throw e => loop fuel step s out = Aborted e
  end.
Proof.
  induction n as [|n IH]; intros fuel step s out Ha Hn Hf.
  - simpl. exists out. rewrite stepLoop_done by (done || lia).
    replace (Nat.max step (Nsteps s)) with step by lia. done.
  - destruct fuel as [|fuel]; [lia|]. cbn [steps].
    destruct (computeStep step s) as [s1|e] eqn:E; cbn [mbind result_bind].
    2:{ apply stepLoop_throw; [lia|done]. }
    destruct (computeStep_counters _ _ _ E) as [N1 A1].
    unfold autoStepsCheck in N1, A1. rewrite Ha in N1, A1. rewrite Ha in A1.
    rewrite (stepLoop_next fuel step s s1 out) by (done || lia).
    specialize (IH fuel (S step) s1
      (if Nat.eqb (step mod writeEvery) 0
       then out ++ [frame (of_size_t step * dt prm)%float s1] else out)
      A1 ltac:(lia) ltac:(lia)).
    destruct (steps n (S step) s1) as [s'|e']; [|done].
    destruct IH as (out' & -> & Hl & N' & A'). exists out'. split; [done|].
    split; [|split; [congruence|done]].
    rewrite written_S in Hl by done.
    replace (Nat.max (S step) (Nsteps s1)) with (Nat.max step (Nsteps s)) in Hl by lia.
    destruct (Nat.eqb (step mod writeEvery) 0); [rewrite length_app in Hl; simpl in Hl|]; lia.
Qed.

(** Once the outlet is found converged at the start of step [step], the
    loop performs this step and then runs to the new [Nsteps]. *)
Lemma stepLoop_converged fuel step s out :
  autoSteps s = true ->
  (outletTolerance s <? 0.01)%float = true ->
  to_size_t (1.1 * of_size_t step)%float - S step <= fuel ->
  match steps (S (to_size_t (1.1 * of_size_t step)%float - S step)) step s with
  | Ok s' =>
      exists out', loop (S fuel) step s out = Finished (s', out') /\
        Nsteps s' = to_size_t (1.1 * of_size_t step)%float /\ autoSteps s' = false
  | Throw e => loop (S fuel) step s out = Aborted e
  end.
Proof.
  intros Ha Ht Hf. cbn [steps].
  destruct (computeStep step s) as [s1|e] eqn:E; cbn [mbind result_bind].
  2:{ apply stepLoop_throw; [by right|done]. }
  destruct (computeStep_counters _ _ _ E) as [N1 A1].
  unfold autoStepsCheck in N1, A1. rewrite Ha, Ht in N1, A1. simpl in N1, A1.
  rewrite (stepLoop_next fuel step s s1 out) by (done || by right).
  pose proof (stepLoop_fixed (to_size_t (1.1 * of_size_t step)%float - S step)
    fuel (S step) s1
    (if Nat.eqb (step mod writeEvery) 0
     then out ++ [frame (of_size_t step * dt prm)%float s1] else out)
    A1 ltac:(by rewrite N1) ltac:(lia)) as H.
  destruct (steps _ (S step) s1) as [s'|e']; [|done].
  destruct H as (out' & -> & _ & N' & A'). exists out'. split; [done|].
  split; [congruence|done].
Qed.

End DriverFacts.

(** Every frame of a finished loop is one [frame] made. *)
Lemma stepLoop_frames printEvery writeEvery Frame (frame : float -> State -> Frame)
    (Q : Frame -> Prop) fuel : forall step s out s' out',
  (forall t x, Q (frame t x)) ->
  Forall Q out ->
  stepLoop printEvery writeEvery Frame frame fuel step s out = Finished (s', out') ->
  Forall Q out'.
Proof.
  induction fuel as [|fuel IH]; intros step s out s' out' HQ Hout; simpl.
  - case_match; [done|]. by intros [= _ <-].
  - case_match; [|by intros [= _ <-]].
    destruct (computeStep step s) as [s1|]; [|done].
    destruct writeEvery; [done|]. destruct printEvery; [done|].
    apply IH; [done|]. case_match; [|done]. apply Forall_app. split; [done|].
    by apply Forall_singleton.
Qed.


(** X22: with [autoSteps] off and non-zero [printEvery] and [writeEvery],
    the loop of [run] performs the steps [0 .. Nsteps - 1] and no other: it
    ends within [Nsteps] iterations on the state these steps lead to, having
    written one frame for every multiple of [writeEvery] below [Nsteps],
    that is [(Nsteps + writeEvery - 1) / writeEvery] frames; and it ends with
    the exception of the first step that throws, if one does. *)
Theorem run_performs_Nsteps printEvery writeEvery fuel s :
  0 < printEvery -> 0 < writeEvery ->
  autoSteps s = false -> Nsteps s <= fuel ->
  match steps (Nsteps s) 0 s with
  | Ok s' =>
      exists out, run printEvery writeEvery fuel s = Finished (s', out) /\
        length out = (Nsteps s + writeEvery - 1) / writeEvery
  | Throw e => run printEvery writeEvery fuel s = Aborted e
  end.
Proof.
  intros Hp Hw Ha Hf. unfold run.
  pose proof (stepLoop_fixed printEvery writeEvery RunFrame run_frame Hp Hw
                (Nsteps s) fuel 0 s [] Ha ltac:(lia) Hf) as H.
  destruct (steps (Nsteps s) 0 s) as [s'|e]; [|done].
  destruct H as (out & E & Hl & _). exists out. split; [done|].
  rewrite written_0 in Hl by done. simpl in Hl.
  replace (Nat.max 0 (Nsteps s)) with (Nsteps s) in Hl by lia.
  unfold written in Hl. lia.
Qed.

(** X23: when the loop of [run] or [compute] starts step [step] with
    [autoSteps] on and the outlet within the tolerance, it performs this
    step and then the steps up to [static_cast<size_t>(1.1 * step)], the new
    [Nsteps], and ends there with [autoSteps] off; when that number is not
    above [step + 1] the step is the last one. *)
Theorem stepLoop_runs_to_new_Nsteps printEvery writeEvery Frame
    (frame : float -> State -> Frame) fuel step s out :
  0 < printEvery -> 0 < writeEvery ->
  autoSteps s = true ->
  (outletTolerance s <? 0.01)%float = true ->
  to_size_t (1.1 * of_size_t step)%float - S step <= fuel ->
  match steps (S (to_size_t (1.1 * of_size_t step)%float - S step)) step s with
  | Ok s' =>
      exists out',
        stepLoop printEvery writeEvery Frame frame (S fuel) step s out = Finished (s', out') /\
        Nsteps s' = to_size_t (1.1 * of_size_t step)%float /\ autoSteps s' = false
  | Throw e => stepLoop printEvery writeEvery Frame frame (S fuel) step s out = Aborted e
  end.
Proof. intros Hp Hw. by apply stepLoop_converged. Qed.

(** ** The rows written *)

Lemma set_entry_shape i c x (tb : list (list float)) n m :
  length tb = n /\ Forall (fun r => length r = m) tb ->
  length (set_entry i c x tb) = n /\ Forall (fun r => length r = m) (set_entry i c x tb).
Proof.
  intros [Hl HF]. unfold set_entry. split; [by rewrite length_insert|].
  destruct (tb !! i) as [r|] eqn:E; simpl.
  - apply Forall_insert; [done|]. rewrite length_insert.
    by apply (Forall_lookup_1 _ _ _ _ HF E).
  - rewrite list_insert_ge; [done|]. by apply lookup_ge_None.
Qed.

Lemma t_brk_shape t s :
  length (t_brk t s) = G + 1 /\ Forall (fun r => length r = colsize) (t_brk t s).
Proof.
  unfold t_brk.
  apply (for_loop_ind (fun tb => length tb = G + 1 /\ Forall (fun r => length r = colsize) tb)).
  - split; [by rewrite length_replicate|].
    apply Forall_replicate. by rewrite length_replicate.
  - intros i tb _ H. cbv zeta.
    apply (for_loop_ind
             (fun tb => length tb = G + 1 /\ Forall (fun r => length r = colsize) tb)).
    + by do 5 apply set_entry_shape.
    + intros j tb' _ H'. by do 6 apply set_entry_shape.
Qed.

Lemma concat_frames_length (brk : list (list (list float))) a c :
  Forall (fun f => length f = a /\ Forall (fun r => length r = c) f) brk ->
  length (concat (concat brk)) = length brk * a * c.
Proof.
  induction 1 as [|f brk [Hf Hr] _ IH]; [done|].
  simpl. rewrite concat_app, length_app, IH.
  assert (E : length (concat f) = length f * c).
  { clear Hf. induction Hr as [|r f Hr _ IHf]; [done|].
    simpl. rewrite length_app, IHf, Hr. lia. }
  rewrite E, Hf. lia.
Qed.

(** X24: when [compute] returns, the buffer it hands to the array holds
    exactly as many doubles as the shape [{brk.size(), Ngrid + 1, 6 * Ncomp +
    5}] of the array announces. *)
Theorem compute_buffer_matches_shape printEvery writeEvery fuel s :
  match compute printEvery writeEvery fuel s with
  | Finished (s', (buffer, (a, b, c))) =>
      length buffer = a * b * c /\ b = G + 1 /\ c = 6 * N + 5
  | _ => True
  end.
Proof.
  unfold compute.
  destruct (stepLoop _ _ _ _ _ _ _ _) as [[s1 brk]| | |] eqn:E; try done.
  split; [|done].
  apply concat_frames_length.
  apply (stepLoop_frames printEvery writeEvery _ t_brk
           (fun f => length f = G + 1 /\ Forall (fun r => length r = colsize) f)
           fuel 0 s [] s1 brk); [|done|done].
  intros t x. apply t_brk_shape.
Qed.

Lemma flat_map_chunk {A} (f : nat -> list A) m n j c :
  (forall k, length (f k) = m) -> j < n -> c < m ->
  flat_map f (seq 0 n) !! (m * j + c) = f j !! c.
Proof.
  intros Hf. induction n as [|n IH]; intros Hj Hc; [lia|].
  rewrite seq_S, flat_map_app. simpl. rewrite app_nil_r.
  assert (Hl : length (flat_map f (seq 0 n)) = m * n).
  { clear IH Hj. induction n as [|n IHn]; [simpl; lia|].
    rewrite seq_S, flat_map_app, length_app, IHn. simpl. rewrite app_nil_r, Hf. lia. }
  destruct (decide (j = n)) as [->|Hne].
  - rewrite lookup_app_r by lia. f_equal. lia.
  - rewrite lookup_app_l by nia. apply IH; lia.
Qed.

(** X25: every row that [run] writes to [column.data] holds [3 + 6 *
    Ncomp] numbers: the position, the velocity and the total pressure of the
    node, and then for each component [j], from the index [3 + 6 * j] on,
    its loading, equilibrium loading, partial pressure, normalised partial
    pressure, and the entries [Dpdt[i*Ncomp+j]] and [Dqdt[i*Ncomp+j]]. *)
Theorem column_row_layout s i j :
  j < N ->
  length (column_row s i) = 3 + 6 * N /\
  column_row s i !! 0 = Some (of_size_t i * dx prm)%float /\
  column_row s i !! 1 = Some s.[V, i] /\
  column_row s i !! 2 = Some s.[Pt, i] /\
  column_row s i !! (3 + 6 * j) = Some s.[Q, i * N + j] /\
  column_row s i !! (4 + 6 * j) = Some s.[Qeq, i * N + j] /\
  column_row s i !! (5 + 6 * j) = Some s.[P, i * N + j] /\
  column_row s i !! (6 + 6 * j) =
    Some (s.[P, i * N + j] / (s.[Pt, i] * Yi0 (component prm j)))%float /\
  column_row s i !! (7 + 6 * j) = Some s.[Dpdt, i * N + j] /\
  column_row s i !! (8 + 6 * j) = Some s.[Dqdt, i * N + j].
Proof.
  intros Hj. unfold column_row.
  match goal with |- context [flat_map ?f (seq 0 N)] => set (fields := f) end.
  assert (Hf : forall k, length (fields k) = 6) by done.
  assert (Hc : forall c, c < 6 ->
            ([(of_size_t i * dx prm)%float; s.[V, i]; s.[Pt, i]] ++ flat_map fields (seq 0 N))
              !! (3 + c + 6 * j) = fields j !! c).
  { intros c Hc. rewrite lookup_app_r by (simpl; lia).
    rewrite <- (flat_map_chunk fields 6 N j c Hf Hj Hc). f_equal. simpl. lia. }
  split.
  { rewrite length_app. simpl. clear Hc.
    assert (length (flat_map fields (seq 0 N)) = 6 * N); [|lia].
    generalize N. intros n. induction n as [|n IHn]; [simpl; lia|].
    rewrite seq_S, flat_map_app, length_app, IHn. simpl. lia. }
  repeat split; try done.
  - apply (Hc 0). lia.
  - apply (Hc 1). lia.
  - apply (Hc 2). lia.
  - apply (Hc 3). lia.
  - apply (Hc 4). lia.
  - apply (Hc 5). lia.
Qed.
End Model.

(** * Evaluation on concrete columns *)

(** The state of a column after the constructor and [initialize]. *)
Abbreviation start prm :=
  (initialize pow_three_halves (langmuir 0) oob_zero prm (Breakthrough prm)).

(** [computeStep] on the stand-ins. *)
Abbreviation step_of prm :=
  (computeStep pow_three_halves (langmuir 0) oob_zero prm).

Lemma column_wf : wf column (start column).
Proof. split; [vm_compute; lia|intros []; vm_compute; reflexivity|vm_compute; reflexivity]. Qed.

Lemma column_constructed_wf : wf column (Breakthrough column).
Proof. split; [vm_compute; lia|intros []; vm_compute; reflexivity|vm_compute; reflexivity]. Qed.

Lemma column_pulse_wf : wf column_pulse (start column_pulse).
Proof. split; [vm_compute; lia|intros []; vm_compute; reflexivity|vm_compute; reflexivity]. Qed.

Lemma column_no_alias : no_alias Dqdt Dpdt Dydt Qeq Q V P.
Proof. split; [done|]. split; [done|]. repeat constructor; done. Qed.

Lemma column_step_completes : exists s', step_of column 0 (start column) = Ok s'.
Proof. apply computeStep_completes. vm_compute. reflexivity. Qed.

Lemma column_pulse_step_completes :
  exists s', step_of column_pulse 1 (start column_pulse) = Ok s'.
Proof. apply computeStep_completes. vm_compute. reflexivity. Qed.

Lemma column_auto_step_completes :
  exists s', step_of column_auto 5 (start column_auto) = Ok s'.
Proof. apply computeStep_completes. vm_compute. reflexivity. Qed.

Lemma computeStep_SSP_RK3_witness :
  wf column (start column) /\
  exists s', step_of column 0 (start column) = Ok s' /\
             SSP_RK3_step pow_three_halves (langmuir 0) oob_zero column 0 (start column) s'.
Proof.
  split; [exact column_wf|].
  destruct column_step_completes as [s' E]. exists s'. split; [exact E|].
  exact (computeStep_SSP_RK3 pow_three_halves (langmuir 0) oob_zero column 0 _ s' column_wf E).
Defined.

Lemma computeStep_autoSteps_witness :
  exists s', step_of column_auto 5 (start column_auto) = Ok s' /\
             autoSteps_rule oob_zero column_auto 5 (start column_auto) s'.
Proof.
  destruct column_auto_step_completes as [s' E]. exists s'. split; [exact E|].
  exact (computeStep_autoSteps pow_three_halves (langmuir 0) oob_zero column_auto 5 _ s' E).
Defined.

Lemma pulse_switches_inlet_row_only_witness :
  wf column_pulse (start column_pulse) /\
  pulse column_pulse = true /\
  (tpulse column_pulse <? of_size_t 1 * dt column_pulse)%float = true /\
  exists s', step_of column_pulse 1 (start column_pulse) = Ok s' /\
    exists sc,
      SSP_RK pow_three_halves (langmuir 0) oob_zero column_pulse
             (autoStepsCheck oob_zero column_pulse 1 (start column_pulse)) = Ok sc /\
      pulse_inlet_only column_pulse sc s'.
Proof.
  split; [exact column_pulse_wf|]. split; [reflexivity|]. split; [vm_compute; reflexivity|].
  destruct column_pulse_step_completes as [s' E]. exists s'. split; [exact E|].
  exact (pulse_switches_inlet_row_only pow_three_halves (langmuir 0) oob_zero column_pulse 1 _ s'
           column_pulse_wf E eq_refl eq_refl).
Defined.

Lemma initialize_state_witness :
  wf column (Breakthrough column) /\
  carrierGasComponent column < Ncomp column /\
  initial_state pow_three_halves (langmuir 0) oob_zero column
                (Breakthrough column) (start column).
Proof.
  split; [exact column_constructed_wf|]. split; [vm_compute; lia|].
  apply (initialize_state pow_three_halves (langmuir 0) oob_zero column _ column_constructed_wf). vm_compute. lia.
Defined.


Lemma computeFirstDerivatives_outlet_reads_past_v_witness :
  no_alias Dqdt Dpdt Dydt Qeq Q V P /\
  1 <= Ncomp column /\
  length (vec (start column) V) = Ngrid column + 1 /\
  Ngrid column < length (vec (start column) Dpdt) /\
  vec (start column) V !! (Ngrid column + 1) = None /\
  rd oob_zero
     (vec (computeFirstDerivatives oob_zero column Dqdt Dpdt Dydt Qeq Q V P Yi (start column))
          Dpdt) (Ngrid column) =
  (- rd oob_zero (vec (start column) P) (Ngrid column)
     * (oob_zero (vec (start column) V) (Ngrid column + 1)
        - rd oob_zero (vec (start column) V) (Ngrid column)) * idx column
   - rd oob_zero (vec (start column) prefactor) (Ncomp column - 1)
     * (rd oob_zero (vec (start column) Qeq) (Ngrid column * Ncomp column + (Ncomp column - 1))
        - rd oob_zero (vec (start column) Q)
             (Ngrid column * Ncomp column + (Ncomp column - 1))))%float.
Proof.
  split; [exact column_no_alias|]. split; [vm_compute; lia|].
  split; [vm_compute; reflexivity|]. split; [vm_compute; lia|].
  apply (computeFirstDerivatives_outlet_reads_past_v oob_zero column _ _ _ _ _ _ _ Yi _ column_no_alias).
  - vm_compute. lia.
  - vm_compute. reflexivity.
  - vm_compute. lia.
Defined.

(** C2 (the code departs from it): on [column], [computeVelocity] leaves at
    node 2 the root [(-b + sqrt(b^2 - 4ac)) / 2a] of the quadratic whose
    quadratic coefficient is [term_a], built from the laminar prefactor
    (the factor 150) times [Pt[i] / T], and whose linear coefficient is
    [term_b], built from the turbulent prefactor (the factor 1.75) times
    the Sutherland factor.  The value returned solves that quadratic; it
    solves neither the quadratic the claim describes nor the one with the
    two prefactors paired as [computeInitialPressure] pairs them. *)
Theorem computeVelocity_swaps_Ergun_terms :
  let s := start column in
  let v2 := rd oob_zero (vec (computeVelocity pow_three_halves oob_zero column (T column) s) Vnew) 2 in
  v2 = Ergun_velocity pow_three_halves column (T column)
         (rd oob_zero (vec s Pt) 2) (rd oob_zero (vec s Pt) 1) /\
  term_a oob_zero column s 2 = (laminar_prefactor column * rd oob_zero (vec s Pt) 2 / T column)%float /\
  laminar_prefactor column = 28350%float /\
  (abs (quadratic (term_a oob_zero column s 2) (term_b pow_three_halves column) (term_c oob_zero column s 2) v2) <? 1e-6)%float = true /\
  (10000 <? abs (quadratic (claimed_a column) (claimed_b pow_three_halves column) (term_c oob_zero column s 2) v2))%float = true /\
  (10000 <? abs (quadratic (paired_a oob_zero column s 2) (paired_b pow_three_halves column) (term_c oob_zero column s 2) v2))%float = true.
Proof. vm_compute. repeat split. Qed.

(** C3 (the code departs from it): on [column] the mole fractions sum to 1
    within 10^-8 at every node after [initialize], and after the first
    [computeStep] they do so at the inlet node only: at the nodes 1, 2 and 3
    the mole fractions are NaN. *)
Theorem computeStep_breaks_mole_fraction_closure :
  map (closure oob_zero column (start column)) [0; 1; 2; 3] = [true; true; true; true] /\
  observe (fun s => map (closure oob_zero column s) [0; 1; 2; 3]) (step_of column 0 (start column))
  = Some [true; false; false; false] /\
  observe (fun s => (rd oob_zero (vec s Yi) (3 * 2 + 0) =? rd oob_zero (vec s Yi) (3 * 2 + 0))%float)
          (step_of column 0 (start column))
  = Some false.
Proof. vm_compute. repeat split. Qed.

(** C8 (the code departs from it): on [column_gradient] the total pressure
    at the outlet node is [p_total = 10^5 Pa], not negative, and the first
    step throws, because [Pt[0] + dptdx * L] is negative; and on [column]
    a state whose outlet total pressure [Pt[Ngrid]] is negative passes the
    check, and the step completes. *)
Theorem pressure_check_is_not_on_the_outlet_node :
  (rd oob_zero (vec (start column_gradient) Pt) (Ngrid column_gradient) <? 0)%float = false /\
  step_of column_gradient 0 (start column_gradient) = Throw runtime_error_negative_outlet_pressure /\
  (rd oob_zero (vec (wr Pt (Ngrid column) (-1) (start column)) Pt) (Ngrid column) <? 0)%float = true /\
  observe (fun _ => tt) (step_of column 0 (wr Pt (Ngrid column) (-1) (start column))) = Some tt.
Proof. vm_compute. repeat split. Qed.

(** C1 (the code departs from it): stage 1 is not the Euler step
    [U1 = U + dt * F(U)] of the operator [F] that stages 2 and 3 apply.
    Stages 2 and 3 hand [computeFirstDerivatives] the total pressures of
    their stage values (lines 517 and 548); stage 1 hands it the partial
    pressures [P] (line 483).  On [column] the first stage of step 0 leaves
    [Ptnew[1] = Pt[1] + dt * Dpdt[1] = 105790.17...], with the derivative
    taken of [P], where [Pt[1] + dt * F(U)[1]] with the derivative the later
    stages take, of the total pressures, is [105828.65...]; at node 2 the
    two are [102963.12...] and [102913.16...]. *)
Theorem stage1_is_not_the_Euler_step_of_the_later_stages_F :
  let s := autoStepsCheck oob_zero column 0 (start column) in
  let u1 := SSP_RK_stage1 oob_zero column s in
  let code := computeFirstDerivatives oob_zero column Dqdt Dpdt Dydt Qeq Q V P Yi s in
  let F_U := later_stages_F_of_committed oob_zero column s in
  vec s = vec (start column) /\
  rd oob_zero (vec u1 Ptnew) 1 = 105790.1756619126%float /\
  (rd oob_zero (vec s Pt) 1 + dt column * rd oob_zero (vec code Dpdt) 1)%float
  = 105790.1756619126%float /\
  (rd oob_zero (vec s Pt) 1 + dt column * rd oob_zero (vec F_U Dpdt) 1)%float
  = 105828.65971433061%float /\
  rd oob_zero (vec u1 Ptnew) 2 = 102963.12876463251%float /\
  (rd oob_zero (vec s Pt) 2 + dt column * rd oob_zero (vec code Dpdt) 2)%float
  = 102963.12876463251%float /\
  (rd oob_zero (vec s Pt) 2 + dt column * rd oob_zero (vec F_U Dpdt) 2)%float
  = 102913.16892268565%float.
Proof.
  cbv zeta. split; [apply autoStepsCheck_vec|]. vm_compute. repeat split.
Qed.

(** C10 (the code departs from it): on [column], stage 1 hands
    [computeFirstDerivatives] the vector [P] of the 8 partial pressures,
    not the vector [Pt] of the 4 total pressures: the derivative it computes
    at the inlet is the one of [P[0]] and [P[1]], the partial pressures of
    the two components at node 0, and differs from the one of [Pt[0]] and
    [Pt[1]]. *)
Theorem stage1_passes_partial_pressures :
  let s := start column in
  length (vec s P) = 8 /\ length (vec s Pt) = 4 /\
  rd oob_zero (vec (SSP_RK_stage1 oob_zero column s) Dpdt) 0
  = inlet_dpdt oob_zero column Qeq Q V P s /\
  (inlet_dpdt oob_zero column Qeq Q V P s =? inlet_dpdt oob_zero column Qeq Q V Pt s)%float = false /\
  rd oob_zero (vec s P) 1 = 25000%float /\
  rd oob_zero (vec s Pt) 1 = 105828.69873710227%float.
Proof. vm_compute. repeat split. Qed.

(** C4 as stated fails: on [column_auto] the outlet has converged at step
    5, and the step leaves [Nsteps = 5], the truncation of [1.1 * 5 = 5.5],
    where the ceiling is 6. *)
Lemma autoSteps_ceiling_counterexample :
  autoSteps (start column_auto) = true /\
  (outletTolerance oob_zero column_auto (start column_auto) <? 0.01)%float = true /\
  observe (fun s => (Nsteps s, autoSteps s)) (step_of column_auto 5 (start column_auto))
  = Some (5, false) /\
  size_t_ceiling (1.1 * of_size_t 5) = 6.
Proof. vm_compute. repeat split. Qed.


(** C7 as stated fails: on [column] the partial pressure of the carrier gas
    at node 1 after [initialize] is [pt_init[1]], above [p_total]. *)
Lemma initial_carrier_pressure_counterexample :
  let s := start column in
  rd oob_zero (vec s P) (1 * Ncomp column + carrierGasComponent column)
  = rd oob_zero (pt_init pow_three_halves oob_zero column) 1 /\
  (rd oob_zero (vec s P) (1 * Ncomp column + carrierGasComponent column) =? p_total column)%float
  = false /\
  (p_total column <? rd oob_zero (vec s P) (1 * Ncomp column + carrierGasComponent column))%float
  = true.
Proof. vm_compute. repeat split. Qed.

(** * The further properties on the example columns *)

Lemma column_loadings_complete :
  exists s', computeEquilibriumLoadings (langmuir 0) oob_zero column (start column) = Ok s'.
Proof.
  pose proof (computeEquilibriumLoadings_cases (langmuir 0) oob_zero column (start column)) as C.
  destruct (computeEquilibriumLoadings (langmuir 0) oob_zero column (start column)) as [s'|e].
  - by exists s'.
  - vm_compute in C. discriminate.
Qed.

Lemma column_sizes b : length (vec (start column) b) = size column b.
Proof. apply column_wf. Qed.

Lemma computeStep_keeps_sizes_witness :
  wf column (start column) /\
  exists s', step_of column 0 (start column) = Ok s' /\ wf column s'.
Proof.
  split; [exact column_wf|].
  destruct column_step_completes as [s' E]. exists s'. split; [exact E|].
  exact (computeStep_keeps_sizes pow_three_halves (langmuir 0) oob_zero column 0 _ s'
           column_wf E).
Defined.

Lemma computeStep_reconstructs_partial_pressures_witness :
  wf column (start column) /\ 1 <= Ngrid column /\ 0 < Ncomp column /\
  exists s', step_of column 0 (start column) = Ok s' /\
    rd oob_zero (vec s' P) (1 * Ncomp column + 0) =
    (rd oob_zero (vec s' Yi) (1 * Ncomp column + 0) * rd oob_zero (vec s' Pt) 1)%float.
Proof.
  assert (H1 : 1 <= Ngrid column) by (vm_compute; lia).
  assert (H2 : 0 < Ncomp column) by (vm_compute; lia).
  split; [exact column_wf|]. split; [exact H1|]. split; [exact H2|].
  destruct column_step_completes as [s' E]. exists s'. split; [exact E|].
  exact (computeStep_reconstructs_partial_pressures pow_three_halves (langmuir 0) oob_zero
           column 0 _ s' 1 0 column_wf E H1 H2 (or_introl (le_n 1))).
Defined.

Lemma computeStep_velocity_of_entry_pressures_witness :
  wf column (start column) /\
  exists s', step_of column 0 (start column) = Ok s' /\
    rd oob_zero (vec s' V) 0 = v_in column.
Proof.
  split; [exact column_wf|].
  destruct column_step_completes as [s' E]. exists s'. split; [exact E|].
  exact (proj1 (computeStep_velocity_of_entry_pressures pow_three_halves (langmuir 0)
                  oob_zero column 0 _ s' column_wf E)).
Defined.

Lemma computeStep_keeps_stage1_derivatives_witness :
  exists s', step_of column 0 (start column) = Ok s' /\
    vec s' Dqdt =
    vec (computeFirstDerivatives oob_zero column Dqdt Dpdt Dydt Qeq Q V P Yi (start column))
        Dqdt.
Proof.
  destruct column_step_completes as [s' E]. exists s'. split; [exact E|].
  exact (proj1 (computeStep_keeps_stage1_derivatives pow_three_halves (langmuir 0)
                  oob_zero column 0 _ s' E)).
Defined.

Lemma computeStep_never_writes_witness :
  exists s', step_of column 0 (start column) = Ok s' /\
    vec s' prefactor = vec (start column) prefactor.
Proof.
  destruct column_step_completes as [s' E]. exists s'. split; [exact E|].
  exact (proj1 (computeStep_never_writes pow_three_halves (langmuir 0)
                  oob_zero column 0 _ s' E)).
Defined.

Lemma computeVelocity_writes_Vnew_only_witness :
  1 <= Ngrid column /\ Ngrid column < length (vec (start column) Vnew) /\
  rd oob_zero (vec (computeVelocity pow_three_halves oob_zero column (T column) (start column))
                   Vnew) 0 = v_in column.
Proof.
  assert (H1 : 1 <= Ngrid column) by (vm_compute; lia).
  assert (H2 : Ngrid column < length (vec (start column) Vnew))
    by (rewrite column_sizes; vm_compute; lia).
  split; [exact H1|]. split; [exact H2|].
  exact (proj1 (computeVelocity_writes_Vnew_only pow_three_halves oob_zero column (T column)
                  (start column) H1 H2)).
Defined.

Lemma column_derivative_sizes :
  (Ngrid column + 1) * Ncomp column <= length (vec (start column) Dqdt) /\
  (Ngrid column + 1) * Ncomp column <= length (vec (start column) Dydt) /\
  Ngrid column < length (vec (start column) Dpdt).
Proof. rewrite !column_sizes. vm_compute. lia. Qed.

Lemma computeFirstDerivatives_linear_driving_force_witness :
  no_alias Dqdt Dpdt Dydt Qeq Q V P /\ Dqdt <> Dydt /\
  (Ngrid column + 1) * Ncomp column <= length (vec (start column) Dqdt) /\
  (Ngrid column + 1) * Ncomp column <= length (vec (start column) Dydt) /\
  Ngrid column < length (vec (start column) Dpdt) /\
  0 <= Ngrid column /\ 1 < Ncomp column /\
  rd oob_zero
     (vec (computeFirstDerivatives oob_zero column Dqdt Dpdt Dydt Qeq Q V P Yi (start column))
          Dqdt) (0 * Ncomp column + 1) =
  (Kl (component column 1)
   * (rd oob_zero (vec (start column) Qeq) (0 * Ncomp column + 1)
      - rd oob_zero (vec (start column) Q) (0 * Ncomp column + 1)))%float.
Proof.
  destruct column_derivative_sizes as (Hq & Hy & Hp).
  assert (Hd : Dqdt <> Dydt) by discriminate.
  assert (H1 : 0 <= Ngrid column) by lia.
  assert (H2 : 1 < Ncomp column) by (vm_compute; lia).
  refine (conj column_no_alias (conj Hd (conj Hq (conj Hy (conj Hp (conj H1 (conj H2 _))))))).
  exact (computeFirstDerivatives_linear_driving_force oob_zero column Dqdt Dpdt Dydt Qeq Q V P Yi
           (start column) 0 1 column_no_alias Hd Hq Hy Hp H1 H2).
Defined.

Lemma computeFirstDerivatives_inlet_dydt_zero_witness :
  no_alias Dqdt Dpdt Dydt Qeq Q V P /\ Dqdt <> Dydt /\
  1 <= Ngrid column /\ 1 < Ncomp column /\
  rd oob_zero
     (vec (computeFirstDerivatives oob_zero column Dqdt Dpdt Dydt Qeq Q V P Yi (start column))
          Dydt) (0 * Ncomp column + 1) = 0%float.
Proof.
  destruct column_derivative_sizes as (Hq & Hy & Hp).
  assert (Hd : Dqdt <> Dydt) by discriminate.
  assert (H1 : 1 <= Ngrid column) by (vm_compute; lia).
  assert (H2 : 1 < Ncomp column) by (vm_compute; lia).
  refine (conj column_no_alias (conj Hd (conj H1 (conj H2 _)))).
  exact (computeFirstDerivatives_inlet_dydt_zero oob_zero column Dqdt Dpdt Dydt Qeq Q V P Yi
           (start column) 1 column_no_alias Hd Hq Hy Hp H1 H2).
Defined.

Lemma computeFirstDerivatives_interior_dpdt_witness :
  no_alias Dqdt Dpdt Dydt Qeq Q V P /\ Dqdt <> Dydt /\
  1 <= Ncomp column /\ 1 <= 2 < Ngrid column /\
  rd oob_zero
     (vec (computeFirstDerivatives oob_zero column Dqdt Dpdt Dydt Qeq Q V P Yi (start column))
          Dpdt) 2 =
  (- rd oob_zero (vec (start column) V) 2
     * (rd oob_zero (vec (start column) P) (2 + 1) - rd oob_zero (vec (start column) P) 2)
     * idx column
   - rd oob_zero (vec (start column) P) 2
     * (rd oob_zero (vec (start column) V) (2 + 1) - rd oob_zero (vec (start column) V) 2)
     * idx column
   - rd oob_zero (vec (start column) prefactor) (Ncomp column - 1)
     * (rd oob_zero (vec (start column) Qeq) (2 * Ncomp column + (Ncomp column - 1))
        - rd oob_zero (vec (start column) Q) (2 * Ncomp column + (Ncomp column - 1))))%float.
Proof.
  destruct column_derivative_sizes as (Hq & Hy & Hp).
  assert (Hd : Dqdt <> Dydt) by discriminate.
  assert (H1 : 1 <= Ncomp column) by (vm_compute; lia).
  assert (H2 : 1 <= 2 < Ngrid column) by (vm_compute; lia).
  refine (conj column_no_alias (conj Hd (conj H1 (conj H2 _)))).
  exact (computeFirstDerivatives_interior_dpdt oob_zero column Dqdt Dpdt Dydt Qeq Q V P Yi
           (start column) 2 column_no_alias Hd Hq Hy Hp H1 H2).
Defined.

Lemma computeInitialPressure_profile_witness :
  length (replicate 4 0%float) = Ngrid column + 1 /\
  rd oob_zero (computeInitialPressure pow_three_halves oob_zero column (replicate 4 0%float)
                 (T column)) (Ngrid column) = p_total column.
Proof.
  assert (H : length (replicate 4 0%float) = Ngrid column + 1) by reflexivity.
  split; [exact H|].
  exact (proj1 (proj2 (computeInitialPressure_profile pow_three_halves oob_zero column
                         (replicate 4 0%float) (T column) H))).
Defined.

Lemma computeInitialPressure_ignores_buffer_witness :
  length (replicate 4 0%float) = Ngrid column + 1 /\
  length (replicate 4 1%float) = Ngrid column + 1 /\
  computeInitialPressure pow_three_halves oob_zero column (replicate 4 0%float) (T column) =
  computeInitialPressure pow_three_halves oob_zero column (replicate 4 1%float) (T column).
Proof.
  assert (H : length (replicate 4 0%float) = Ngrid column + 1) by reflexivity.
  assert (H' : length (replicate 4 1%float) = Ngrid column + 1) by reflexivity.
  split; [exact H|]. split; [exact H'|].
  exact (computeInitialPressure_ignores_buffer pow_three_halves oob_zero column
           (replicate 4 0%float) (replicate 4 1%float) (T column) H H').
Defined.

Lemma initialize_prefactor_and_velocity_witness :
  wf column (Breakthrough column) /\
  forall i, i <= Ngrid column ->
    rd oob_zero (vec (start column) V) i =
    (v_in column * p_total column / rd oob_zero (pt_init pow_three_halves oob_zero column) i)%float.
Proof.
  split; [exact column_constructed_wf|].
  exact (proj2 (initialize_prefactor_and_velocity pow_three_halves (langmuir 0) oob_zero column
                  (Breakthrough column) column_constructed_wf)).
Defined.

Lemma initialize_frame_witness :
  wf column (Breakthrough column) /\ wf column (start column).
Proof.
  split; [exact column_constructed_wf|].
  exact (proj1 (initialize_frame pow_three_halves (langmuir 0) oob_zero column
                  (Breakthrough column) column_constructed_wf)).
Defined.

Lemma initialize_total_pressure_witness :
  wf column (Breakthrough column) /\ 0 <= Ngrid column /\
  rd oob_zero (vec (start column) Pt) 0 =
  for_loop 0 (Ncomp column)
    (fun j acc => (acc + fmax 0 (rd oob_zero (vec (start column) P) (0 * Ncomp column + j)))%float)
    0%float.
Proof.
  split; [exact column_constructed_wf|]. split; [lia|].
  exact (initialize_total_pressure pow_three_halves (langmuir 0) oob_zero column
           (Breakthrough column) 0 column_constructed_wf (Nat.le_0_l _)).
Defined.

Lemma initialize_mole_fractions_witness :
  wf column (Breakthrough column) /\ 1 <= Ngrid column /\ 0 < Ncomp column /\
  rd oob_zero (vec (start column) Yi) (1 * Ncomp column + 0) =
  (fmax (rd oob_zero (vec (start column) P) (1 * Ncomp column + 0)
         / rd oob_zero (pt_init pow_three_halves oob_zero column) 1) 0
   / for_loop 0 (Ncomp column) (fun k sum =>
       sum + fmax (rd oob_zero (vec (start column) P) (1 * Ncomp column + k)
                   / rd oob_zero (pt_init pow_three_halves oob_zero column) 1) 0) 0)%float.
Proof.
  assert (H1 : 1 <= Ngrid column) by (vm_compute; lia).
  assert (H2 : 0 < Ncomp column) by (vm_compute; lia).
  split; [exact column_constructed_wf|]. split; [exact H1|]. split; [exact H2|].
  exact (initialize_mole_fractions pow_three_halves (langmuir 0) oob_zero column
           (Breakthrough column) 1 0 column_constructed_wf H1 H2).
Defined.

Lemma computeEquilibriumLoadings_calls_oracle_per_node_witness :
  wf column (start column) /\
  exists s', computeEquilibriumLoadings (langmuir 0) oob_zero column (start column) = Ok s' /\
    forall b, b <> Qeqnew -> vec s' b = vec (start column) b.
Proof.
  split; [exact column_wf|].
  destruct column_loadings_complete as [s' E]. exists s'. split; [exact E|].
  exact (proj1 (computeEquilibriumLoadings_calls_oracle_per_node (langmuir 0) oob_zero column
                  (start column) s' column_wf E)).
Defined.

Lemma computeStep_loadings_of_entry_state_witness :
  wf column (start column) /\ 0 <= Ngrid column /\
  exists s', step_of column 0 (start column) = Ok s' /\
    exists c, forall j, j < Ncomp column ->
      rd oob_zero (vec s' Qeq) (0 * Ncomp column + j) =
      rd oob_zero (pred_Ni (langmuir 0 (Yi_at oob_zero column 0 (start column))
                              (rd oob_zero (vec (start column) Pt) 0) c)) j.
Proof.
  split; [exact column_wf|]. split; [lia|].
  destruct column_step_completes as [s' E]. exists s'. split; [exact E|].
  exact (computeStep_loadings_of_entry_state pow_three_halves (langmuir 0) oob_zero column 0
           _ s' 0 column_wf E (Nat.le_0_l _)).
Defined.

Lemma maxVectorDifference_is_largest_witness :
  [1; 5]%float <> [] /\ length [1; 5]%float = length [2; 2]%float /\
  exists m, maxVectorDifference oob_zero [1; 5]%float [2; 2]%float = inr m /\
    (exists i, i < length [1; 5]%float /\
       m = abs (rd oob_zero [1; 5]%float i - rd oob_zero [2; 2]%float i)%float) /\
    forall i, i < length [1; 5]%float ->
      (m <? abs (rd oob_zero [1; 5]%float i - rd oob_zero [2; 2]%float i))%float = false.
Proof.
  assert (H : [1; 5]%float <> []) by discriminate.
  split; [exact H|]. split; [reflexivity|].
  exact (maxVectorDifference_is_largest oob_zero [1; 5]%float [2; 2]%float H eq_refl).
Defined.

Lemma autoStepsCheck_takes_nan_for_converged_witness :
  autoSteps (wr P 3 nan (start column_auto)) = true /\
  (forall j, j < Ncomp column_auto ->
     is_nan (rd oob_zero (vec (wr P 3 nan (start column_auto)) P)
               (Ngrid column_auto * Ncomp column_auto + j)) = true) /\
  outletTolerance oob_zero column_auto (wr P 3 nan (start column_auto)) = 0%float.
Proof.
  assert (H1 : autoSteps (wr P 3 nan (start column_auto)) = true) by (vm_compute; reflexivity).
  assert (H2 : forall j, j < Ncomp column_auto ->
            is_nan (rd oob_zero (vec (wr P 3 nan (start column_auto)) P)
                      (Ngrid column_auto * Ncomp column_auto + j)) = true).
  { intros j Hj. assert (j = 0) as -> by (vm_compute in Hj; lia). vm_compute. reflexivity. }
  split; [exact H1|]. split; [exact H2|].
  exact (proj1 (autoStepsCheck_takes_nan_for_converged oob_zero column_auto 0
                  (wr P 3 nan (start column_auto)) H1 H2)).
Defined.

Lemma run_performs_Nsteps_witness :
  0 < 1 /\ autoSteps (set_Nsteps 2 (start column)) = false /\
  Nsteps (set_Nsteps 2 (start column)) <= 2 /\
  match steps pow_three_halves (langmuir 0) oob_zero column
          (Nsteps (set_Nsteps 2 (start column))) 0 (set_Nsteps 2 (start column)) with
  | Ok s' =>
      exists out,
        run pow_three_halves (langmuir 0) oob_zero column 1 1 2 (set_Nsteps 2 (start column))
        = Finished (s', out) /\
        length out = (Nsteps (set_Nsteps 2 (start column)) + 1 - 1) / 1
  | Throw e =>
      run pow_three_halves (langmuir 0) oob_zero column 1 1 2 (set_Nsteps 2 (start column))
      = Aborted e
  end.
Proof.
  assert (H0 : 0 < 1) by lia.
  assert (H1 : autoSteps (set_Nsteps 2 (start column)) = false) by (vm_compute; reflexivity).
  assert (H2 : Nsteps (set_Nsteps 2 (start column)) <= 2) by (simpl; lia).
  split; [exact H0|]. split; [exact H1|]. split; [exact H2|].
  exact (run_performs_Nsteps pow_three_halves (langmuir 0) oob_zero column 1 1 2
           (set_Nsteps 2 (start column)) H0 H0 H1 H2).
Defined.

Lemma stepLoop_runs_to_new_Nsteps_witness :
  0 < 1 /\ autoSteps (start column_auto) = true /\
  (outletTolerance oob_zero column_auto (start column_auto) <? 0.01)%float = true /\
  to_size_t (1.1 * of_size_t 5)%float - 6 <= 0 /\
  match steps pow_three_halves (langmuir 0) oob_zero column_auto
          (S (to_size_t (1.1 * of_size_t 5)%float - 6)) 5 (start column_auto) with
  | Ok s' =>
      exists out',
        stepLoop pow_three_halves (langmuir 0) oob_zero column_auto 1 1 RunFrame
          (run_frame oob_zero column_auto) 1 5 (start column_auto) [] = Finished (s', out') /\
        Nsteps s' = to_size_t (1.1 * of_size_t 5)%float /\ autoSteps s' = false
  | Throw e =>
      stepLoop pow_three_halves (langmuir 0) oob_zero column_auto 1 1 RunFrame
        (run_frame oob_zero column_auto) 1 5 (start column_auto) [] = Aborted e
  end.
Proof.
  assert (H0 : 0 < 1) by lia.
  assert (H1 : autoSteps (start column_auto) = true) by (vm_compute; reflexivity).
  assert (H2 : (outletTolerance oob_zero column_auto (start column_auto) <? 0.01)%float = true)
    by (vm_compute; reflexivity).
  assert (H3 : to_size_t (1.1 * of_size_t 5)%float - 6 <= 0) by (vm_compute; lia).
  split; [exact H0|]. split; [exact H1|]. split; [exact H2|]. split; [exact H3|].
  exact (stepLoop_runs_to_new_Nsteps pow_three_halves (langmuir 0) oob_zero column_auto 1 1
           RunFrame (run_frame oob_zero column_auto) 0 5 (start column_auto) [] H0 H0 H1 H2 H3).
Defined.

Lemma column_row_layout_witness :
  1 < Ncomp column /\
  length (column_row oob_zero column (start column) 2) = 3 + 6 * Ncomp column.
Proof.
  assert (H : 1 < Ncomp column) by (vm_compute; lia).
  split; [exact H|].
  exact (proj1 (column_row_layout oob_zero column (start column) 2 1 H)).
Defined.
